(** * Coverage interval engine of the reference-based cactus constructor

    A shallow embedding of the coverage and remapping routines of
    [src/mapping_functions.py] and [remap_stats/remap_stats_jupyter.py]:
    the sweep that turns mapping start/stop points into covered regions,
    the per-contig length sums, the extraction of poorly mapped regions and
    the relocation of remapped fragments to their source contigs.

    Python integers are unbounded, so coordinates are [Z].  Dictionaries are
    [gmap string _]; a [collections.defaultdict(list)] is a [gmap] that has
    no entry for a key nothing was appended to, read through [dd_get].
    Identifiers and lines are [string]s whose characters stand for the code
    points 0..255. *)

From Stdlib Require Import ZArith List String Ascii Lia Bool.
From Stdlib Require Import DecimalString DecimalPos.
From stdpp Require Import base gmap strings list sorting.

Local Open Scope Z_scope.

(** ** Python exceptions the routines can raise *)

Inductive exn : Type :=
  | IndexError
  | ValueError.

Inductive result (A : Type) : Type :=
  | Ok (a : A)
  | Raise (e : exn).
Arguments Ok {A} a.
Arguments Raise {A} e.

Global Instance result_ret : MRet result := fun _ a => Ok a.
Global Instance result_bind : MBind result := fun _ _ k m =>
  match m with
  | Ok a => k a
  | Raise e => Raise e
  end.

(** Whether a call ended in an exception. *)
Definition raised {A} (r : result A) : bool :=
  match r with
  | Ok _ => false
  | Raise _ => true
  end.

(** [d[k]] on a [defaultdict(list)] that is only read. *)
Definition dd_get {V} (d : gmap string (list V)) (k : string) : list V :=
  default [] (d !! k).

(** [d[k].append(x)] for each [x] of [xs], in order: a key nothing is
    appended to gets no entry. *)
Definition dd_entry {V} (xs : list V) : option (list V) :=
  match xs with
  | [] => None
  | _ :: _ => Some xs
  end.

(** ** Coverage points and the sweep *)

Module Coverage.

(** A coverage point [(position, start_bool)]. *)
Definition point : Type := Z * bool.
(** A coordinate pair [(start, stop)]. *)
Definition coord : Type := Z * Z.

(** Python's order on [bool]: [False < True]. *)
Definition bool_leb (a b : bool) : bool := implb a b.

(** The order [sorted(..., key=operator.itemgetter(0, 1))] sorts by: tuples
    [(position, start_bool)] compared lexicographically. *)
Definition point_leb (x y : point) : bool :=
  (fst x <? fst y) || ((fst x =? fst y) && bool_leb (snd x) (snd y)).

Definition point_le (x y : point) : Prop := point_leb x y = true.

Global Instance point_le_dec x y : Decision (point_le x y).
Proof. unfold point_le. apply _. Defined.

(** [sorted] is a stable merge sort. *)
Definition sorted (pts : list point) : list point := merge_sort point_le pts.

(** [get_coverage_points_from_mapping_coords], the list of one sequence. *)
Definition coverage_points_of_coords (coords_list : list coord) : list point :=
  flat_map (fun c => [(fst c, true); (snd c, false)]) coords_list.

Definition get_coverage_points_from_mapping_coords
    (mapping_coords : gmap string (list coord)) : gmap string (list point) :=
  omap (fun coords_list => dd_entry (coverage_points_of_coords coords_list))
       mapping_coords.

(** The loop state of [get_coverage_coords_from_coverage_points] (the
    notebook) and of [get_mapping_coverage_coordinates] (the pipeline), which
    have the same body, for one contig: [open_points], [current_region] and
    the coords appended so far. *)
Record sweep : Type := MkSweep {
  open_points : Z;
  current_region : coord;
  saved : list coord
}.

Definition sweep_init : sweep := MkSweep 0 (0, 0) [].

(** One iteration of the loop body on the point [pt]. *)
Definition sweep_step (st : sweep) (pt : point) : sweep :=
  let region :=
    if open_points st =? 0 then current_region st
    else (fst (current_region st), fst pt) in
  if snd pt then
    let n := open_points st + 1 in
    MkSweep n (if n =? 1 then (fst pt, snd region) else region) (saved st)
  else
    let n := open_points st - 1 in
    MkSweep n region (if n =? 0 then saved st ++ [region] else saved st).

Definition sweep_points (pts : list point) : list coord :=
  saved (fold_left sweep_step pts sweep_init).

(** The coords of one contig: sort its points, then sweep. *)
Definition contig_coverage_coords (pts : list point) : list coord :=
  sweep_points (sorted pts).

Definition get_coverage_coords_from_coverage_points
    (mapping_coverage_points : gmap string (list point))
    : gmap string (list coord) :=
  omap (fun pts => dd_entry (contig_coverage_coords pts))
       mapping_coverage_points.

Definition get_mapping_coverage_coordinates
    (mapping_coverage_points : gmap string (list point))
    : gmap string (list coord) :=
  get_coverage_coords_from_coverage_points mapping_coverage_points.

(** [get_mapping_coverage_lengths_from_coverage_coords], one contig. *)
Definition coverage_length (coords : list coord) : Z :=
  fold_left (fun acc c => acc + (snd c - fst c)) coords 0.

(** The result is a [defaultdict(int)]: a contig gets an entry when a length
    is added to it, and reads as 0 otherwise. *)
Definition get_mapping_coverage_lengths_from_coverage_coords
    (mapping_coverage_coords : gmap string (list coord)) : gmap string Z :=
  omap (fun coords => coverage_length <$> dd_entry coords)
       mapping_coverage_coords.

Definition covered_length_of (lengths : gmap string Z) (k : string) : Z :=
  default 0 (lengths !! k).

(** The statistics pipeline of [get_sequence_coverage] on one partition of
    the mapping coords: points, coverage coords, lengths. *)
Definition coverage_coords_pipeline (mapping_coords : gmap string (list coord))
    : gmap string (list coord) :=
  get_coverage_coords_from_coverage_points
    (get_coverage_points_from_mapping_coords mapping_coords).

Definition coverage_lengths_pipeline (mapping_coords : gmap string (list coord))
    : gmap string Z :=
  get_mapping_coverage_lengths_from_coverage_coords
    (coverage_coords_pipeline mapping_coords).

(** *** Reference notions the properties are stated with *)

(** The integer positions of the half-open interval [[start, stop)]. *)
Definition positions (c : coord) : gset Z :=
  list_to_set (seqZ (fst c) (snd c - fst c)).

(** The set union of the intervals, position by position. *)
Definition covered_positions (cs : list coord) : gset Z :=
  ⋃ (positions <$> cs).

(** The measure of the union: the number of positions covered by at least
    one interval. *)
Definition union_measure (cs : list coord) : Z :=
  Z.of_nat (size (covered_positions cs)).

(** Sorted ascending with no region reaching the next one's start:
    there is no [i] with [R_i.stop >= R_{i+1}.start]. *)
Definition separated (rs : list coord) : Prop :=
  forall (i : nat) (a b : coord),
    rs !! i = Some a -> rs !! S i = Some b -> snd a < fst b.

(** Sorted ascending and non-overlapping, touching allowed:
    [R_i.stop <= R_{i+1}.start]. *)
Definition non_overlapping (rs : list coord) : Prop :=
  forall (i : nat) (a b : coord),
    rs !! i = Some a -> rs !! S i = Some b -> snd a <= fst b.

Definition starts_ascending (rs : list coord) : Prop :=
  forall (i j : nat) (a b : coord),
    (i < j)%nat -> rs !! i = Some a -> rs !! j = Some b -> fst a < fst b.

(** The regions the merger yields for the input intervals of one sequence. *)
Definition merged_regions (coords_list : list coord) : list coord :=
  contig_coverage_coords (coverage_points_of_coords coords_list).

End Coverage.

Import Coverage.

(** ** Python list indexing and loops *)

(** [l[i]], negative indices counted from the end. *)
Definition py_index {A} (l : list A) (i : Z) : result A :=
  let n := Z.of_nat (length l) in
  let j := if i <? 0 then i + n else i in
  if (j <? 0) || (n <=? j) then Raise IndexError
  else match l !! Z.to_nat j with
       | Some x => Ok x
       | None => Raise IndexError
       end.

(** [range(n)]. *)
Definition py_range (n : Z) : list Z := seqZ 0 n.

(** [for i in items: st = body(st, i)], stopping at the first exception. *)
Fixpoint for_each {S I} (body : S -> I -> result S) (items : list I) (st : S)
    : result S :=
  match items with
  | [] => Ok st
  | i :: items' => st' ← body st i; for_each body items' st'
  end.

(** ** Poorly mapped regions *)

Module Gaps.

(** The body of the loop of [get_poor_mapping_coverage_coordinates] for a
    contig that is in [mapping_coverage_coords]; [poor] is the list
    [poor_mapping_coords[contig_id]] built so far. *)
Section contig.
Context (contig_length : Z) (coords : list coord).
Context (sequence_context minimum_size_remap : Z).

Definition leading_gap (first : coord) : list coord :=
  if fst first >? 0 then
    let poor_mapping_stop := fst first + sequence_context in
    let poor_mapping_stop :=
      if poor_mapping_stop >? contig_length then contig_length
      else poor_mapping_stop in
    if poor_mapping_stop - 0 >=? minimum_size_remap
    then [(0, poor_mapping_stop)] else []
  else [].

Definition interior_gap (poor : list coord) (i : Z) : result (list coord) :=
  this ← py_index coords i;
  let poor_mapping_start := snd this - sequence_context in
  let poor_mapping_start :=
    if poor_mapping_start <? 0 then 0 else poor_mapping_start in
  next ← py_index coords (i + 1);
  let poor_mapping_stop := fst next + sequence_context in
  let poor_mapping_stop :=
    if poor_mapping_stop >? contig_length then contig_length
    else poor_mapping_stop in
  if poor_mapping_stop - poor_mapping_start >=? minimum_size_remap
  then Ok (poor ++ [(poor_mapping_start, poor_mapping_stop)])
  else Ok poor.

Definition trailing_gap (last : coord) : list coord :=
  if snd last <? contig_length then
    let poor_mapping_start := snd last - sequence_context in
    let poor_mapping_start :=
      if poor_mapping_start <? 0 then 0 else poor_mapping_start in
    if contig_length - poor_mapping_start >=? minimum_size_remap
    then [(poor_mapping_start, contig_length)] else []
  else [].

Definition contig_poor_mapping_coords : result (list coord) :=
  first ← py_index coords 0;
  let poor := leading_gap first in
  poor ← for_each interior_gap
            (py_range (Z.of_nat (length coords) - 1)) poor;
  last ← py_index coords (-1);
  Ok (poor ++ trailing_gap last).
End contig.

(** One iteration of [for contig_id in contig_lengths]. *)
Definition poor_coords_of_contig
    (mapping_coverage_coords : gmap string (list coord))
    (sequence_context minimum_size_remap : Z)
    (contig_id : string) (contig_length : Z) : result (list coord) :=
  match mapping_coverage_coords !! contig_id with
  | Some coords =>
      contig_poor_mapping_coords contig_length coords
        sequence_context minimum_size_remap
  | None => Ok [(0, contig_length)]
  end.

(** [get_poor_mapping_coverage_coordinates]: the loop over the keys of
    [contig_lengths].  Each iteration appends only to the entry of its own
    contig, and an exception ends the call. *)
Definition get_poor_mapping_coverage_coordinates
    (contig_lengths : gmap string Z)
    (mapping_coverage_coords : gmap string (list coord))
    (sequence_context minimum_size_remap : Z)
    : result (gmap string (list coord)) :=
  map_fold
    (fun contig_id contig_length acc =>
       poor_mapping_coords ← acc;
       poor ← poor_coords_of_contig mapping_coverage_coords
                sequence_context minimum_size_remap contig_id contig_length;
       Ok (match dd_entry poor with
           | Some l => <[contig_id := l]> poor_mapping_coords
           | None => poor_mapping_coords
           end))
    (Ok ∅) contig_lengths.

(** *** The contract of the gap extractor, as the specification words it *)

Section contract.
Context (L C M : Z).

Definition leading_candidate (regions : list coord) : list coord :=
  match regions with
  | r0 :: _ => if 0 <? fst r0 then [(0, Z.min (fst r0 + C) L)] else []
  | [] => []
  end.

Fixpoint interior_candidates (regions : list coord) : list coord :=
  match regions with
  | r :: (r' :: _) as rest =>
      (Z.max (snd r - C) 0, Z.min (fst r' + C) L) :: interior_candidates rest
  | _ => []
  end.

Definition trailing_candidate (regions : list coord) : list coord :=
  match last regions with
  | Some r => if snd r <? L then [(Z.max (snd r - C) 0, L)] else []
  | None => []
  end.

Definition long_enough (g : coord) : bool := M <=? snd g - fst g.

Definition contract_gaps (regions : list coord) : list coord :=
  List.filter long_enough
    (leading_candidate regions ++ interior_candidates regions
       ++ trailing_candidate regions).
End contract.

End Gaps.

(** ** Relocating remapped fragments *)

Module Relocate.

(** *** The string operations of Python the routine uses *)

(** Whitespace, for [str.split()] with no separator. *)
Definition is_space (c : ascii) : bool :=
  let n := nat_of_ascii c in
  ((9 <=? n) && (n <=? 13) || (28 <=? n) && (n <=? 32)
   || (n =? 133) || (n =? 160))%nat.

(** [s.split()]: the maximal runs of characters that are not whitespace. *)
Fixpoint split_ws (s : string) : list string :=
  match s with
  | EmptyString => []
  | String c s' =>
      if is_space c then split_ws s'
      else match s' with
           | EmptyString => [String c EmptyString]
           | String c' _ =>
               if is_space c' then String c EmptyString :: split_ws s'
               else match split_ws s' with
                    | tok :: toks => String c tok :: toks
                    | [] => [String c EmptyString]
                    end
           end
  end.

(** [sub in s]. *)
Fixpoint contains (sub s : string) : bool :=
  String.prefix sub s
  || match s with
     | EmptyString => false
     | String _ s' => contains sub s'
     end.

(** [s.split(sep)] for a non-empty [sep], scanning left to right: [skip]
    counts the characters of a separator still to be passed over and [cur]
    is the piece read so far. *)
Fixpoint split_go (sep : string) (skip : nat) (cur s : string) : list string :=
  match s with
  | EmptyString => [cur]
  | String c s' =>
      match skip with
      | S k => split_go sep k cur s'
      | O =>
          if String.prefix sep s
          then cur :: split_go sep (String.length sep - 1) EmptyString s'
          else split_go sep 0 (cur +:+ String c EmptyString) s'
      end
  end.

Definition py_split (sep s : string) : list string :=
  split_go sep 0 EmptyString s.

(** [sep.join(pieces)]. *)
Definition py_join (sep : string) (pieces : list string) : string :=
  String.concat sep pieces.

Definition digit_value (c : ascii) : option Z :=
  let n := nat_of_ascii c in
  if ((48 <=? n) && (n <=? 57))%nat then Some (Z.of_nat n - 48) else None.

(** The digits of an [int] literal: decimal digits, single underscores
    allowed between digits. *)
Fixpoint int_digits (acc : Z) (after_digit : bool) (s : string) : option Z :=
  match s with
  | EmptyString => if after_digit then Some acc else None
  | String c s' =>
      match digit_value c with
      | Some d => int_digits (10 * acc + d) true s'
      | None =>
          if Ascii.eqb c "_" && after_digit then int_digits acc false s'
          else None
      end
  end.

(** [int(s)] for a token [s]: the tokens come out of [split_ws], so have no
    surrounding whitespace for [int] to strip.  The interpreter's limit on
    the number of digits of a literal is not modelled. *)
Definition py_int (s : string) : result Z :=
  let parsed :=
    match s with
    | String "-" s' => Z.opp <$> int_digits 0 false s'
    | String "+" s' => int_digits 0 false s'
    | _ => int_digits 0 false s
    end in
  match parsed with
  | Some z => Ok z
  | None => Raise ValueError
  end.

(** [str(z)]. *)
Definition py_str (z : Z) : string := NilEmpty.string_of_int (Z.to_int z).

Definition tab : string := String (ascii_of_nat 9) EmptyString.
Definition newline : string := String (ascii_of_nat 10) EmptyString.

(** *** [relocate_remapped_fragments_to_source_contigs] *)

(** What the loop body writes to the output file for one [line]. *)
Definition relocate_line (line : string) : result string :=
  let parsed := split_ws line in
  name ← py_index parsed 0;
  if contains "segment" name then
    let name_parsed := py_split "_segment_" name in
    new_name ← py_index name_parsed 0;
    tail ← py_index name_parsed 1;
    start_piece ← py_index (py_split "_" tail) (-3);
    segment_start ← py_int start_piece;
    field2 ← py_index parsed 2;
    local_start ← py_int field2;
    let mapping_start := segment_start + local_start in
    field3 ← py_index parsed 3;
    local_stop ← py_int field3;
    let mapping_stop := segment_start + local_stop in
    field1 ← py_index parsed 1;
    Ok (new_name +:+ tab +:+ field1 +:+ tab +:+ py_str mapping_start +:+ tab
          +:+ py_str mapping_stop +:+ tab +:+ py_join tab (drop 4 parsed)
          +:+ newline)
  else Ok line.

(** The lines written for the lines of the mapping file, in order. *)
Definition relocate_remapped_fragments_to_source_contigs
    (lines : list string) : result (list string) :=
  for_each (fun written line => out ← relocate_line line; Ok (written ++ [out]))
           lines [].

(** The name [get_poor_mapping_sequences] gives the fragment cut from
    [coord] of the contig [contig_name] (without the leading [>] of the
    FASTA header). *)
Definition fragment_name (contig_name : string) (c : coord) : string :=
  contig_name +:+ "_segment_start_" +:+ py_str (fst c) +:+ "_stop_"
    +:+ py_str (snd c).

(** [line.rstrip] of one final newline. *)
Fixpoint chomp (s : string) : string :=
  match s with
  | EmptyString => EmptyString
  | String c s' =>
      match s' with
      | EmptyString => if Ascii.eqb c (ascii_of_nat 10) then EmptyString else s
      | String _ _ => String c (chomp s')
      end
  end.

(** The tab-separated fields of a written line. *)
Definition fields_of_line (line : string) : list string :=
  py_split tab (chomp line).

(** *** Notions the proofs about strings use *)

Definition chars (s : string) : list ascii := list_ascii_of_string s.

(** No occurrence of [sep] starts within [a] when [a] is followed by
    [rest]. *)
Fixpoint no_match_in (sep a rest : string) : bool :=
  match a with
  | EmptyString => true
  | String _ a' => negb (String.prefix sep (a +:+ rest)) && no_match_in sep a' rest
  end.

(** The value of the decimal digits [d] read after the value [acc]. *)
Fixpoint uint_value (acc : Z) (d : Decimal.uint) : Z :=
  match d with
  | Decimal.Nil => acc
  | Decimal.D0 d' => uint_value (10 * acc + 0) d'
  | Decimal.D1 d' => uint_value (10 * acc + 1) d'
  | Decimal.D2 d' => uint_value (10 * acc + 2) d'
  | Decimal.D3 d' => uint_value (10 * acc + 3) d'
  | Decimal.D4 d' => uint_value (10 * acc + 4) d'
  | Decimal.D5 d' => uint_value (10 * acc + 5) d'
  | Decimal.D6 d' => uint_value (10 * acc + 6) d'
  | Decimal.D7 d' => uint_value (10 * acc + 7) d'
  | Decimal.D8 d' => uint_value (10 * acc + 8) d'
  | Decimal.D9 d' => uint_value (10 * acc + 9) d'
  end.

Definition is_digit_or_minus (c : ascii) : bool :=
  match digit_value c with
  | Some _ => true
  | None => Ascii.eqb c "-"
  end.

End Relocate.

Import Gaps Relocate.

(** ** Notions the proofs of the sweep use *)

Module SweepInv.

(** Stop of one region at or before the start of every later one. *)
Definition before (a b : coord) : Prop := snd a <= fst b.

(** What holds of the loop state when the points [rest] are still to come:
    every saved region is non-empty, the saved regions are in order, none
    reaches past a point still to come, and an open region starts after
    all saved ones and before every point still to come. *)
Record sweep_inv (st : sweep) (rest : list point) : Prop := {
  inv_nonempty : Forall (fun r => fst r < snd r) (saved st);
  inv_ordered : StronglySorted before (saved st);
  inv_behind : forall r e, r ∈ saved st -> e ∈ rest -> snd r <= fst e;
  inv_open_after : 1 <= open_points st ->
                   forall r, r ∈ saved st -> snd r <= fst (current_region st);
  inv_open_before : 1 <= open_points st ->
                    forall e, e ∈ rest ->
                      point_le (fst (current_region st), true) e
}.

(** Starts minus stops among the points [pts]. *)
Definition balance (pts : list point) : Z :=
  fold_right (fun (e : point) acc => (if snd e then 1 else -1) + acc) 0 pts.

(** Starts minus stops among the points at or left of position [x]. *)
Definition depth (pts : list point) (x : Z) : Z :=
  balance (List.filter (fun e : point => fst e <=? x) pts).

Definition inside (x : Z) (r : coord) : Prop := fst r <= x < snd r.

(** Position [x] lies in a saved region or in the region that is open. *)
Definition swept (st : sweep) (x : Z) : Prop :=
  Exists (inside x) (saved st)
  \/ (1 <= open_points st /\ fst (current_region st) <= x).

(** The number of intervals of [cs] that hold position [x]. *)
Definition cover_count (cs : list coord) (x : Z) : Z :=
  fold_right (fun (c : coord) acc => (if (fst c <=? x) && (x <? snd c) then 1 else 0) + acc)
             0 cs.

Definition total_length (cs : list coord) : Z :=
  fold_right (fun (c : coord) acc => (snd c - fst c) + acc) 0 cs.

(** Two loop states that save the same regions from here on: the stop of
    the current region is written again before it is saved. *)
Definition sweep_agree (st st' : sweep) : Prop :=
  open_points st = open_points st'
  /\ saved st = saved st'
  /\ fst (current_region st) = fst (current_region st').

(** The points that sort at or before the stop point at [p]. *)
Definition upto_stop (p : Z) (e : point) : bool := point_leb e (p, false).

End SweepInv.

Import SweepInv.

(** ** Reading the mapping files *)

Module Records.

(** [d[k].append(x)] on a [defaultdict(list)]. *)
Definition dd_append {V} (d : gmap string (list V)) (k : string) (x : V)
    : gmap string (list V) :=
  <[k := dd_get d k ++ [x]]> d.

(** The characters [int] passes over at both ends of its argument: the
    ASCII whitespace 0x09-0x0D and 0x20, and the blanks beyond ASCII (0x85
    and 0xA0 among the code points of a [string]), which it reads as
    spaces.  The separators 0x1C-0x1F are whitespace for [str.split()] but
    not for [int]: [int] raises on them. *)
Definition is_int_space (c : ascii) : bool :=
  let n := nat_of_ascii c in
  ((9 <=? n) && (n <=? 13) || (n =? 32) || (n =? 133) || (n =? 160))%nat.

(** The argument of [int] without what [int] passes over at its ends. *)
Fixpoint int_lstrip (s : string) : string :=
  match s with
  | EmptyString => EmptyString
  | String c s' => if is_int_space c then int_lstrip s' else s
  end.

Fixpoint int_rstrip (s : string) : string :=
  match s with
  | EmptyString => EmptyString
  | String c s' =>
      match int_rstrip s' with
      | EmptyString => if is_int_space c then EmptyString else String c EmptyString
      | String _ _ as kept => String c kept
      end
  end.

(** [int(s)] for a piece [s] of [line.split("\t")], which can hold
    whitespace around the digits, the newline of the line for one. *)
Definition py_int_field (s : string) : result Z :=
  py_int (int_rstrip (int_lstrip s)).

(** One iteration of the loop of [get_mapping_coverage_points] on the line
    [mapping] of the mapping file. *)
Definition coverage_points_step (mapq_cutoff : Z)
    (mapping_coverage_points : gmap string (list point)) (mapping : string)
    : result (gmap string (list point)) :=
  let mapping := py_split tab mapping in
  contig_id ← py_index mapping 0;
  field11 ← py_index mapping 11;
  mapq ← py_int_field field11;
  if mapq >=? mapq_cutoff then
    field2 ← py_index mapping 2;
    start ← py_int_field field2;
    let mapping_coverage_points :=
      dd_append mapping_coverage_points contig_id (start, true) in
    field3 ← py_index mapping 3;
    stop ← py_int_field field3;
    Ok (dd_append mapping_coverage_points contig_id (stop, false))
  else Ok mapping_coverage_points.

(** [get_mapping_coverage_points] on the lines of the mapping file. *)
Definition get_mapping_coverage_points (mapq_cutoff : Z) (lines : list string)
    : result (gmap string (list point)) :=
  for_each (coverage_points_step mapq_cutoff) lines ∅.

(** The two dictionaries [get_mapping_coords_from_mapping_files] fills. *)
Record mapping_coords : Type := MkCoords {
  ref_based_mapping_coords : gmap string (list coord);
  all_to_all_mapping_coords : gmap string (list coord)
}.

(** The tuple appended for a line: the coordinates in the order of the
    strand, or nothing for a strand that is neither [+] nor [-]. *)
Definition strand_coords (parsed : list string) : result (option coord) :=
  strand ← py_index parsed 4;
  if String.eqb strand "+" then
    field2 ← py_index parsed 2;
    first ← py_int field2;
    field3 ← py_index parsed 3;
    second ← py_int field3;
    Ok (Some (first, second))
  else if String.eqb strand "-" then
    field3 ← py_index parsed 3;
    first ← py_int field3;
    field2 ← py_index parsed 2;
    second ← py_int field2;
    Ok (Some (first, second))
  else Ok None.

(** One iteration of the inner loop on [line]: both branches of the test on
    the target have the same body, on their own dictionary. *)
Definition mapping_coords_step (chroms_in_ref : gset string)
    (st : mapping_coords) (line : string) : result mapping_coords :=
  let parsed := split_ws line in
  target ← py_index parsed 5;
  tuple ← strand_coords parsed;
  match tuple with
  | None => Ok st
  | Some c =>
      seq_id ← py_index parsed 1;
      if decide (target ∈ chroms_in_ref)
      then Ok (MkCoords (dd_append (ref_based_mapping_coords st) seq_id c)
                        (all_to_all_mapping_coords st))
      else Ok (MkCoords (ref_based_mapping_coords st)
                        (dd_append (all_to_all_mapping_coords st) seq_id c))
  end.

(** [get_mapping_coords_from_mapping_files] on the lines of the mapping
    files, file after file. *)
Definition get_mapping_coords_from_mapping_files
    (mapping_files : list (list string)) (chroms_in_ref : gset string)
    : result mapping_coords :=
  for_each (mapping_coords_step chroms_in_ref) (concat mapping_files)
           (MkCoords ∅ ∅).

(** Whether [exclude_supplementary_mappings] writes [line]. *)
Definition keeps_sam_line (line : string) : result bool :=
  match line with
  | EmptyString => Raise IndexError
  | String first _ =>
      if Ascii.eqb first "@" then Ok true
      else
        let parsed := split_ws line in
        field1 ← py_index parsed 1;
        flag ← py_int field1;
        Ok (negb (flag / 2048 =? 1))
  end.

Definition exclude_supplementary_mappings (lines : list string)
    : result (list string) :=
  for_each (fun written line =>
              keep ← keeps_sam_line line;
              Ok (if keep : bool then written ++ [line] else written))
           lines [].

(** [line.startswith("@")]. *)
Definition is_header (line : string) : bool := String.prefix "@" line.

(** [consolidate_mapping_files] on the lines of the files. *)
Definition consolidate_mapping_files (mapping_files : list (list string))
    : list string :=
  fold_left (fun written lines =>
               fold_left (fun written line =>
                            if is_header line then written
                            else written ++ [line])
                         lines written)
            mapping_files [].

End Records.

(** ** Sequences of the poorly mapped regions *)

Module Sequences.

(** [s[start:stop]] for integers [start] and [stop]. *)
Definition py_slice (s : string) (start stop : Z) : string :=
  let n := Z.of_nat (String.length s) in
  let clamp i := if i <? 0 then Z.max (i + n) 0 else Z.min i n in
  String.substring (Z.to_nat (clamp start))
                   (Z.to_nat (clamp stop - clamp start)) s.

(** The loop state of [get_poor_mapping_sequences]: the set
    [sequences_written] and what was written to the file, write by write. *)
Record extraction : Type := MkExtraction {
  sequences_written : gset string;
  written : list string
}.

(** The body of the inner loop for the coord [c] of the contig
    [contig_name] with the sequence [sequence]. *)
Definition write_fragment (contig_name sequence : string)
    (st : extraction) (c : coord) : extraction :=
  let sequence_name := ">" +:+ fragment_name contig_name c in
  if decide (sequence_name ∈ sequences_written st) then st
  else
    let low_mapq_sequence := py_slice sequence (fst c) (snd c) in
    MkExtraction ({[sequence_name]} ∪ sequences_written st)
                 (written st ++ [sequence_name +:+ newline;
                                 low_mapq_sequence +:+ newline]).

(** [get_poor_mapping_sequences]; [contigs] are the items of the index of
    the assembly file, name and sequence. *)
Definition extract_fragments (contigs : list (string * string))
    (poor_mapping_coords : gmap string (list coord)) : extraction :=
  fold_left (fun st contig =>
               fold_left (write_fragment (fst contig) (snd contig))
                         (dd_get poor_mapping_coords (fst contig)) st)
            contigs (MkExtraction ∅ []).

Definition get_poor_mapping_sequences (contigs : list (string * string))
    (poor_mapping_coords : gmap string (list coord)) : list string :=
  written (extract_fragments contigs poor_mapping_coords).

(** [get_all_contig_lengths]; each assembly file is the list of the items
    of its index. *)
Definition get_all_contig_lengths
    (assembly_files : list (list (string * string))) : gmap string Z :=
  fold_left (fun contig_lengths contigs =>
               fold_left (fun contig_lengths contig =>
                            <[fst contig := Z.of_nat (String.length (snd contig))]>
                              contig_lengths)
                         contigs contig_lengths)
            assembly_files ∅.

End Sequences.

(** ** Coverage statistics *)

Module Stats.

(** [get_sequence_lengths_remapped] has the body of
    [get_mapping_coverage_lengths_from_coverage_coords]. *)
Definition get_sequence_lengths_remapped
    (remapped_sequence_coords : gmap string (list coord)) : gmap string Z :=
  get_mapping_coverage_lengths_from_coverage_coords remapped_sequence_coords.

(** What [get_sequence_coverage] returns. *)
Record sequence_coverage : Type := MkCoverage {
  ref_based_mapping_coverage_lengths : gmap string Z;
  all_to_all_mapping_coverage_lengths : gmap string Z;
  sequence_lengths_remapped : gmap string Z
}.

(** [get_sequence_coverage], from the two dictionaries of mapping coords
    on. *)
Definition sequence_coverage_of (coords : Records.mapping_coords)
    (contig_lengths : gmap string Z) (sequence_context minimum_size_remap : Z)
    : result sequence_coverage :=
  let ref_based_mapping_coverage_coords :=
    coverage_coords_pipeline (Records.ref_based_mapping_coords coords) in
  let ref_lengths :=
    get_mapping_coverage_lengths_from_coverage_coords
      ref_based_mapping_coverage_coords in
  let all_lengths :=
    coverage_lengths_pipeline (Records.all_to_all_mapping_coords coords) in
  remapped_sequence_coords ←
    get_poor_mapping_coverage_coordinates
      contig_lengths ref_based_mapping_coverage_coords
      sequence_context minimum_size_remap;
  Ok (MkCoverage ref_lengths all_lengths
                 (get_sequence_lengths_remapped remapped_sequence_coords)).

Definition get_sequence_coverage
    (mapping_files : list (list string)) (chroms_in_ref : gset string)
    (contig_lengths : gmap string Z) (sequence_context minimum_size_remap : Z)
    : result sequence_coverage :=
  coords ← Records.get_mapping_coords_from_mapping_files
              mapping_files chroms_in_ref;
  sequence_coverage_of coords contig_lengths sequence_context minimum_size_remap.

End Stats.

Import Records Sequences Stats.

(** ** Notions the further properties are stated with *)

Module Bounds.

(** A coord that lies within a sequence of length [L]. *)
Definition within (L : Z) (c : coord) : Prop :=
  0 <= fst c /\ fst c <= snd c /\ snd c <= L.

(** A list of regions as the merger returns them: each one non-empty, in
    order, none reaching past the start of a later one. *)
Definition canonical (rs : list coord) : Prop :=
  Forall (fun r => fst r < snd r) rs /\ StronglySorted before rs.

(** The records a list of written lines is made of: a header line and a
    sequence line each. *)
Definition fasta_lines (records : list (string * string)) : list string :=
  flat_map (fun r => [fst r +:+ newline; snd r +:+ newline]) records.

(** The record written for the coord [c] of the contig [contig_name] with
    the sequence [sequence]: header and sequence, without their newlines. *)
Definition fragment_record (contig_name sequence : string) (c : coord)
    : string * string :=
  (">" +:+ fragment_name contig_name c, py_slice sequence (fst c) (snd c)).

(** The coordinates of a record of a mapping file follow its strand: the
    start is not after the stop on [+], and not before it on [-].  Holds of
    a line that has no such fields. *)
Definition follows_strand (line : string) : bool :=
  let parsed := split_ws line in
  match parsed !! 2%nat, parsed !! 3%nat, parsed !! 4%nat with
  | Some field2, Some field3, Some strand =>
      match py_int field2, py_int field3 with
      | Ok a, Ok b =>
          if String.eqb strand "+" then a <=? b
          else if String.eqb strand "-" then b <=? a
          else true
      | _, _ => true
      end
  | _, _, _ => true
  end.

(** What the relocator takes for the name of the parent contig of a line,
    the piece of the first field before the first [_segment_], is not empty
    and holds no [segment]. *)
Definition parent_is_plain (line : string) : bool :=
  match split_ws line with
  | name :: _ =>
      match py_split "_segment_" name with
      | new_name :: _ =>
          negb (String.eqb new_name "") && negb (contains "segment" new_name)
      | [] => true
      end
  | [] => true
  end.

(** The first field of a line holds no [segment]: the relocator takes the
    line for a record that is not of a fragment. *)
Definition is_plain_record (line : string) : bool :=
  match split_ws line with
  | name :: _ => negb (contains "segment" name)
  | [] => false
  end.

(** The contig of the last record named [k] among the records of the
    assembly files. *)
Fixpoint last_record (k : string) (contigs : list (string * string))
    : option string :=
  match contigs with
  | [] => None
  | contig :: contigs' =>
      match last_record k contigs' with
      | Some s => Some s
      | None => if String.eqb (fst contig) k then Some (snd contig) else None
      end
  end.

End Bounds.

Import Bounds.

(** * Properties *)

(** ** The routines on small inputs *)

Example merge_overlap :
  merged_regions [(3, 8); (5, 12); (20, 25)] = [(3, 12); (20, 25)].
Proof. vm_compute. reflexivity. Qed.

Example merge_touching :
  merged_regions [(10, 20); (20, 30)] = [(10, 20); (20, 30)].
Proof. vm_compute. reflexivity. Qed.

Example merge_zero_length_inside :
  merged_regions [(0, 10); (5, 5)] = [(0, 5); (5, 10)].
Proof. vm_compute. reflexivity. Qed.

Example gaps_docstring :
  contig_poor_mapping_coords 11 [(3, 5); (7, 9)] 0 0
  = Ok [(0, 3); (5, 7); (9, 11)].
Proof. vm_compute. reflexivity. Qed.

Example gaps_scenario :
  contig_poor_mapping_coords 1000 [(100, 350); (500, 600)] 50 100
  = Ok [(0, 150); (300, 550); (550, 1000)].
Proof. vm_compute. reflexivity. Qed.

Example relocate_example :
  relocate_line ("X_segment_start_100_stop_200" +:+ tab +:+ "120" +:+ tab
                 +:+ "10" +:+ tab +:+ "50" +:+ tab +:+ "+" +:+ newline)
  = Ok ("X" +:+ tab +:+ "120" +:+ tab +:+ "110" +:+ tab +:+ "150" +:+ tab
        +:+ "+" +:+ newline).
Proof. vm_compute. reflexivity. Qed.

(** ** The order the points are sorted by *)

Section point_order.

Lemma point_le_iff (x y : point) :
  point_le x y <-> fst x < fst y \/ (fst x = fst y /\ (snd x = true -> snd y = true)).
Proof.
  unfold point_le, point_leb, bool_leb.
  destruct x as [p a], y as [q b]; simpl.
  rewrite orb_true_iff, andb_true_iff, Z.ltb_lt, Z.eqb_eq.
  destruct a, b; simpl; intuition congruence.
Qed.

Global Instance point_le_trans : Transitive point_le.
Proof.
  intros x y z Hxy Hyz. apply point_le_iff in Hxy, Hyz. apply point_le_iff.
  destruct Hxy as [?|[? ?]], Hyz as [?|[? ?]]; try (left; lia).
  right. split; [lia | tauto].
Qed.

Global Instance point_le_total : Total point_le.
Proof.
  intros x y. rewrite !point_le_iff.
  destruct (Z.lt_trichotomy (fst x) (fst y)) as [?|[?|?]]; try (left; left; lia);
    try (right; left; lia).
  destruct (snd x), (snd y); intuition congruence.
Qed.

Global Instance point_le_antisym : AntiSymm (=) point_le.
Proof.
  intros [p a] [q b] Hxy Hyx. apply point_le_iff in Hxy, Hyx. simpl in *.
  assert (p = q) by lia. subst q. f_equal.
  destruct a, b; intuition (try lia; try congruence).
Qed.

Lemma sorted_strongly (pts : list point) : StronglySorted point_le (sorted pts).
Proof. apply StronglySorted_merge_sort; apply _. Qed.

Lemma sorted_perm (pts : list point) : sorted pts ≡ₚ pts.
Proof. apply merge_sort_Permutation. Qed.

(** A stop point that sorts after a start point lies strictly to its right. *)
Lemma start_before_stop (p q : Z) : point_le (p, true) (q, false) -> p < q.
Proof. rewrite point_le_iff; simpl. intuition congruence. Qed.

Lemma point_le_fst (x y : point) : point_le x y -> fst x <= fst y.
Proof. rewrite point_le_iff. lia. Qed.

End point_order.

(** ** The sweep over sorted points *)

Section sweep_invariant.

Lemma sweep_inv_init (pts : list point) : sweep_inv sweep_init pts.
Proof.
  split; simpl; try lia.
  - constructor.
  - constructor.
  - intros r e Hr. inversion Hr.
Qed.

Lemma ordered_snoc (rs : list coord) (r : coord) :
  StronglySorted before rs ->
  (forall r', r' ∈ rs -> snd r' <= fst r) ->
  StronglySorted before (rs ++ [r]).
Proof.
  intros Hs Hr. apply StronglySorted_app. repeat split.
  - intros x1 x2 H1 H2. apply list_elem_of_singleton in H2. subst x2.
    apply Hr, H1.
  - exact Hs.
  - repeat constructor.
Qed.

Lemma sweep_step_inv (st : sweep) (e : point) (rest : list point) :
  StronglySorted point_le (e :: rest) ->
  sweep_inv st (e :: rest) ->
  sweep_inv (sweep_step st e) rest.
Proof.
  intros Hsorted [Hne Hord Hbeh Hafter Hbefore].
  apply StronglySorted_cons in Hsorted as [Hhd _].
  rewrite Forall_forall in Hhd.
  destruct e as [p [|]]; unfold sweep_step; simpl.
  - (* a start point *)
    split; simpl; auto.
    + intros r e' Hr He'. apply (Hbeh r e' Hr). by right.
    + intros Hn r Hr.
      destruct (Z.eqb_spec (open_points st + 1) 1) as [H1|H1]; simpl.
      * apply (Hbeh r (p, true) Hr). by left.
      * destruct (Z.eqb_spec (open_points st) 0); [lia|]. simpl.
        apply Hafter; [lia | done].
    + intros Hn e' He'.
      destruct (Z.eqb_spec (open_points st + 1) 1) as [H1|H1]; simpl.
      * by apply Hhd.
      * destruct (Z.eqb_spec (open_points st) 0); [lia|]. simpl.
        apply Hbefore; [lia | by right].
  - (* a stop point *)
    destruct (Z.eqb_spec (open_points st - 1) 0) as [H0|H0].
    + destruct (Z.eqb_spec (open_points st) 0); [lia|].
      assert (Hlt : fst (current_region st) < p).
      { apply start_before_stop, Hbefore; [lia | by left]. }
      split; simpl; try lia.
      * apply Forall_app. split; [done|]. by repeat constructor.
      * apply ordered_snoc; [done|]. simpl. intros r Hr.
        apply Hafter; [lia | done].
      * intros r e' Hr He'. apply elem_of_app in Hr as [Hr|Hr].
        -- apply (Hbeh r e' Hr). by right.
        -- apply list_elem_of_singleton in Hr. subst r. simpl.
           apply (point_le_fst (p, false) e'), Hhd, He'.
    + split; simpl; auto.
      * intros r e' Hr He'. apply (Hbeh r e' Hr). by right.
      * intros Hn r Hr.
        destruct (Z.eqb_spec (open_points st) 0); [lia|]. simpl.
        apply Hafter; [lia | done].
      * intros Hn e' He'.
        destruct (Z.eqb_spec (open_points st) 0); [lia|]. simpl.
        apply Hbefore; [lia | by right].
Qed.

Lemma sweep_fold_inv (rest : list point) (st : sweep) :
  StronglySorted point_le rest ->
  sweep_inv st rest ->
  sweep_inv (fold_left sweep_step rest st) [].
Proof.
  revert st. induction rest as [|e rest IH]; intros st Hs Hinv; simpl.
  - done.
  - apply IH.
    + by apply StronglySorted_cons in Hs as [_ ?].
    + by apply sweep_step_inv.
Qed.

Lemma contig_coverage_coords_inv (pts : list point) :
  Forall (fun r => fst r < snd r) (contig_coverage_coords pts)
  /\ StronglySorted before (contig_coverage_coords pts).
Proof.
  pose proof (sweep_fold_inv (sorted pts) sweep_init (sorted_strongly pts)
                (sweep_inv_init _)) as [H1 H2 _ _ _].
  by split.
Qed.

Lemma ordered_lookup (rs : list coord) (i j : nat) (a b : coord) :
  StronglySorted before rs -> (i < j)%nat ->
  rs !! i = Some a -> rs !! j = Some b -> snd a <= fst b.
Proof.
  intros Hs. revert i j. induction Hs as [|r rs Hs IH Hall]; intros i j Hij Hi Hj.
  - by rewrite lookup_nil in Hi.
  - destruct j as [|j]; [lia|]. simpl in Hj.
    destruct i as [|i]; simpl in Hi.
    + injection Hi as ->. rewrite Forall_forall in Hall.
      apply Hall. by eapply list_elem_of_lookup_2.
    + apply (IH i j); [lia | done | done].
Qed.

End sweep_invariant.

(** ** Reading the dictionaries *)

Section dictionaries.

Lemma dd_get_entry {V} (xs : list V) : default [] (dd_entry xs) = xs.
Proof. by destruct xs. Qed.

Lemma dd_get_coverage_coords (points : gmap string (list point)) (k : string) :
  dd_get (get_coverage_coords_from_coverage_points points) k
  = contig_coverage_coords (dd_get points k).
Proof.
  unfold dd_get, get_coverage_coords_from_coverage_points.
  rewrite lookup_omap. destruct (points !! k) as [pts|]; simpl.
  - apply dd_get_entry.
  - reflexivity.
Qed.

Lemma dd_get_coverage_points (coords : gmap string (list coord)) (k : string) :
  dd_get (get_coverage_points_from_mapping_coords coords) k
  = coverage_points_of_coords (dd_get coords k).
Proof.
  unfold dd_get, get_coverage_points_from_mapping_coords.
  rewrite lookup_omap. destruct (coords !! k) as [cs|]; simpl.
  - apply dd_get_entry.
  - reflexivity.
Qed.

Lemma dd_get_pipeline (coords : gmap string (list coord)) (k : string) :
  dd_get (coverage_coords_pipeline coords) k = merged_regions (dd_get coords k).
Proof.
  unfold coverage_coords_pipeline, merged_regions.
  by rewrite dd_get_coverage_coords, dd_get_coverage_points.
Qed.

Lemma covered_length_pipeline (coords : gmap string (list coord)) (k : string) :
  covered_length_of (coverage_lengths_pipeline coords) k
  = coverage_length (merged_regions (dd_get coords k)).
Proof.
  rewrite <- dd_get_pipeline.
  unfold covered_length_of, coverage_lengths_pipeline, dd_get,
    get_mapping_coverage_lengths_from_coverage_coords.
  rewrite lookup_omap.
  destruct (coverage_coords_pipeline coords !! k) as [[|c cs]|]; reflexivity.
Qed.

End dictionaries.

(** ** Order of the covered regions *)

Lemma contig_coverage_coords_ordered (pts : list point) :
  starts_ascending (contig_coverage_coords pts)
  /\ non_overlapping (contig_coverage_coords pts).
Proof.
  destruct (contig_coverage_coords_inv pts) as [Hne Hord]. split.
  - intros i j a b Hij Hi Hj.
    pose proof (ordered_lookup _ _ _ _ _ Hord Hij Hi Hj).
    rewrite Forall_forall in Hne.
    assert (fst a < snd a) by (apply Hne; by eapply list_elem_of_lookup_2).
    lia.
  - intros i a b Hi Hj. apply (ordered_lookup _ i (S i) a b Hord); [lia|done|done].
Qed.

(** C1, as the code has it: for every sequence and every list of coverage
    points (so for the points of every list of input intervals), the regions
    of the coverage merger are sorted ascending and pairwise non-overlapping,
    [R_i.stop <= R_{i+1}.start]; regions that only touch are kept apart, and
    the touching intervals (10,20) and (20,30) come out as the two regions
    (10,20) and (20,30). *)
Theorem coverage_regions_sorted_non_overlapping :
  (forall (mapping_coverage_points : gmap string (list point)) (contig_id : string),
     let regions :=
       dd_get (get_coverage_coords_from_coverage_points mapping_coverage_points)
              contig_id in
     starts_ascending regions /\ non_overlapping regions)
  /\ (forall (mapping_coords : gmap string (list coord)) (seq_id : string),
     let regions := dd_get (coverage_coords_pipeline mapping_coords) seq_id in
     starts_ascending regions /\ non_overlapping regions)
  /\ merged_regions [(10, 20); (20, 30)] = [(10, 20); (20, 30)].
Proof.
  split; [|split].
  - intros m k. simpl. rewrite dd_get_coverage_coords.
    apply contig_coverage_coords_ordered.
  - intros m k. simpl. rewrite dd_get_pipeline.
    apply contig_coverage_coords_ordered.
  - vm_compute. reflexivity.
Qed.

(** C1 as stated fails: the touching intervals (10,20) and (20,30) are not
    merged into (10,30), and the two regions returned for them have
    [R_0.stop >= R_1.start]. *)
Lemma touching_intervals_not_merged :
  dd_get (coverage_coords_pipeline {[ "seq" := [(10, 20); (20, 30)] ]}) "seq"
  = [(10, 20); (20, 30)]
  /\ dd_get (coverage_coords_pipeline {[ "seq" := [(10, 20); (20, 30)] ]}) "seq"
     <> [(10, 30)]
  /\ ~ separated
        (dd_get (coverage_coords_pipeline {[ "seq" := [(10, 20); (20, 30)] ]})
                "seq").
Proof.
  assert (Hr : dd_get (coverage_coords_pipeline
                         {[ "seq" := [(10, 20); (20, 30)] ]}) "seq"
               = [(10, 20); (20, 30)]) by (vm_compute; reflexivity).
  rewrite Hr. split; [reflexivity|]. split; [discriminate|].
  intros Hsep. specialize (Hsep 0%nat (10, 20) (20, 30) eq_refl eq_refl).
  simpl in Hsep. lia.
Qed.

(** ** The sweep covers exactly the positions of positive depth *)

Section sweep_cover.

Lemma balance_app (a b : list point) : balance (a ++ b) = balance a + balance b.
Proof. induction a as [|e a IH]; simpl; lia. Qed.

Lemma depth_app (a b : list point) (x : Z) :
  depth (a ++ b) x = depth a x + depth b x.
Proof. unfold depth. by rewrite List.filter_app, balance_app. Qed.

Lemma depth_all_left (pts : list point) (x : Z) :
  (forall e, e ∈ pts -> fst e <= x) -> depth pts x = balance pts.
Proof.
  unfold depth. induction pts as [|e pts IH]; intros Hall; simpl; [done|].
  destruct (Z.leb_spec (fst e) x) as [_|Hlt].
  - simpl. rewrite IH; [done|]. intros e' He'. apply Hall. by right.
  - specialize (Hall e ltac:(by left)). lia.
Qed.

Lemma depth_single (e : point) (x : Z) :
  depth [e] x = if fst e <=? x then (if snd e then 1 else -1) else 0.
Proof. unfold depth. simpl. destruct (fst e <=? x); simpl; lia. Qed.

Lemma balance_perm (a b : list point) : a ≡ₚ b -> balance a = balance b.
Proof. induction 1; simpl; lia. Qed.

Lemma depth_perm (a b : list point) (x : Z) : a ≡ₚ b -> depth a x = depth b x.
Proof.
  intros H. unfold depth. apply balance_perm.
  induction H; simpl.
  - done.
  - destruct (fst x0 <=? x); [by constructor | done].
  - destruct (fst x0 <=? x), (fst y <=? x); try done; by constructor.
  - by etrans.
Qed.

Lemma sweep_step_saved_behind (st : sweep) (e : point) (rest : list point) :
  sweep_inv st (e :: rest) ->
  forall r, r ∈ saved (sweep_step st e) -> snd r <= fst e.
Proof.
  intros [_ _ Hbeh _ _] r. unfold sweep_step.
  destruct (snd e); simpl.
  - intros Hr. apply (Hbeh r e Hr). by left.
  - destruct (Z.eqb_spec (open_points st - 1) 0).
    + intros Hr. apply elem_of_app in Hr as [Hr|Hr].
      * apply (Hbeh r e Hr). by left.
      * apply list_elem_of_singleton in Hr. subst r.
        destruct (Z.eqb_spec (open_points st) 0); simpl; lia.
    + intros Hr. apply (Hbeh r e Hr). by left.
Qed.

Lemma sweep_step_open_start (st : sweep) (e : point) (rest : list point) :
  sweep_inv st (e :: rest) ->
  1 <= open_points (sweep_step st e) ->
  fst (current_region (sweep_step st e)) <= fst e.
Proof.
  intros [_ _ _ _ Hbefore]. unfold sweep_step.
  destruct (snd e); simpl; intros Hn.
  - destruct (Z.eqb_spec (open_points st + 1) 1); simpl; [lia|].
    destruct (Z.eqb_spec (open_points st) 0); [lia|]. simpl.
    apply (point_le_fst (_, true) e), Hbefore; [lia | by left].
  - destruct (Z.eqb_spec (open_points st) 0); [lia|]. simpl.
    apply (point_le_fst (_, true) e), Hbefore; [lia | by left].
Qed.

(** Left of the point being processed nothing changes. *)
Lemma sweep_step_swept_left (st : sweep) (e : point) (x : Z) :
  x < fst e -> swept (sweep_step st e) x <-> swept st x.
Proof.
  intros Hx. unfold swept, sweep_step.
  destruct (snd e); simpl.
  - destruct (Z.eqb_spec (open_points st + 1) 1); simpl.
    + intuition lia.
    + destruct (Z.eqb_spec (open_points st) 0); [lia|]. simpl. intuition lia.
  - destruct (Z.eqb_spec (open_points st - 1) 0).
    + destruct (Z.eqb_spec (open_points st) 0); [lia|].
      rewrite Exists_app, Exists_cons, Exists_nil. unfold inside. simpl.
      intuition lia.
    + destruct (Z.eqb_spec (open_points st) 0); simpl; intuition lia.
Qed.

Lemma sweep_step_balance (st : sweep) (e : point) :
  open_points (sweep_step st e) = open_points st + balance [e].
Proof. unfold sweep_step. destruct (snd e) eqn:He; simpl; rewrite He; lia. Qed.

Lemma sweep_step_cover (pre rest : list point) (e : point) (st : sweep) :
  StronglySorted point_le (pre ++ e :: rest) ->
  sweep_inv st (e :: rest) ->
  open_points st = balance pre ->
  (forall x, (forall e', e' ∈ e :: rest -> x < fst e') ->
             swept st x <-> 1 <= depth pre x) ->
  forall x, (forall e', e' ∈ rest -> x < fst e') ->
            swept (sweep_step st e) x <-> 1 <= depth (pre ++ [e]) x.
Proof.
  intros Hsorted Hinv Hopen Hcover x Hx.
  rewrite depth_app, depth_single.
  destruct (Z.leb_spec (fst e) x) as [Hle|Hlt].
  - (* at or right of the point: every point so far counts *)
    rewrite depth_all_left.
    2:{ intros a Ha. etrans; [|exact Hle].
        apply point_le_fst.
        apply StronglySorted_app in Hsorted as (Hall & _ & _).
        apply Hall; [done | by left]. }
    pose proof (sweep_step_balance st e) as Hbal. simpl in Hbal.
    rewrite <- Hopen.
    replace (open_points st + (if snd e then 1 else -1))
      with (open_points (sweep_step st e)) by lia.
    split.
    + intros [Hex|[? _]]; [|done].
      apply Exists_exists in Hex as (r & Hr & Hin).
      pose proof (sweep_step_saved_behind st e rest Hinv r Hr).
      unfold inside in Hin. lia.
    + intros Hn. right. split; [done|].
      pose proof (sweep_step_open_start st e rest Hinv Hn). lia.
  - rewrite sweep_step_swept_left by done.
    rewrite Z.add_0_r. apply Hcover.
    intros e' He'. apply elem_of_cons in He' as [->|He']; [done | by apply Hx].
Qed.

Lemma sweep_fold_cover (rest pre : list point) (st : sweep) :
  StronglySorted point_le (pre ++ rest) ->
  sweep_inv st rest ->
  open_points st = balance pre ->
  (forall x, (forall e', e' ∈ rest -> x < fst e') ->
             swept st x <-> 1 <= depth pre x) ->
  open_points (fold_left sweep_step rest st) = balance (pre ++ rest)
  /\ forall x, swept (fold_left sweep_step rest st) x
              <-> 1 <= depth (pre ++ rest) x.
Proof.
  revert pre st. induction rest as [|e rest IH]; intros pre st Hs Hinv Hopen Hcov.
  - simpl. rewrite app_nil_r. split; [done|].
    intros x. apply Hcov. intros e' He'. inversion He'.
  - simpl. rewrite cons_middle, app_assoc. apply IH.
    + by rewrite <- app_assoc.
    + apply sweep_step_inv; [|done].
      by apply StronglySorted_app in Hs as (_ & _ & ?).
    + rewrite sweep_step_balance, balance_app. lia.
    + by apply sweep_step_cover.
Qed.

End sweep_cover.

(** ** Covered positions and covered length *)

Section covered.

Lemma balance_points_of_coords (cs : list coord) :
  balance (coverage_points_of_coords cs) = 0.
Proof. induction cs as [|c cs IH]; simpl; lia. Qed.

Lemma depth_points_of_coords (cs : list coord) (x : Z) :
  Forall (fun c => fst c <= snd c) cs ->
  depth (coverage_points_of_coords cs) x = cover_count cs x.
Proof.
  induction 1 as [|c cs Hc _ IH]; [done|].
  change (coverage_points_of_coords (c :: cs))
    with ([(fst c, true); (snd c, false)] ++ coverage_points_of_coords cs).
  rewrite depth_app, IH. unfold depth. simpl.
  destruct (Z.leb_spec (fst c) x), (Z.leb_spec (snd c) x), (Z.ltb_spec x (snd c));
    simpl; lia.
Qed.

Lemma cover_count_nonneg (cs : list coord) (x : Z) : 0 <= cover_count cs x.
Proof.
  induction cs as [|c cs IH]; simpl; [lia|].
  destruct ((fst c <=? x) && (x <? snd c)); lia.
Qed.

Lemma cover_count_positive (cs : list coord) (x : Z) :
  1 <= cover_count cs x <-> Exists (inside x) cs.
Proof.
  induction cs as [|c cs IH]; simpl.
  - rewrite Exists_nil. lia.
  - rewrite Exists_cons, <- IH. unfold inside.
    pose proof (cover_count_nonneg cs x).
    destruct (Z.leb_spec (fst c) x), (Z.ltb_spec x (snd c)); simpl; lia.
Qed.

(** The regions of the merger hold exactly the positions the input
    intervals hold. *)
Lemma merged_regions_inside (cs : list coord) (x : Z) :
  Forall (fun c => fst c <= snd c) cs ->
  Exists (inside x) (merged_regions cs) <-> Exists (inside x) cs.
Proof.
  intros Hwf. unfold merged_regions, contig_coverage_coords, sweep_points.
  pose (pts := coverage_points_of_coords cs).
  destruct (sweep_fold_cover (sorted pts) [] sweep_init) as [Hopen Hcov].
  - apply sorted_strongly.
  - apply sweep_inv_init.
  - done.
  - intros x' _. unfold swept, depth. simpl. rewrite Exists_nil. lia.
  - simpl in Hopen, Hcov.
    rewrite (balance_perm _ _ (sorted_perm pts)) in Hopen.
    subst pts. rewrite balance_points_of_coords in Hopen.
    rewrite <- (cover_count_positive cs x), <- (depth_points_of_coords cs x Hwf).
    rewrite <- (depth_perm _ _ x (sorted_perm _)), <- Hcov.
    unfold swept. rewrite Hopen. intuition lia.
Qed.

Lemma elem_of_positions (c : coord) (x : Z) : x ∈ positions c <-> inside x c.
Proof.
  unfold positions, inside. rewrite elem_of_list_to_set, elem_of_seqZ. lia.
Qed.

Lemma elem_of_covered_positions (cs : list coord) (x : Z) :
  x ∈ covered_positions cs <-> Exists (inside x) cs.
Proof.
  unfold covered_positions. induction cs as [|c cs IH]; simpl.
  - rewrite Exists_nil. set_solver.
  - rewrite Exists_cons, elem_of_union, IH, elem_of_positions. done.
Qed.

Lemma size_positions (c : coord) :
  fst c <= snd c -> Z.of_nat (size (positions c)) = snd c - fst c.
Proof.
  intros Hc. unfold positions.
  rewrite size_list_to_set by apply NoDup_seqZ.
  rewrite length_seqZ. lia.
Qed.

Lemma size_covered_positions (rs : list coord) :
  StronglySorted before rs ->
  Forall (fun r => fst r < snd r) rs ->
  Z.of_nat (size (covered_positions rs)) = total_length rs.
Proof.
  induction 1 as [|r rs Hs IH Hall]; intros Hne.
  - reflexivity.
  - apply Forall_cons in Hne as [Hr Hne].
    change (covered_positions (r :: rs))
      with (positions r ∪ covered_positions rs).
    rewrite size_union.
    + rewrite Nat2Z.inj_add, IH, size_positions by (done || lia). done.
    + intros x Hx1 Hx2.
      apply elem_of_positions in Hx1.
      apply elem_of_covered_positions, Exists_exists in Hx2 as (r' & Hr' & Hin).
      rewrite Forall_forall in Hall. specialize (Hall r' Hr').
      unfold inside, before in *. lia.
Qed.

Lemma coverage_length_total (cs : list coord) :
  coverage_length cs = total_length cs.
Proof.
  unfold coverage_length.
  assert (H : forall acc, fold_left (fun acc c => acc + (snd c - fst c)) cs acc
                          = acc + total_length cs).
  { induction cs as [|c cs IH]; intros acc; simpl; [lia|]. rewrite IH. lia. }
  by rewrite H.
Qed.

Lemma covered_positions_merged (cs : list coord) :
  Forall (fun c => fst c <= snd c) cs ->
  covered_positions (merged_regions cs) = covered_positions cs.
Proof.
  intros Hwf. apply set_eq. intros x.
  rewrite !elem_of_covered_positions. by apply merged_regions_inside.
Qed.

Lemma merged_length_measure (cs : list coord) :
  Forall (fun c => fst c <= snd c) cs ->
  coverage_length (merged_regions cs) = union_measure cs.
Proof.
  intros Hwf. unfold union_measure.
  rewrite <- covered_positions_merged by done.
  destruct (contig_coverage_coords_inv (coverage_points_of_coords cs))
    as [Hne Hord].
  rewrite coverage_length_total. symmetry.
  by apply size_covered_positions.
Qed.

End covered.

(** C2: for every sequence whose input intervals all have [start <= stop],
    the length the aggregator reports for it, the sum of [stop - start] over
    the regions of the merger, is the measure of the set union of its input
    intervals: the number of positions that lie in at least one of them. *)
Theorem covered_length_is_union_measure
    (mapping_coords : gmap string (list coord)) (seq_id : string) :
  Forall (fun c => fst c <= snd c) (dd_get mapping_coords seq_id) ->
  covered_length_of (coverage_lengths_pipeline mapping_coords) seq_id
  = union_measure (dd_get mapping_coords seq_id)
  /\ covered_length_of (coverage_lengths_pipeline mapping_coords) seq_id
     = total_length (dd_get (coverage_coords_pipeline mapping_coords) seq_id).
Proof.
  intros Hwf. rewrite covered_length_pipeline, dd_get_pipeline. split.
  - by apply merged_length_measure.
  - apply coverage_length_total.
Qed.

Lemma covered_length_is_union_measure_witness :
  Forall (fun c : coord => fst c <= snd c)
         (dd_get {[ "seq" := [(3, 8); (5, 12); (20, 25); (12, 14)] ]} "seq")
  /\ covered_length_of
       (coverage_lengths_pipeline
          {[ "seq" := [(3, 8); (5, 12); (20, 25); (12, 14)] ]}) "seq"
     = union_measure (dd_get {[ "seq" := [(3, 8); (5, 12); (20, 25); (12, 14)] ]} "seq").
Proof.
  assert (H : Forall (fun c : coord => fst c <= snd c)
         (dd_get {[ "seq" := [(3, 8); (5, 12); (20, 25); (12, 14)] ]} "seq")).
  { unfold dd_get. rewrite lookup_singleton_eq. simpl.
    repeat constructor; simpl; lia. }
  split; [exact H|].
  exact (proj1 (covered_length_is_union_measure _ "seq" H)).
Defined.

(** ** Python indexing *)

(** Case analysis on the integer comparisons of the goal. *)
Ltac zcases :=
  repeat match goal with
    | |- context [Z.ltb ?a ?b] => destruct (Z.ltb_spec a b)
    | |- context [Z.leb ?a ?b] => destruct (Z.leb_spec a b)
    | |- context [Z.gtb ?a ?b] => destruct (Z.gtb_spec a b)
    | |- context [Z.geb ?a ?b] => destruct (Z.geb_spec a b)
    | |- context [Z.eqb ?a ?b] => destruct (Z.eqb_spec a b)
    end; simpl in *.

Section indexing.
Context {A : Type}.

Lemma py_index_0 (a : A) (l : list A) : py_index (a :: l) 0 = Ok a.
Proof.
  unfold py_index. simpl length. rewrite Nat2Z.inj_succ. simpl.
  zcases; [lia|done].
Qed.

Lemma py_index_nil (i : Z) : py_index (@nil A) i = Raise IndexError.
Proof. unfold py_index. simpl. zcases; try done; lia. Qed.

Lemma py_index_succ (a : A) (l : list A) (i : Z) :
  0 <= i -> py_index (a :: l) (i + 1) = py_index l i.
Proof.
  intros Hi. unfold py_index. simpl length. rewrite Nat2Z.inj_succ.
  zcases; try lia; try done.
  replace (Z.to_nat (i + 1)) with (S (Z.to_nat i)) by lia. done.
Qed.

Lemma py_index_last (l : list A) :
  py_index l (-1) = match last l with
                    | Some x => Ok x
                    | None => Raise IndexError
                    end.
Proof.
  destruct l as [|a l]; [by rewrite py_index_nil|].
  unfold py_index. rewrite last_lookup. simpl length. rewrite Nat2Z.inj_succ.
  zcases; try lia.
  replace (Z.to_nat (-1 + Z.succ (Z.of_nat (length l)))) with (length l) by lia.
  done.
Qed.

(** A non-negative index in range reads the element at that place. *)
Lemma py_index_lookup (l : list A) (i : nat) (x : A) :
  l !! i = Some x -> py_index l (Z.of_nat i) = Ok x.
Proof.
  intros Hi. pose proof (lookup_lt_Some _ _ _ Hi) as Hlt.
  unfold py_index. zcases; try lia.
  by rewrite Nat2Z.id, Hi.
Qed.

End indexing.

(** ** The gap extractor on one contig *)

Section contig_gaps.
Context (L C M : Z).

Lemma leading_gap_contract (r0 : coord) (rest : list coord) :
  leading_gap L C M r0
  = List.filter (long_enough M) (leading_candidate L C (r0 :: rest)).
Proof.
  unfold leading_gap, leading_candidate, long_enough.
  destruct (Z.gtb_spec (fst r0) 0), (Z.ltb_spec 0 (fst r0)); try lia; [|done].
  simpl. zcases; try lia; try done; repeat f_equal; lia.
Qed.

Lemma trailing_gap_contract (r : coord) (regions : list coord) :
  last regions = Some r ->
  trailing_gap L C M r
  = List.filter (long_enough M) (trailing_candidate L C regions).
Proof.
  intros Hlast. unfold trailing_gap, trailing_candidate, long_enough.
  rewrite Hlast. destruct (Z.ltb_spec (snd r) L); [|done].
  simpl. zcases; try lia; try done; repeat f_equal; lia.
Qed.

Lemma interior_gap_shift (a : coord) (regions poor : list coord) (i : Z) :
  0 <= i ->
  interior_gap L (a :: regions) C M poor (1 + i)
  = interior_gap L regions C M poor i.
Proof.
  intros Hi. unfold interior_gap.
  replace (1 + i + 1) with ((i + 1) + 1) by lia.
  replace (1 + i) with (i + 1) by lia.
  rewrite !py_index_succ by lia. done.
Qed.

Lemma interior_loop_shift (a : coord) (regions : list coord) (idx : list Z) :
  Forall (fun i => 0 <= i) idx ->
  forall poor,
    for_each (interior_gap L (a :: regions) C M) (Z.add 1 <$> idx) poor
    = for_each (interior_gap L regions C M) idx poor.
Proof.
  induction 1 as [|i idx Hi _ IH]; intros poor; simpl; [done|].
  rewrite interior_gap_shift by done.
  destruct (interior_gap L regions C M poor i) as [poor'|]; simpl; [|done].
  apply IH.
Qed.

Lemma interior_step_contract (a b : coord) (rest poor : list coord) :
  interior_gap L (a :: b :: rest) C M poor 0
  = Ok (poor ++ List.filter (long_enough M)
                  [(Z.max (snd a - C) 0, Z.min (fst b + C) L)]).
Proof.
  unfold interior_gap. rewrite py_index_0.
  rewrite (py_index_succ a (b :: rest) 0) by lia.
  rewrite py_index_0. unfold long_enough. simpl.
  zcases; try lia; rewrite ?app_nil_r; try done; repeat f_equal; lia.
Qed.

Lemma interior_loop_contract (regions poor : list coord) :
  for_each (interior_gap L regions C M)
           (py_range (Z.of_nat (length regions) - 1)) poor
  = Ok (poor ++ List.filter (long_enough M) (interior_candidates L C regions)).
Proof.
  unfold py_range. revert poor.
  induction regions as [|a [|b rest] IH]; intros poor.
  - simpl. by rewrite app_nil_r.
  - simpl. by rewrite app_nil_r.
  - rewrite seqZ_cons by (simpl length; lia).
    change (for_each ?f (?i :: ?l) poor) with (st' ← f poor i; for_each f l st').
    rewrite interior_step_contract. simpl mbind.
    change (Z.succ 0) with (1 + 0). rewrite <- fmap_add_seqZ.
    rewrite interior_loop_shift
      by (apply Forall_forall; intros i Hi; apply elem_of_seqZ in Hi; lia).
    replace (Z.pred (Z.of_nat (S (S (length rest))) - 1))
      with (Z.of_nat (length (b :: rest)) - 1) by (simpl length; lia).
    rewrite IH.
    change (interior_candidates L C (a :: b :: rest))
      with ([(Z.max (snd a - C) 0, Z.min (fst b + C) L)]
              ++ interior_candidates L C (b :: rest)).
    by rewrite List.filter_app, app_assoc.
Qed.

Lemma contig_poor_mapping_coords_contract (regions : list coord) :
  regions <> [] ->
  contig_poor_mapping_coords L regions C M = Ok (contract_gaps L C M regions).
Proof.
  intros Hne. destruct regions as [|r0 rest]; [done|].
  unfold contig_poor_mapping_coords, contract_gaps.
  rewrite py_index_0. simpl mbind.
  rewrite interior_loop_contract. simpl mbind.
  rewrite py_index_last.
  destruct (last (r0 :: rest)) as [r|] eqn:Hlast.
  - simpl. rewrite (trailing_gap_contract r (r0 :: rest) Hlast).
    rewrite (leading_gap_contract r0 rest).
    by rewrite !List.filter_app, app_assoc.
  - by apply last_None in Hlast.
Qed.

Lemma contig_poor_mapping_coords_nil :
  contig_poor_mapping_coords L [] C M = Raise IndexError.
Proof. reflexivity. Qed.

End contig_gaps.

(** ** The gap extractor on the dictionaries *)

Section gap_dictionaries.
Context (cov : gmap string (list coord)) (C M : Z).

(** What the loop leaves behind: a result for every contig of the length
    table and for no other, or the exception of one of these contigs. *)
Lemma get_poor_mapping_coverage_coordinates_spec (lens : gmap string Z) :
  match get_poor_mapping_coverage_coordinates lens cov C M with
  | Ok res =>
      (forall k L, lens !! k = Some L ->
         exists g, poor_coords_of_contig cov C M k L = Ok g
                   /\ res !! k = dd_entry g)
      /\ (forall k, lens !! k = None -> res !! k = None)
  | Raise e =>
      exists k L, lens !! k = Some L
                  /\ poor_coords_of_contig cov C M k L = Raise e
  end.
Proof.
  unfold get_poor_mapping_coverage_coordinates.
  apply (map_fold_weak_ind (fun r (m : gmap string Z) =>
    match r with
    | Ok res =>
        (forall k L, m !! k = Some L ->
           exists g, poor_coords_of_contig cov C M k L = Ok g
                     /\ res !! k = dd_entry g)
        /\ (forall k, m !! k = None -> res !! k = None)
    | Raise e =>
        exists k L, m !! k = Some L
                    /\ poor_coords_of_contig cov C M k L = Raise e
    end)).
  - split; [intros k L Hk; by rewrite lookup_empty in Hk|].
    intros k _. apply lookup_empty.
  - intros i x m r Hi IH. destruct r as [res|e]; simpl.
    + destruct IH as [IH1 IH2].
      destruct (poor_coords_of_contig cov C M i x) as [g|e] eqn:Hg; simpl.
      * split.
        -- intros k L Hk. destruct (decide (i = k)) as [->|Hne].
           ++ rewrite lookup_insert_eq in Hk. injection Hk as <-.
              exists g. split; [done|].
              destruct (dd_entry g) as [l|] eqn:Hl.
              ** by rewrite lookup_insert_eq.
              ** by apply IH2.
           ++ rewrite lookup_insert_ne in Hk by done.
              destruct (IH1 k L Hk) as (g' & Hg' & Hres).
              exists g'. split; [done|].
              destruct (dd_entry g); [by rewrite lookup_insert_ne|done].
        -- intros k Hk. apply lookup_insert_None in Hk as [Hk Hne].
           destruct (dd_entry g); [rewrite lookup_insert_ne by done|]; by apply IH2.
      * exists i, x. by rewrite lookup_insert_eq.
    + destruct IH as (k & L & Hk & He). exists k, L. split; [|done].
      rewrite lookup_insert_ne; [done|]. intros ->. congruence.
Qed.

Lemma get_poor_lookup (lens : gmap string Z) res k L g :
  get_poor_mapping_coverage_coordinates lens cov C M = Ok res ->
  lens !! k = Some L ->
  poor_coords_of_contig cov C M k L = Ok g ->
  dd_get res k = g.
Proof.
  intros Hres Hk Hg.
  pose proof (get_poor_mapping_coverage_coordinates_spec lens) as Hspec.
  rewrite Hres in Hspec. destruct Hspec as [H1 _].
  destruct (H1 k L Hk) as (g' & Hg' & Hlook).
  rewrite Hg in Hg'. injection Hg' as <-.
  unfold dd_get. rewrite Hlook. apply dd_get_entry.
Qed.

Lemma get_poor_missing (lens : gmap string Z) res k :
  get_poor_mapping_coverage_coordinates lens cov C M = Ok res ->
  lens !! k = None -> res !! k = None.
Proof.
  intros Hres Hk.
  pose proof (get_poor_mapping_coverage_coordinates_spec lens) as Hspec.
  rewrite Hres in Hspec. by apply Hspec.
Qed.

Lemma poor_coords_of_contig_ok (k : string) (L : Z) :
  (forall regions, cov !! k = Some regions -> regions <> []) ->
  poor_coords_of_contig cov C M k L
  = Ok (match cov !! k with
        | Some regions => contract_gaps L C M regions
        | None => [(0, L)]
        end).
Proof.
  intros Hne. unfold poor_coords_of_contig.
  destruct (cov !! k) as [regions|]; [|done].
  apply contig_poor_mapping_coords_contract. by apply Hne.
Qed.

(** The call returns when every contig with coverage has a region. *)
Lemma get_poor_returns (lens : gmap string Z) :
  (forall k regions, cov !! k = Some regions -> regions <> []) ->
  exists res, get_poor_mapping_coverage_coordinates lens cov C M = Ok res.
Proof.
  intros Hne.
  pose proof (get_poor_mapping_coverage_coordinates_spec lens) as Hspec.
  destruct (get_poor_mapping_coverage_coordinates lens cov C M) as [res|e].
  - by exists res.
  - destruct Hspec as (k & L & _ & He).
    rewrite poor_coords_of_contig_ok in He by apply Hne. done.
Qed.

End gap_dictionaries.

(** The covered regions of contigs outside the length table are not read. *)
Lemma get_poor_agree (lens : gmap string Z) (cov cov' : gmap string (list coord))
    (C M : Z) :
  (forall k, is_Some (lens !! k) -> cov !! k = cov' !! k) ->
  get_poor_mapping_coverage_coordinates lens cov C M
  = get_poor_mapping_coverage_coordinates lens cov' C M.
Proof.
  intros Hagree. unfold get_poor_mapping_coverage_coordinates.
  rewrite !map_fold_foldr.
  assert (Hall : Forall (fun kv => cov !! kv.1 = cov' !! kv.1) (map_to_list lens)).
  { apply Forall_forall. intros [k L] Hk. apply elem_of_map_to_list in Hk.
    apply Hagree. by exists L. }
  induction Hall as [|[k L] l Hk _ IH]; simpl; [done|].
  rewrite IH. unfold poor_coords_of_contig. simpl in Hk. by rewrite Hk.
Qed.

(** C3: for a sequence of length [L] with at least one covered region, the
    gap extractor emits exactly the candidates of the contract that reach
    the threshold [M], in order: the leading candidate
    [[0, min(R_0.start + C, L))] when [R_0.start > 0], for each adjacent pair
    the interior candidate [[max(R_i.stop - C, 0), min(R_{i+1}.start + C, L))],
    and the trailing candidate [[max(R_{n-1}.stop - C, 0), L)] when
    [R_{n-1}.stop < L]; and nothing else.  The call on the dictionaries holds
    this list for the sequence, and returns when every sequence with
    coverage has a region. *)
Theorem gap_extractor_contract
    (contig_lengths : gmap string Z)
    (mapping_coverage_coords : gmap string (list coord))
    (C M : Z) (contig_id : string) (L : Z) (regions : list coord) :
  contig_lengths !! contig_id = Some L ->
  mapping_coverage_coords !! contig_id = Some regions ->
  regions <> [] ->
  contig_poor_mapping_coords L regions C M = Ok (contract_gaps L C M regions)
  /\ (forall res,
        get_poor_mapping_coverage_coordinates
          contig_lengths mapping_coverage_coords C M = Ok res ->
        dd_get res contig_id = contract_gaps L C M regions)
  /\ ((forall k rs, mapping_coverage_coords !! k = Some rs -> rs <> []) ->
      exists res,
        get_poor_mapping_coverage_coordinates
          contig_lengths mapping_coverage_coords C M = Ok res).
Proof.
  intros HL Hcov Hne.
  pose proof (contig_poor_mapping_coords_contract L C M regions Hne) as Hc.
  split; [done|]. split.
  - intros res Hres. eapply get_poor_lookup; [done..|].
    unfold poor_coords_of_contig. by rewrite Hcov.
  - apply get_poor_returns.
Qed.

Lemma gap_extractor_contract_witness :
  exists res,
    get_poor_mapping_coverage_coordinates
      {[ "contig_1" := 1000 ]} {[ "contig_1" := [(100, 350); (500, 600)] ]}
      50 100 = Ok res
    /\ dd_get res "contig_1" = [(0, 150); (300, 550); (550, 1000)].
Proof.
  destruct (gap_extractor_contract
              {[ "contig_1" := 1000 ]}
              {[ "contig_1" := [(100, 350); (500, 600)] ]}
              50 100 "contig_1" 1000 [(100, 350); (500, 600)])
    as (_ & Hres & Hret).
  - apply lookup_singleton_eq.
  - apply lookup_singleton_eq.
  - discriminate.
  - destruct Hret as [res Hok].
    + intros k rs Hk. apply lookup_singleton_Some in Hk as [_ <-]. discriminate.
    + exists res. split; [exact Hok|]. exact (Hres res Hok).
Defined.

(** C4: a sequence of the length table with length [L] and no covered
    regions gets exactly the one gap region [(0, L)], whatever the context
    and the minimum size are. *)
Theorem uncovered_contig_is_one_gap
    (contig_lengths : gmap string Z)
    (mapping_coverage_coords : gmap string (list coord))
    (C M : Z) (contig_id : string) (L : Z) :
  contig_lengths !! contig_id = Some L ->
  mapping_coverage_coords !! contig_id = None ->
  poor_coords_of_contig mapping_coverage_coords C M contig_id L = Ok [(0, L)]
  /\ (forall res,
        get_poor_mapping_coverage_coordinates
          contig_lengths mapping_coverage_coords C M = Ok res ->
        res !! contig_id = Some [(0, L)] /\ dd_get res contig_id = [(0, L)])
  /\ ((forall k rs, mapping_coverage_coords !! k = Some rs -> rs <> []) ->
      exists res,
        get_poor_mapping_coverage_coordinates
          contig_lengths mapping_coverage_coords C M = Ok res).
Proof.
  intros HL Hcov.
  assert (Hc : poor_coords_of_contig mapping_coverage_coords C M contig_id L
               = Ok [(0, L)]).
  { unfold poor_coords_of_contig. by rewrite Hcov. }
  split; [done|]. split.
  - intros res Hres.
    pose proof (get_poor_lookup _ _ _ _ _ _ _ _ Hres HL Hc) as Hget.
    split; [|done].
    unfold dd_get in Hget. destruct (res !! contig_id) as [l|]; simpl in Hget.
    + by rewrite Hget.
    + discriminate.
  - apply get_poor_returns.
Qed.

Lemma uncovered_contig_is_one_gap_witness :
  exists res,
    get_poor_mapping_coverage_coordinates
      {[ "contig_2" := 50 ]} {[ "contig_1" := [(100, 350)] ]} 10 100 = Ok res
    /\ dd_get res "contig_2" = [(0, 50)].
Proof.
  destruct (uncovered_contig_is_one_gap
              {[ "contig_2" := 50 ]} {[ "contig_1" := [(100, 350)] ]}
              10 100 "contig_2" 50)
    as (_ & Hres & Hret).
  - apply lookup_singleton_eq.
  - by apply lookup_singleton_ne.
  - destruct Hret as [res Hok].
    + intros k rs Hk. apply lookup_singleton_Some in Hk as [_ <-]. discriminate.
    + exists res. split; [exact Hok|]. exact (proj2 (Hres res Hok)).
Defined.

Lemma contract_gaps_long_enough (L C M : Z) (regions : list coord) (r : coord) :
  r ∈ contract_gaps L C M regions -> M <= snd r - fst r.
Proof.
  unfold contract_gaps. rewrite list_elem_of_In, List.filter_In.
  unfold long_enough. intros [_ H]. lia.
Qed.

(** C5, as the code has it: a region returned for a sequence that has
    covered regions is at least [minimum_size_remap] long; a region
    returned for a sequence without covered regions is the whole sequence
    [(0, L)], whatever the threshold is; and with a threshold and lengths
    that are not negative every returned region has [start <= stop]. *)
Theorem returned_gaps_sizes
    (contig_lengths : gmap string Z)
    (mapping_coverage_coords : gmap string (list coord))
    (C M : Z) (res : gmap string (list coord)) (contig_id : string) (r : coord) :
  get_poor_mapping_coverage_coordinates
    contig_lengths mapping_coverage_coords C M = Ok res ->
  r ∈ dd_get res contig_id ->
  (is_Some (mapping_coverage_coords !! contig_id) -> M <= snd r - fst r)
  /\ (mapping_coverage_coords !! contig_id = None ->
      exists L, contig_lengths !! contig_id = Some L /\ r = (0, L))
  /\ (0 <= M ->
      (forall k L, contig_lengths !! k = Some L -> 0 <= L) ->
      fst r <= snd r).
Proof.
  intros Hres Hr.
  destruct (contig_lengths !! contig_id) as [L|] eqn:HL.
  2:{ unfold dd_get in Hr. rewrite (get_poor_missing _ _ _ _ _ _ Hres HL) in Hr.
      inversion Hr. }
  pose proof (get_poor_mapping_coverage_coordinates_spec
                mapping_coverage_coords C M contig_lengths) as Hspec.
  rewrite Hres in Hspec. destruct Hspec as [Hspec _].
  destruct (Hspec contig_id L HL) as (g & Hg & Hlook).
  assert (Hget : dd_get res contig_id = g).
  { unfold dd_get. rewrite Hlook. apply dd_get_entry. }
  rewrite Hget in Hr. clear Hget Hlook Hspec.
  unfold poor_coords_of_contig in Hg.
  destruct (mapping_coverage_coords !! contig_id) as [regions|] eqn:Hcov.
  - assert (Hlong : M <= snd r - fst r).
    { destruct regions as [|r0 rest]; [discriminate|].
      rewrite contig_poor_mapping_coords_contract in Hg by done.
      injection Hg as <-. by eapply contract_gaps_long_enough. }
    split; [done|]. split; [discriminate|]. lia.
  - injection Hg as <-. apply list_elem_of_singleton in Hr. subst r.
    split; [by intros [? ?]|]. split; [by exists L|].
    intros _ Hlen. simpl. by eapply Hlen.
Qed.

Lemma returned_gaps_sizes_witness :
  100 <= snd (300, 550) - fst (300, 550) /\ fst (300, 550) <= snd (300, 550).
Proof.
  destruct (returned_gaps_sizes
              {[ "contig_1" := 1000 ]} {[ "contig_1" := [(100, 350); (500, 600)] ]}
              50 100 {[ "contig_1" := [(0, 150); (300, 550); (550, 1000)] ]}
              "contig_1" (300, 550)) as (H1 & _ & H2).
  - vm_compute. reflexivity.
  - vm_compute. right. left.
  - split.
    + apply H1. vm_compute. eexists. reflexivity.
    + apply H2; [lia|].
      intros k L Hk. apply lookup_singleton_Some in Hk as [_ <-]. lia.
Defined.

(** C5 as stated fails: for a sequence of length 50 without covered regions
    and a threshold of 100 the extractor returns the region (0, 50), which
    is shorter than the threshold. *)
Lemma fallback_gap_below_threshold :
  get_poor_mapping_coverage_coordinates {[ "contig_1" := 50 ]} ∅ 0 100
  = Ok {[ "contig_1" := [(0, 50)] ]}
  /\ (0, 50) ∈ dd_get ({[ "contig_1" := [(0, 50)] ]} : gmap string (list coord))
                      "contig_1"
  /\ ~ (100 <= snd (0, 50) - fst (0, 50)).
Proof.
  split; [vm_compute; reflexivity|]. split.
  - vm_compute. left.
  - simpl. lia.
Qed.

(** C8, as the code has it: a sequence that has covered regions but no entry
    in the length table is never looked at.  The call behaves as if the
    sequence had no covered regions, so no error comes from it, and a call
    that returns holds no entry for it. *)
Theorem contig_without_length_is_skipped
    (contig_lengths : gmap string Z)
    (mapping_coverage_coords : gmap string (list coord))
    (C M : Z) (contig_id : string) :
  contig_lengths !! contig_id = None ->
  get_poor_mapping_coverage_coordinates
    contig_lengths mapping_coverage_coords C M
  = get_poor_mapping_coverage_coordinates
      contig_lengths (delete contig_id mapping_coverage_coords) C M
  /\ (forall res,
        get_poor_mapping_coverage_coordinates
          contig_lengths mapping_coverage_coords C M = Ok res ->
        res !! contig_id = None /\ dd_get res contig_id = []).
Proof.
  intros HL. split.
  - apply get_poor_agree. intros k [L Hk].
    rewrite lookup_delete_ne; [done|]. intros ->. congruence.
  - intros res Hres.
    pose proof (get_poor_missing _ _ _ _ _ _ Hres HL) as Hnone.
    split; [done|]. unfold dd_get. by rewrite Hnone.
Qed.

Lemma contig_without_length_is_skipped_witness :
  get_poor_mapping_coverage_coordinates
    {[ "contig_1" := 50 ]}
    {[ "contig_1" := [(10, 20)]; "contig_2" := [(0, 5)] ]} 0 0
  = get_poor_mapping_coverage_coordinates
      {[ "contig_1" := 50 ]}
      (delete "contig_2" {[ "contig_1" := [(10, 20)]; "contig_2" := [(0, 5)] ]})
      0 0.
Proof.
  refine (proj1 (contig_without_length_is_skipped
                   {[ "contig_1" := 50 ]}
                   {[ "contig_1" := [(10, 20)]; "contig_2" := [(0, 5)] ]}
                   0 0 "contig_2" _)).
  vm_compute. reflexivity.
Defined.

(** C8 as stated fails: with covered regions for a sequence that has no
    entry in the length table the extraction raises nothing; it returns,
    with no entry for that sequence. *)
Lemma missing_length_not_raised :
  get_poor_mapping_coverage_coordinates
    ∅ {[ "contig_1" := [(0, 5)] ]} 0 0 = Ok ∅
  /\ raised (get_poor_mapping_coverage_coordinates
               ∅ {[ "contig_1" := [(0, 5)] ]} 0 0) = false.
Proof. split; vm_compute; reflexivity. Qed.

(** ** Strings *)

Section strings.

Lemma string_app_cons (x : ascii) (a b : string) :
  String x a +:+ b = String x (a +:+ b).
Proof. done. Qed.

Lemma string_app_assoc (a b c : string) : (a +:+ b) +:+ c = a +:+ (b +:+ c).
Proof. induction a as [|x a IH]; [done|]. rewrite !string_app_cons. by f_equal. Qed.

Lemma string_app_nil_r (a : string) : a +:+ "" = a.
Proof. induction a as [|x a IH]; [done|]. rewrite string_app_cons. by f_equal. Qed.

Lemma string_app_length (a b : string) :
  String.length (a +:+ b) = (String.length a + String.length b)%nat.
Proof.
  induction a as [|x a IH]; [done|]. rewrite string_app_cons. simpl. by f_equal.
Qed.

Lemma chars_cons (x : ascii) (a : string) : chars (String x a) = x :: chars a.
Proof. done. Qed.

Lemma chars_app (a b : string) : chars (a +:+ b) = chars a ++ chars b.
Proof.
  induction a as [|x a IH]; [done|].
  rewrite string_app_cons, !chars_cons. simpl. by f_equal.
Qed.

Lemma prefix_cons (c d : ascii) (sep s : string) :
  String.prefix (String c sep) (String d s)
  = if decide (c = d) then String.prefix sep s else false.
Proof. simpl. destruct (ascii_dec c d); by case_decide. Qed.

Lemma prefix_nil_r (c : ascii) (sep : string) :
  String.prefix (String c sep) "" = false.
Proof. done. Qed.

Lemma prefix_nil_l (s : string) : String.prefix "" s = true.
Proof. by destruct s. Qed.

Lemma prefix_app (sep s : string) : String.prefix sep (sep +:+ s) = true.
Proof.
  induction sep as [|c sep IH]; [apply prefix_nil_l|].
  rewrite string_app_cons, prefix_cons. by case_decide.
Qed.

(** A match that fits in the first part does not look at the second. *)
Lemma prefix_app_l (sep x y : string) :
  (String.length sep <= String.length x)%nat ->
  String.prefix sep (x +:+ y) = String.prefix sep x.
Proof.
  revert x. induction sep as [|c sep IH]; intros x Hlen.
  - by rewrite !prefix_nil_l.
  - destruct x as [|d x]; simpl in Hlen; [lia|].
    rewrite string_app_cons, !prefix_cons.
    case_decide; [|done]. apply IH. lia.
Qed.

Lemma prefix_chars (sep s : string) (c : ascii) :
  String.prefix sep s = true -> c ∈ chars sep -> c ∈ chars s.
Proof.
  revert s. induction sep as [|x sep IH]; intros s Hp Hc.
  - inversion Hc.
  - destruct s as [|d s]; [done|].
    rewrite prefix_cons in Hp. case_decide; [subst d|done].
    rewrite chars_cons in *.
    apply elem_of_cons in Hc as [->|Hc]; [by left|].
    right. by apply IH.
Qed.

Lemma contains_cons (sub : string) (c : ascii) (s : string) :
  contains sub (String c s) = String.prefix sub (String c s) || contains sub s.
Proof. done. Qed.

Lemma contains_app_r (sub a b : string) : contains sub (a +:+ sub +:+ b) = true.
Proof.
  induction a as [|x a IH].
  - change ("" +:+ sub +:+ b) with (sub +:+ b). destruct (sub +:+ b) eqn:E.
    + destruct sub; [done|discriminate].
    + rewrite contains_cons, <- E, prefix_app. done.
  - rewrite string_app_cons, contains_cons, IH. apply orb_true_r.
Qed.

Lemma contains_char (sub s : string) (c : ascii) :
  c ∈ chars sub -> c ∉ chars s -> contains sub s = false.
Proof.
  intros Hc. induction s as [|d s IH]; intros Hs.
  - destruct sub; [inversion Hc|done].
  - rewrite contains_cons. apply orb_false_iff. split.
    + destruct (String.prefix sub (String d s)) eqn:E; [|done].
      exfalso. apply Hs. by eapply prefix_chars.
    + apply IH. intros Hin. apply Hs. rewrite chars_cons. by right.
Qed.

Lemma chomp_newline (s : string) : chomp (s +:+ newline) = s.
Proof.
  induction s as [|c s IH]; [done|].
  rewrite string_app_cons. simpl chomp.
  destruct (s +:+ newline) eqn:E.
  - destruct s; discriminate.
  - by rewrite IH.
Qed.

End strings.

(** ** Splitting on a separator *)

Section splitting.
Context (sep : string).

Lemma split_go_nil (k : nat) (cur : string) : split_go sep k cur "" = [cur].
Proof. done. Qed.

Lemma split_go_skip (pre s cur : string) :
  split_go sep (String.length pre) cur (pre +:+ s) = split_go sep 0 cur s.
Proof.
  induction pre as [|c pre IH]; [done|].
  rewrite string_app_cons. simpl. apply IH.
Qed.

Lemma split_go_cons (c : ascii) (s cur : string) :
  split_go sep 0 cur (String c s)
  = if String.prefix sep (String c s)
    then cur :: split_go sep (String.length sep - 1) "" s
    else split_go sep 0 (cur +:+ String c "") s.
Proof. done. Qed.

Lemma no_match_in_cons (c : ascii) (a rest : string) :
  no_match_in sep (String c a) rest
  = negb (String.prefix sep (String c (a +:+ rest))) && no_match_in sep a rest.
Proof. done. Qed.

(** Nothing is cut where no occurrence of the separator starts. *)
Lemma split_go_pass (a rest cur : string) :
  no_match_in sep a rest = true ->
  split_go sep 0 cur (a +:+ rest) = split_go sep 0 (cur +:+ a) rest.
Proof.
  revert cur. induction a as [|c a IH]; intros cur Hno.
  - by rewrite string_app_nil_r.
  - rewrite no_match_in_cons in Hno. apply andb_true_iff in Hno as [Hp Hno].
    apply negb_true_iff in Hp.
    rewrite string_app_cons, split_go_cons, Hp.
    rewrite IH by done. by rewrite string_app_assoc.
Qed.

(** Without an occurrence of the separator there is one piece. *)
Lemma split_go_whole (s cur : string) :
  contains sep s = false -> split_go sep 0 cur s = [cur +:+ s].
Proof.
  revert cur. induction s as [|c s IH]; intros cur Hno.
  - by rewrite string_app_nil_r.
  - rewrite contains_cons in Hno. apply orb_false_iff in Hno as [Hp Hno].
    rewrite split_go_cons, Hp, IH by done. by rewrite string_app_assoc.
Qed.

End splitting.

Lemma split_go_sep (c : ascii) (sep' s cur : string) :
  split_go (String c sep') 0 cur (String c sep' +:+ s)
  = cur :: split_go (String c sep') 0 "" s.
Proof.
  rewrite string_app_cons, split_go_cons, <- string_app_cons, prefix_app.
  f_equal. replace (String.length (String c sep') - 1)%nat
    with (String.length sep') by (simpl; lia).
  apply split_go_skip.
Qed.

(** An occurrence that would start within [a] lies in [a] and the first
    characters of what follows. *)
Lemma no_match_in_contains (sep a r1 r2 : string) :
  (String.length sep <= S (String.length r1))%nat ->
  contains sep (a +:+ r1) = false ->
  no_match_in sep a (r1 +:+ r2) = true.
Proof.
  intros Hlen. induction a as [|c a IH]; intros Hno; [done|].
  rewrite string_app_cons, contains_cons in Hno.
  apply orb_false_iff in Hno as [Hp Hno].
  rewrite no_match_in_cons. apply andb_true_iff. split; [|by apply IH].
  apply negb_true_iff.
  rewrite <- string_app_cons in Hp.
  rewrite <- string_app_cons, <- string_app_assoc, prefix_app_l; [done|].
  rewrite string_app_length. simpl. lia.
Qed.

Lemma no_match_in_char (c : ascii) (a rest : string) :
  c ∉ chars a -> no_match_in (String c "") a rest = true.
Proof.
  induction a as [|d a IH]; intros Hc; [done|].
  rewrite chars_cons in Hc. apply not_elem_of_cons in Hc as [Hne Hc].
  rewrite no_match_in_cons, prefix_cons.
  case_decide; [done|]. simpl. by apply IH.
Qed.

(** Splitting what was joined with a one-character separator gives the
    pieces back, when no piece holds the separator. *)
Lemma py_split_join (c : ascii) (pieces : list string) :
  pieces <> [] ->
  Forall (fun piece => c ∉ chars piece) pieces ->
  py_split (String c "") (py_join (String c "") pieces) = pieces.
Proof.
  intros Hne Hall. unfold py_split, py_join.
  assert (H : forall cur,
             split_go (String c "") 0 cur (String.concat (String c "") pieces)
             = match pieces with
               | [] => [cur]
               | piece :: others => (cur +:+ piece) :: others
               end).
  { clear Hne. induction Hall as [|piece others Hc Hall IH]; intros cur; [done|].
    destruct others as [|piece' others].
    - simpl String.concat. rewrite <- (string_app_nil_r piece) at 1.
      rewrite split_go_pass by (by apply no_match_in_char). done.
    - change (String.concat (String c "") (piece :: piece' :: others))
        with (piece +:+ String c "" +:+ String.concat (String c "") (piece' :: others)).
      rewrite split_go_pass by (by apply no_match_in_char).
      rewrite split_go_sep, IH. done. }
  rewrite H. by destruct pieces.
Qed.

(** The characters of the pieces are characters of the string. *)
Lemma split_go_chars (sep : string) (s : string) (k : nat) (cur piece : string)
    (c : ascii) :
  piece ∈ split_go sep k cur s -> c ∈ chars piece ->
  c ∈ chars cur \/ c ∈ chars s.
Proof.
  revert k cur. induction s as [|d s IH]; intros k cur Hp Hc.
  - apply list_elem_of_singleton in Hp. subst piece. by left.
  - destruct k as [|k].
    + rewrite split_go_cons in Hp.
      destruct (String.prefix sep (String d s)).
      * apply elem_of_cons in Hp as [->|Hp]; [by left|].
        destruct (IH _ _ Hp Hc) as [H|H]; [inversion H|].
        right. rewrite chars_cons. by right.
      * destruct (IH _ _ Hp Hc) as [H|H].
        -- rewrite chars_app in H. apply elem_of_app in H as [H|H]; [by left|].
           right. rewrite chars_cons. apply list_elem_of_singleton in H. subst. by left.
        -- right. rewrite chars_cons. by right.
    + simpl in Hp. destruct (IH _ _ Hp Hc) as [H|H]; [by left|].
      right. rewrite chars_cons. by right.
Qed.

(** ** Reading and printing integers *)

Section integers.

Lemma uint_value_acc (d : Decimal.uint) (p : positive) :
  Z.pos (Pos.of_uint_acc d p) = uint_value (Z.pos p) d.
Proof.
  revert p. induction d; intros p; simpl; [done|..];
    rewrite IHd; f_equal; lia.
Qed.

Lemma uint_value_of_uint (d : Decimal.uint) :
  Z.of_N (Pos.of_uint d) = uint_value 0 d.
Proof.
  induction d; simpl; [done|done|..]; by rewrite uint_value_acc.
Qed.

Lemma int_digits_uint (d : Decimal.uint) (acc : Z) (after_digit : bool) :
  d <> Decimal.Nil \/ after_digit = true ->
  int_digits acc after_digit (NilEmpty.string_of_uint d)
  = Some (uint_value acc d).
Proof.
  revert acc after_digit.
  induction d; intros acc after_digit Hd;
    [destruct Hd as [?| ->]; done|..];
    (simpl NilEmpty.string_of_uint; simpl int_digits; simpl uint_value;
     rewrite IHd by (by right); do 2 f_equal).
Qed.

Lemma py_int_digits (d : Decimal.uint) :
  d <> Decimal.Nil ->
  py_int (NilEmpty.string_of_uint d) = Ok (uint_value 0 d).
Proof.
  intros Hd. unfold py_int.
  assert (H : int_digits 0 false (NilEmpty.string_of_uint d)
              = Some (uint_value 0 d)) by (apply int_digits_uint; by left).
  destruct d; [done|..]; simpl NilEmpty.string_of_uint in *; by rewrite H.
Qed.

(** [int(str(z)) == z]. *)
Lemma py_int_str (z : Z) : py_int (py_str z) = Ok z.
Proof.
  unfold py_str. destruct z as [|p|p]; simpl Z.to_int.
  - done.
  - simpl NilEmpty.string_of_int.
    rewrite py_int_digits by apply DecimalPos.Unsigned.to_uint_nonnil.
    by rewrite <- uint_value_of_uint, DecimalPos.Unsigned.of_to.
  - simpl NilEmpty.string_of_int. unfold py_int.
    rewrite int_digits_uint
      by (left; apply DecimalPos.Unsigned.to_uint_nonnil).
    simpl. by rewrite <- uint_value_of_uint, DecimalPos.Unsigned.of_to.
Qed.

Lemma string_of_uint_chars (d : Decimal.uint) :
  Forall (fun c => is_digit_or_minus c = true) (chars (NilEmpty.string_of_uint d)).
Proof. induction d; simpl; [constructor|..]; by constructor. Qed.

Lemma py_str_chars (z : Z) :
  Forall (fun c => is_digit_or_minus c = true) (chars (py_str z)).
Proof.
  unfold py_str. destruct (Z.to_int z); simpl.
  - apply string_of_uint_chars.
  - constructor; [done|]. apply string_of_uint_chars.
Qed.

Lemma py_str_no_char (z : Z) (c : ascii) :
  is_digit_or_minus c = false -> c ∉ chars (py_str z).
Proof.
  intros Hc Hin. pose proof (py_str_chars z) as Hall.
  rewrite Forall_forall in Hall. specialize (Hall c Hin). congruence.
Qed.

End integers.

Example py_int_examples :
  py_int "100" = Ok 100 /\ py_int "-7" = Ok (-7) /\ py_int "+12" = Ok 12
  /\ py_int "1_000" = Ok 1000 /\ py_int "007" = Ok 7
  /\ py_int "" = Raise ValueError /\ py_int "start" = Raise ValueError
  /\ py_int "1__0" = Raise ValueError /\ py_int "5_" = Raise ValueError
  /\ py_int "-" = Raise ValueError.
Proof. repeat split; reflexivity. Qed.

(** ** Splitting a line into its fields *)

Section whitespace.

Lemma split_ws_space (c : ascii) (s : string) :
  is_space c = true -> split_ws (String c s) = split_ws s.
Proof. intros H. simpl. by rewrite H. Qed.

Lemma split_ws_last (c : ascii) :
  is_space c = false -> split_ws (String c "") = [String c ""].
Proof. intros H. simpl. by rewrite H. Qed.

Lemma split_ws_token_end (c c' : ascii) (s : string) :
  is_space c = false -> is_space c' = true ->
  split_ws (String c (String c' s)) = String c "" :: split_ws (String c' s).
Proof. intros H H'. simpl. by rewrite H, H'. Qed.

Lemma split_ws_token_more (c c' : ascii) (s : string) :
  is_space c = false -> is_space c' = false ->
  split_ws (String c (String c' s))
  = match split_ws (String c' s) with
    | tok :: toks => String c tok :: toks
    | [] => [String c ""]
    end.
Proof. intros H H'. simpl. by rewrite H, H'. Qed.

(** The fields are non-empty and hold no whitespace. *)
Lemma split_ws_tokens (s : string) :
  Forall (fun tok => tok <> "" /\ Forall (fun c => is_space c = false) (chars tok))
         (split_ws s).
Proof.
  induction s as [|c s IH]; [constructor|].
  destruct (is_space c) eqn:Hc.
  - by rewrite split_ws_space.
  - destruct s as [|c' s].
    + rewrite split_ws_last by done. repeat constructor; done.
    + destruct (is_space c') eqn:Hc'.
      * rewrite split_ws_token_end by done.
        constructor; [|done]. split; [done|]. by repeat constructor.
      * rewrite split_ws_token_more by done.
        destruct (split_ws (String c' s)) as [|tok toks].
        -- repeat constructor; done.
        -- apply Forall_cons in IH as [[_ Htok] Htoks].
           constructor; [|done]. split; [done|].
           rewrite chars_cons. by constructor.
Qed.

Lemma split_ws_no_space (s tok : string) (c : ascii) :
  tok ∈ split_ws s -> is_space c = true -> c ∉ chars tok.
Proof.
  intros Htok Hc Hin. pose proof (split_ws_tokens s) as Hall.
  rewrite Forall_forall in Hall. destruct (Hall tok Htok) as [_ Hchars].
  rewrite Forall_forall in Hchars. specialize (Hchars c Hin). congruence.
Qed.

(** A field followed by whitespace is the first field of the line. *)
Lemma split_ws_field (tok : string) (w : ascii) (s : string) :
  tok <> "" ->
  Forall (fun c => is_space c = false) (chars tok) ->
  is_space w = true ->
  split_ws (tok +:+ String w s) = tok :: split_ws s.
Proof.
  intros Hne Hchars Hw. induction tok as [|c tok IH]; [done|].
  rewrite chars_cons in Hchars. apply Forall_cons in Hchars as [Hc Hchars].
  destruct tok as [|c' tok].
  - change (String c "" +:+ String w s) with (String c (String w s)).
    rewrite split_ws_token_end, split_ws_space by done. done.
  - rewrite !string_app_cons.
    rewrite chars_cons in Hchars. pose proof Hchars as Hchars'.
    apply Forall_cons in Hchars' as [Hc' _].
    rewrite split_ws_token_more by done.
    rewrite <- string_app_cons, IH; done.
Qed.

Lemma split_ws_spaces (s : string) :
  Forall (fun c => is_space c = true) (chars s) -> split_ws s = [].
Proof.
  induction s as [|c s IH]; [done|].
  rewrite chars_cons. intros [Hc Hs]%Forall_cons.
  rewrite split_ws_space by done. by apply IH.
Qed.

(** [line.split()] gives back the fields that were joined with tabs. *)
Lemma split_ws_joined (fields : list string) (w : ascii) (trail : string) :
  Forall (fun tok => tok <> ""
                     /\ Forall (fun c => is_space c = false) (chars tok)) fields ->
  is_space w = true ->
  Forall (fun c => is_space c = true) (chars trail) ->
  split_ws (py_join tab fields +:+ String w trail) = fields.
Proof.
  intros Hall Hw Htrail.
  induction Hall as [|tok fields [Hne Hchars] Hall IH].
  - change (py_join tab [] +:+ String w trail) with (String w trail).
    rewrite split_ws_space by done. by apply split_ws_spaces.
  - destruct fields as [|tok' fields].
    + change (py_join tab [tok]) with tok.
      rewrite split_ws_field by done. f_equal. by apply split_ws_spaces.
    + change (py_join tab (tok :: tok' :: fields))
        with (tok +:+ tab +:+ py_join tab (tok' :: fields)).
      rewrite !string_app_assoc. unfold tab at 1. rewrite string_app_cons.
      rewrite split_ws_field by done. f_equal. exact IH.
Qed.

End whitespace.

(** ** The name of a fragment *)

Section fragment_names.

Lemma underscore_not_digit_or_minus : is_digit_or_minus "_" = false.
Proof. done. Qed.

(** The pieces of a name whose first [_segment_] follows [parent]. *)
Lemma fragment_name_pieces (parent start stop : string) :
  contains "_segment_" (parent +:+ "_segment") = false ->
  contains "_segment_" ("start_" +:+ start +:+ "_stop_" +:+ stop) = false ->
  py_split "_segment_" (parent +:+ "_segment_start_" +:+ start +:+ "_stop_" +:+ stop)
  = [parent; "start_" +:+ start +:+ "_stop_" +:+ stop].
Proof.
  intros Hparent Htail. unfold py_split.
  change (parent +:+ "_segment_start_" +:+ start +:+ "_stop_" +:+ stop)
    with (parent +:+ "_segment" +:+ "_" +:+ "start_" +:+ start +:+ "_stop_" +:+ stop).
  rewrite split_go_pass by (by apply no_match_in_contains).
  change ("_segment" +:+ "_" +:+ "start_" +:+ start +:+ "_stop_" +:+ stop)
    with ("_segment_" +:+ "start_" +:+ start +:+ "_stop_" +:+ stop).
  rewrite split_go_sep, split_go_whole by done. done.
Qed.

Lemma fragment_start_piece (start stop : string) :
  "_"%char ∉ chars start -> "_"%char ∉ chars stop ->
  py_index (py_split "_" ("start_" +:+ start +:+ "_stop_" +:+ stop)) (-3)
  = Ok start.
Proof.
  intros Hs He.
  change ("start_" +:+ start +:+ "_stop_" +:+ stop)
    with (py_join "_" ["start"; start; "stop"; stop]).
  rewrite py_split_join; [done|done|].
  repeat constructor; try done;
    (intros Hin; vm_compute in Hin;
     repeat (apply elem_of_cons in Hin as [Hin|Hin]; [discriminate|]);
     inversion Hin).
Qed.

Lemma fragment_tail_no_marker (s e : Z) :
  contains "_segment_" ("start_" +:+ py_str s +:+ "_stop_" +:+ py_str e) = false.
Proof.
  apply (contains_char _ _ "g"%char).
  - vm_compute. do 3 right. left.
  - change ("start_" +:+ py_str s +:+ "_stop_" +:+ py_str e)
      with ("start_" +:+ (py_str s +:+ ("_stop_" +:+ py_str e))).
    rewrite !chars_app, !elem_of_app.
    intros [H|[H|[H|H]]].
    + vm_compute in H.
      repeat (apply elem_of_cons in H as [H|H]; [discriminate|]). inversion H.
    + by apply py_str_no_char in H.
    + vm_compute in H.
      repeat (apply elem_of_cons in H as [H|H]; [discriminate|]). inversion H.
    + by apply py_str_no_char in H.
Qed.

Lemma fragment_name_contains_segment (parent rest : string) :
  contains "segment" (parent +:+ "_segment_" +:+ rest) = true.
Proof.
  change (parent +:+ "_segment_" +:+ rest)
    with (parent +:+ "_" +:+ "segment" +:+ "_" +:+ rest).
  rewrite <- (string_app_assoc parent "_"). apply contains_app_r.
Qed.

End fragment_names.

(** ** Relocation of one line *)

Section relocation.

Lemma py_index_1 {A} (a b : A) (l : list A) : py_index (a :: b :: l) 1 = Ok b.
Proof. apply (py_index_lookup _ 1). done. Qed.

Lemma py_index_2 {A} (a b c : A) (l : list A) :
  py_index (a :: b :: c :: l) 2 = Ok c.
Proof. apply (py_index_lookup _ 2). done. Qed.

Lemma py_index_3 {A} (a b c d : A) (l : list A) :
  py_index (a :: b :: c :: d :: l) 3 = Ok d.
Proof. apply (py_index_lookup _ 3). done. Qed.

Lemma py_index_short {A} (l : list A) (i : Z) :
  Z.of_nat (length l) <= i -> py_index l i = Raise IndexError.
Proof.
  intros Hlen. unfold py_index. zcases; try lia; try done.
Qed.

(** Run the binds whose first part is known. *)
Ltac run := cbn [mbind result_bind].

Lemma relocate_line_other (line name : string) (rest : list string) :
  split_ws line = name :: rest ->
  contains "segment" name = false ->
  relocate_line line = Ok line.
Proof.
  intros Hsplit Hno. unfold relocate_line. cbv zeta.
  rewrite Hsplit; rewrite py_index_0; run; rewrite Hno. done.
Qed.

Lemma relocate_line_fragment
    (line name f1 f2 f3 : string) (rest : list string)
    (new_name tail : string) (others : list string) (piece : string)
    (s a b : Z) :
  split_ws line = name :: f1 :: f2 :: f3 :: rest ->
  contains "segment" name = true ->
  py_split "_segment_" name = new_name :: tail :: others ->
  py_index (py_split "_" tail) (-3) = Ok piece ->
  py_int piece = Ok s -> py_int f2 = Ok a -> py_int f3 = Ok b ->
  relocate_line line
  = Ok (new_name +:+ tab +:+ f1 +:+ tab +:+ py_str (s + a) +:+ tab
          +:+ py_str (s + b) +:+ tab +:+ py_join tab rest +:+ newline).
Proof.
  intros Hsplit Hseg Hpieces Hpiece Hs Ha Hb. unfold relocate_line. cbv zeta.
  rewrite Hsplit; rewrite py_index_0; run; rewrite Hseg; rewrite Hpieces.
  rewrite py_index_0. run. rewrite (py_index_1 new_name tail others). run.
  rewrite Hpiece; run; rewrite Hs; run.
  rewrite py_index_2; run; rewrite Ha; run; rewrite py_index_3; run; rewrite Hb; run.
  rewrite py_index_1; run. done.
Qed.

(** A name that holds [segment] but no [_segment_] has no second piece. *)
Lemma relocate_line_no_marker (line name : string) (rest : list string) :
  split_ws line = name :: rest ->
  contains "segment" name = true ->
  contains "_segment_" name = false ->
  relocate_line line = Raise IndexError.
Proof.
  intros Hsplit Hseg Hno. unfold relocate_line. cbv zeta.
  assert (Hone : py_split "_segment_" name = [name]).
  { unfold py_split. by rewrite split_go_whole. }
  rewrite Hsplit; rewrite py_index_0; run; rewrite Hseg, Hone.
  rewrite py_index_0; run. done.
Qed.

Lemma relocate_line_bad_offset
    (line name : string) (rest : list string)
    (new_name tail : string) (others : list string) (piece : string) :
  split_ws line = name :: rest ->
  contains "segment" name = true ->
  py_split "_segment_" name = new_name :: tail :: others ->
  py_index (py_split "_" tail) (-3) = Ok piece ->
  py_int piece = Raise ValueError ->
  relocate_line line = Raise ValueError.
Proof.
  intros Hsplit Hseg Hpieces Hpiece Hs. unfold relocate_line. cbv zeta.
  rewrite Hsplit; rewrite py_index_0; run; rewrite Hseg; rewrite Hpieces.
  rewrite py_index_0; run. rewrite (py_index_1 new_name tail others); run.
  rewrite Hpiece; run; rewrite Hs. done.
Qed.

(** What a line that was relocated looks like. *)
Lemma relocate_line_fragment_inv (line name out : string) (rest : list string) :
  split_ws line = name :: rest ->
  contains "segment" name = true ->
  relocate_line line = Ok out ->
  exists new_name tail others f1 f2 f3 rest' start stop,
    rest = f1 :: f2 :: f3 :: rest'
    /\ py_split "_segment_" name = new_name :: tail :: others
    /\ out = new_name +:+ tab +:+ f1 +:+ tab +:+ py_str start +:+ tab
               +:+ py_str stop +:+ tab +:+ py_join tab rest' +:+ newline.
Proof.
  intros Hsplit Hseg. unfold relocate_line. cbv zeta.
  rewrite Hsplit; rewrite py_index_0; run; rewrite Hseg.
  destruct (py_split "_segment_" name) as [|new_name [|tail others]] eqn:Hpieces.
  { by rewrite py_index_nil. }
  { rewrite py_index_0; run.
    rewrite (py_index_short [new_name] 1) by (simpl; lia). done. }
  rewrite py_index_0; run.
  rewrite (py_index_1 new_name tail others). run.
  destruct (py_index (py_split "_" tail) (-3)) as [piece|]; [|done].
  run.
  destruct (py_int piece) as [s|]; [|done]. run.
  destruct rest as [|f1 [|f2 [|f3 rest']]].
  - rewrite (py_index_short [name] 2) by (simpl; lia). done.
  - rewrite (py_index_short [name; f1] 2) by (simpl; lia). done.
  - rewrite py_index_2; run.
    destruct (py_int f2) as [a|]; [|done]. run.
    rewrite (py_index_short [name; f1; f2] 3) by (simpl; lia). done.
  - rewrite py_index_2; run.
    destruct (py_int f2) as [a|]; [|done]. run.
    rewrite py_index_3; run.
    destruct (py_int f3) as [b|]; [|done]. run.
    rewrite py_index_1; run. intros [= <-].
    exists new_name, tail, others, f1, f2, f3, rest', (s + a), (s + b). done.
Qed.

End relocation.

(** ** The fields of a written line *)

Section written_fields.

Lemma tab_is_space : is_space (ascii_of_nat 9) = true.
Proof. done. Qed.

Lemma fields_of_written_line (new_name f1 start stop : string)
    (rest : list string) :
  Forall (fun piece => ascii_of_nat 9 ∉ chars piece)
         (new_name :: f1 :: start :: stop :: rest) ->
  fields_of_line (new_name +:+ tab +:+ f1 +:+ tab +:+ start +:+ tab
                    +:+ stop +:+ tab +:+ py_join tab rest +:+ newline)
  = new_name :: f1 :: start :: stop
      :: match rest with [] => [""] | _ :: _ => rest end.
Proof.
  intros Hall.
  set (rest' := match rest with [] => [""] | _ :: _ => rest end).
  assert (Hjoin : py_join tab rest = py_join tab rest') by (by destruct rest).
  assert (Hline : new_name +:+ tab +:+ f1 +:+ tab +:+ start +:+ tab
                    +:+ stop +:+ tab +:+ py_join tab rest +:+ newline
                  = py_join tab (new_name :: f1 :: start :: stop :: rest')
                      +:+ newline).
  { rewrite Hjoin. destruct rest' as [|r0 rs] eqn:E.
    - subst rest'. by destruct rest.
    - unfold py_join. simpl String.concat. by rewrite !string_app_assoc. }
  rewrite Hline. unfold fields_of_line. rewrite chomp_newline.
  unfold tab. apply py_split_join; [done|].
  apply Forall_cons in Hall as [H0 Hall]. apply Forall_cons in Hall as [H1 Hall].
  apply Forall_cons in Hall as [H2 Hall]. apply Forall_cons in Hall as [H3 Hall].
  repeat (constructor; [done|]).
  subst rest'. destruct rest; [|done]. repeat constructor. intros Hin. inversion Hin.
Qed.

Lemma py_str_no_tab (z : Z) : ascii_of_nat 9 ∉ chars (py_str z).
Proof. by apply py_str_no_char. Qed.

Lemma piece_chars (name piece : string) (c : ascii) :
  piece ∈ py_split "_segment_" name -> c ∈ chars piece -> c ∈ chars name.
Proof.
  intros Hpiece Hin.
  destruct (split_go_chars _ _ _ _ _ _ Hpiece Hin) as [H|H]; [inversion H|done].
Qed.

Lemma piece_no_tab (name piece : string) :
  ascii_of_nat 9 ∉ chars name ->
  piece ∈ py_split "_segment_" name ->
  ascii_of_nat 9 ∉ chars piece.
Proof. intros Hname Hpiece Hin. apply Hname. by eapply piece_chars. Qed.

(** The first piece starts with what was read so far. *)
Lemma split_go_head (sep s : string) (k : nat) (cur : string) :
  exists piece rest, split_go sep k cur s = (cur +:+ piece) :: rest.
Proof.
  revert k cur. induction s as [|c s IH]; intros k cur.
  - exists "", []. by rewrite string_app_nil_r.
  - destruct k as [|k].
    + rewrite split_go_cons. destruct (String.prefix sep (String c s)).
      * eexists "", _. by rewrite string_app_nil_r.
      * destruct (IH 0%nat (cur +:+ String c "")) as (piece & rest & ->).
        exists (String c piece), rest. by rewrite string_app_assoc.
    + simpl. apply IH.
Qed.

(** A name that does not start with the marker has a first piece. *)
Lemma first_piece_nonempty (name new_name : string) (pieces : list string) :
  name <> "" ->
  String.prefix "_segment_" name = false ->
  py_split "_segment_" name = new_name :: pieces ->
  new_name <> "".
Proof.
  intros Hne Hp. destruct name as [|c name]; [done|].
  unfold py_split. rewrite split_go_cons, Hp.
  destruct (split_go_head "_segment_" name 0 ("" +:+ String c "")) as (piece & rest & ->).
  intros [= <- _]. done.
Qed.

Lemma py_str_nonempty (z : Z) : py_str z <> "".
Proof. intros H. pose proof (py_int_str z) as Hint. rewrite H in Hint. done. Qed.

Lemma py_str_no_space (z : Z) :
  Forall (fun c => is_space c = false) (chars (py_str z)).
Proof.
  eapply Forall_impl; [apply py_str_chars|]. intros c Hc. simpl in Hc.
  destruct (is_space c) eqn:Hs; [|done].
  unfold is_digit_or_minus, digit_value, is_space in *.
  destruct c as [[] [] [] [] [] [] [] []]; vm_compute in Hc, Hs; congruence.
Qed.

(** The written line read back with [line.split()]. *)
Lemma split_ws_written_line (new_name f1 start stop : string)
    (rest : list string) :
  Forall (fun tok => tok <> ""
                     /\ Forall (fun c => is_space c = false) (chars tok))
         (new_name :: f1 :: start :: stop :: rest) ->
  split_ws (new_name +:+ tab +:+ f1 +:+ tab +:+ start +:+ tab
              +:+ stop +:+ tab +:+ py_join tab rest +:+ newline)
  = new_name :: f1 :: start :: stop :: rest.
Proof.
  intros Hall. destruct rest as [|r rs].
  - assert (Hline : new_name +:+ tab +:+ f1 +:+ tab +:+ start +:+ tab
                      +:+ stop +:+ tab +:+ py_join tab [] +:+ newline
                    = py_join tab [new_name; f1; start; stop]
                        +:+ String (ascii_of_nat 9) newline).
    { unfold py_join. simpl String.concat. by rewrite !string_app_assoc. }
    rewrite Hline. apply split_ws_joined; [done|done|]. by repeat constructor.
  - assert (Hline : new_name +:+ tab +:+ f1 +:+ tab +:+ start +:+ tab
                      +:+ stop +:+ tab +:+ py_join tab (r :: rs) +:+ newline
                    = py_join tab (new_name :: f1 :: start :: stop :: r :: rs)
                        +:+ String (ascii_of_nat 10) "").
    { unfold py_join. simpl String.concat. by rewrite !string_app_assoc. }
    rewrite Hline. apply split_ws_joined; [done|done|]. constructor.
Qed.

End written_fields.

(** X25: where the relocator restores the parent.  For every record whose
    subject identifier is [<parentId>_segment_start_<s>_stop_<e>], where
    this [_segment_] is the first one of the identifier (parentId neither
    holds [_segment_] nor ends in [_segment]) and whose fields 2 and 3 are the
    integers [a] and [b], the relocator writes a record whose subject
    identifier is parentId and whose start and stop are [s + a] and [s + b],
    with the other fields as they were; a written line with a non-empty
    parentId reads back with [line.split()] as these fields.  For the
    fragment [X_segment_start_100_stop_200] and the local alignment (10, 50)
    this gives (110, 150) on [X]. *)
Theorem relocate_fragment_shifts
    (line parent f1 f2 f3 : string) (rest : list string) (s e a b : Z) :
  split_ws line = fragment_name parent (s, e) :: f1 :: f2 :: f3 :: rest ->
  contains "_segment_" (parent +:+ "_segment") = false ->
  py_int f2 = Ok a ->
  py_int f3 = Ok b ->
  exists out start stop,
    relocate_line line = Ok out
    /\ fields_of_line out
       = parent :: f1 :: start :: stop
           :: match rest with [] => [""] | _ :: _ => rest end
    /\ (parent <> "" -> split_ws out = parent :: f1 :: start :: stop :: rest)
    /\ py_int start = Ok (s + a)
    /\ py_int stop = Ok (s + b).
Proof.
  intros Hsplit Hparent Ha Hb.
  pose proof (split_ws_tokens line) as Htok. rewrite Hsplit in Htok.
  assert (Hnotab : forall tok, tok ∈ fragment_name parent (s, e) :: f1 :: f2 :: f3 :: rest ->
                               ascii_of_nat 9 ∉ chars tok).
  { intros tok Hin. rewrite <- Hsplit in Hin.
    by apply (split_ws_no_space line tok). }
  exists (parent +:+ tab +:+ f1 +:+ tab +:+ py_str (s + a) +:+ tab
            +:+ py_str (s + b) +:+ tab +:+ py_join tab rest +:+ newline),
         (py_str (s + a)), (py_str (s + b)).
  split; [|split; [|split; [|split]]].
  - eapply relocate_line_fragment; [exact Hsplit| | | | |exact Ha|exact Hb].
    + apply fragment_name_contains_segment.
    + apply fragment_name_pieces; [done|]. apply fragment_tail_no_marker.
    + apply fragment_start_piece; by apply py_str_no_char.
    + apply py_int_str.
  - apply fields_of_written_line.
    constructor.
    { intros Hin. apply (Hnotab (fragment_name parent (s, e))); [by left|].
      unfold fragment_name. rewrite chars_app. apply elem_of_app. by left. }
    constructor; [apply Hnotab; right; by left|].
    constructor; [apply py_str_no_tab|].
    constructor; [apply py_str_no_tab|].
    apply Forall_forall. intros tok Hin. apply Hnotab. by do 4 right.
  - intros Hne.
    apply Forall_cons in Htok as [[_ Hname_chars] Htok].
    apply Forall_cons in Htok as [Hf1 Htok].
    apply Forall_cons in Htok as [_ Htok].
    apply Forall_cons in Htok as [_ Htok].
    apply split_ws_written_line.
    constructor.
    { split; [done|]. unfold fragment_name in Hname_chars.
      rewrite chars_app in Hname_chars. by apply Forall_app in Hname_chars as [? _]. }
    constructor; [done|].
    constructor; [split; [apply py_str_nonempty | apply py_str_no_space]|].
    constructor; [split; [apply py_str_nonempty | apply py_str_no_space]|].
    done.
  - apply py_int_str.
  - apply py_int_str.
Qed.

Lemma relocate_fragment_shifts_witness :
  exists out start stop,
    relocate_line ("X_segment_start_100_stop_200" +:+ tab +:+ "5000" +:+ tab
                   +:+ "10" +:+ tab +:+ "50" +:+ tab +:+ "+" +:+ newline)
    = Ok out
    /\ fields_of_line out = ["X"; "5000"; start; stop; "+"]
    /\ ("X" <> "" -> split_ws out = ["X"; "5000"; start; stop; "+"])
    /\ py_int start = Ok (100 + 10)
    /\ py_int stop = Ok (100 + 50).
Proof.
  apply (relocate_fragment_shifts _ "X" "5000" "10" "50" ["+"] 100 200 10 50).
  - vm_compute. reflexivity.
  - vm_compute. reflexivity.
  - vm_compute. reflexivity.
  - vm_compute. reflexivity.
Defined.

(** C6: the relocator does not restore the parent of every fragment.  For
    the coord (2, 6) of a contig called [a_segment],
    [get_poor_mapping_sequences] writes the fragment
    [a_segment_segment_start_2_stop_6]; on a record of an alignment at
    (1, 3) of this fragment the relocator raises nothing and writes the
    record onto the contig [a], at (3, 5): the subject identifier is cut at
    the first [_segment_] of the name, not at the one the fragment was named
    with, so it is not the parent [a_segment]. *)
Lemma relocate_fragment_of_segment_contig_misplaced :
  get_poor_mapping_sequences [("a_segment", "ACGTACGT")]
    {[ "a_segment" := [(2, 6)] ]}
  = [ ">" +:+ fragment_name "a_segment" (2, 6) +:+ newline; "GTAC" +:+ newline ]
  /\ fragment_name "a_segment" (2, 6) = "a_segment_segment_start_2_stop_6"
  /\ relocate_line ("a_segment_segment_start_2_stop_6" +:+ tab +:+ "4" +:+ tab
                    +:+ "1" +:+ tab +:+ "3" +:+ tab +:+ "+" +:+ tab +:+ "chr21"
                    +:+ newline)
     = Ok ("a" +:+ tab +:+ "4" +:+ tab +:+ "3" +:+ tab +:+ "5" +:+ tab +:+ "+"
           +:+ tab +:+ "chr21" +:+ newline).
Proof. repeat split; vm_compute; reflexivity. Qed.

(** The same cut at the first [_segment_] on the fragment of a contig
    called [a_segment_b]: the piece read for the offset is [b], and the
    relocator raises an [IndexError]. *)
Lemma relocate_fragment_of_marked_parent_fails :
  split_ws ("a_segment_b_segment_start_100_stop_200" +:+ tab +:+ "5000"
            +:+ tab +:+ "10" +:+ tab +:+ "50" +:+ tab +:+ "+" +:+ newline)
  = [fragment_name "a_segment_b" (100, 200); "5000"; "10"; "50"; "+"]
  /\ relocate_line ("a_segment_b_segment_start_100_stop_200" +:+ tab +:+ "5000"
                    +:+ tab +:+ "10" +:+ tab +:+ "50" +:+ tab +:+ "+" +:+ newline)
     = Raise IndexError.
Proof. split; vm_compute; reflexivity. Qed.

(** ** A fragment is never passed through *)

(** A first piece that is followed by another is shorter than the string. *)
Lemma split_go_more (sep s : string) (k : nat) (cur p q : string)
    (rest : list string) :
  split_go sep k cur s = p :: q :: rest ->
  (String.length p < String.length cur + String.length s)%nat.
Proof.
  revert k cur. induction s as [|c s IH]; intros k cur H; [done|].
  destruct k as [|k].
  - rewrite split_go_cons in H. destruct (String.prefix sep (String c s)).
    + injection H as -> _. simpl. lia.
    + apply IH in H. rewrite string_app_length in H. simpl in *. lia.
  - simpl in H. apply IH in H. simpl. lia.
Qed.

Lemma relocate_line_rewrites (line name : string) (rest : list string) :
  split_ws line = name :: rest ->
  contains "segment" name = true ->
  relocate_line line <> Ok line.
Proof.
  intros Hsplit Hseg Hout.
  destruct (relocate_line_fragment_inv _ _ _ _ Hsplit Hseg Hout)
    as (new_name & tail & others & f1 & f2 & f3 & rest' & start & stop
        & -> & Hpieces & Hline).
  pose proof (split_ws_tokens line) as Htok. rewrite Hsplit in Htok.
  apply Forall_cons in Htok as [[Hname Hname_chars] Htok].
  apply Forall_cons in Htok as [Hf1 Htok].
  apply Forall_cons in Htok as [_ Htok].
  apply Forall_cons in Htok as [_ Htok].
  assert (Hint : forall z, py_str z <> ""
                 /\ Forall (fun c => is_space c = false) (chars (py_str z)))
    by (intros z; split; [apply py_str_nonempty | apply py_str_no_space]).
  destruct (decide (new_name = "")) as [->|Hne].
  - (* the written line begins with a tab: one field fewer *)
    assert (Hread : length (split_ws line) = (3 + length rest')%nat).
    { rewrite Hline.
      change ("" +:+ tab +:+ ?x) with (String (ascii_of_nat 9) x).
      rewrite split_ws_space by done.
      destruct rest' as [|r rs].
      - assert (E : f1 +:+ tab +:+ py_str start +:+ tab +:+ py_str stop +:+ tab
                      +:+ py_join tab [] +:+ newline
                    = py_join tab [f1; py_str start; py_str stop]
                        +:+ String (ascii_of_nat 9) newline).
        { unfold py_join. simpl String.concat. by rewrite !string_app_assoc. }
        rewrite E, split_ws_joined; [done| |done|by repeat constructor].
        repeat first [exact Htok | constructor; [first [exact Hf1 | apply Hint]|]].
      - assert (E : f1 +:+ tab +:+ py_str start +:+ tab +:+ py_str stop +:+ tab
                      +:+ py_join tab (r :: rs) +:+ newline
                    = py_join tab (f1 :: py_str start :: py_str stop :: r :: rs)
                        +:+ String (ascii_of_nat 10) "").
        { unfold py_join. simpl String.concat. by rewrite !string_app_assoc. }
        rewrite E, split_ws_joined; [done| |done|constructor].
        repeat first [exact Htok | constructor; [first [exact Hf1 | apply Hint]|]]. }
    rewrite Hsplit in Hread. simpl in Hread. lia.
  - (* the new name would be the old one, which has a second piece *)
    assert (Hread : split_ws line
                    = new_name :: f1 :: py_str start :: py_str stop :: rest').
    { rewrite Hline at 1. apply split_ws_written_line.
      constructor.
      { split; [done|]. apply Forall_forall. intros c Hc.
        rewrite Forall_forall in Hname_chars. apply Hname_chars.
        eapply piece_chars; [|exact Hc]. rewrite Hpieces. by left. }
      repeat first [exact Htok | constructor; [first [exact Hf1 | apply Hint]|]]. }
    rewrite Hsplit in Hread. injection Hread as -> _ _.
    unfold py_split in Hpieces. apply split_go_more in Hpieces. simpl in Hpieces. lia.
Qed.

(** What the test [segment in parsed[0]] decides: a record whose subject
    identifier does not hold the text [segment] is written unchanged.  Every
    other record is treated as a fragment and is never written unchanged: it
    is rewritten or the relocator raises.  It raises an [IndexError] when
    the identifier holds no [_segment_], and a [ValueError] when the
    identifier is [<parentId>_segment_start_<s>_stop_<e>] with this
    [_segment_] the only one of the identifier, no underscore in [<s>] and
    [<e>], and [<s>] not an integer. *)
Theorem relocate_non_fragment_records
    (line name : string) (rest : list string) :
  split_ws line = name :: rest ->
  (contains "segment" name = false -> relocate_line line = Ok line)
  /\ (contains "segment" name = true -> relocate_line line <> Ok line)
  /\ (contains "segment" name = true ->
      contains "_segment_" name = false ->
      relocate_line line = Raise IndexError)
  /\ (forall parent start stop,
        name = parent +:+ "_segment_start_" +:+ start +:+ "_stop_" +:+ stop ->
        contains "_segment_" (parent +:+ "_segment") = false ->
        contains "_segment_" ("start_" +:+ start +:+ "_stop_" +:+ stop) = false ->
        "_"%char ∉ chars start ->
        "_"%char ∉ chars stop ->
        py_int start = Raise ValueError ->
        relocate_line line = Raise ValueError).
Proof.
  intros Hsplit. split; [|split; [|split]].
  - intros Hno. by eapply relocate_line_other.
  - intros Hseg. by eapply relocate_line_rewrites.
  - intros Hseg Hno. by eapply relocate_line_no_marker.
  - intros parent start stop -> Hparent Htail Hstart Hstop Hint.
    eapply relocate_line_bad_offset; [exact Hsplit| | | |exact Hint].
    + apply fragment_name_contains_segment.
    + by apply fragment_name_pieces.
    + by apply fragment_start_piece.
Qed.

Lemma relocate_non_fragment_records_witness :
  relocate_line ("HG03098_contig_7" +:+ tab +:+ "5000" +:+ tab +:+ "10" +:+ tab
                 +:+ "50" +:+ tab +:+ "+" +:+ newline)
  = Ok ("HG03098_contig_7" +:+ tab +:+ "5000" +:+ tab +:+ "10" +:+ tab
        +:+ "50" +:+ tab +:+ "+" +:+ newline).
Proof.
  refine (proj1 (relocate_non_fragment_records _ "HG03098_contig_7"
                   ["5000"; "10"; "50"; "+"] _) _).
  - vm_compute. reflexivity.
  - vm_compute. reflexivity.
Defined.

(** C7: a record that is not of a fragment is not always passed through.
    The subject identifier [contig_segmental] does not have the fragment
    form [<parentId>_segment_start_<s>_stop_<e>] and holds no [_segment_],
    yet the relocator does not write the record unchanged: the test for a
    fragment is [segment in parsed[0]], the name is then split at
    [_segment_], and reading the second piece raises an [IndexError]. *)
Lemma relocate_unmarked_segment_name_fails :
  split_ws ("contig_segmental" +:+ tab +:+ "5000" +:+ tab +:+ "10" +:+ tab
            +:+ "50" +:+ tab +:+ "+" +:+ newline)
  = ["contig_segmental"; "5000"; "10"; "50"; "+"]
  /\ contains "_segment_" "contig_segmental" = false
  /\ relocate_line ("contig_segmental" +:+ tab +:+ "5000" +:+ tab +:+ "10"
                    +:+ tab +:+ "50" +:+ tab +:+ "+" +:+ newline)
     = Raise IndexError
  /\ raised (relocate_line ("contig_segmental" +:+ tab +:+ "5000" +:+ tab
                            +:+ "10" +:+ tab +:+ "50" +:+ tab +:+ "+"
                            +:+ newline)) = true.
Proof. repeat split; vm_compute; reflexivity. Qed.

(** C10: when the relocator treats a record as a fragment and writes it,
    field 1 and every field from index 4 on of the written record are the
    fields the record had: only the subject identifier (field 0) and the
    start and stop (fields 2 and 3) are written anew.  This holds of the
    tab-separated fields of the written line and, when the identifier does
    not begin with [_segment_] (so that the new identifier is not empty),
    of the written line read back with [line.split()]. *)
Theorem relocated_fields_carried_over
    (line name out : string) (rest : list string) :
  split_ws line = name :: rest ->
  contains "segment" name = true ->
  relocate_line line = Ok out ->
  fields_of_line out !! 1%nat = split_ws line !! 1%nat
  /\ (forall i : nat,
        (4 <= i)%nat -> (i < length (split_ws line))%nat ->
        fields_of_line out !! i = split_ws line !! i)
  /\ (String.prefix "_segment_" name = false ->
      split_ws out !! 1%nat = split_ws line !! 1%nat
      /\ drop 4 (split_ws out) = drop 4 (split_ws line)).
Proof.
  intros Hsplit Hseg Hout.
  destruct (relocate_line_fragment_inv _ _ _ _ Hsplit Hseg Hout)
    as (new_name & tail & others & f1 & f2 & f3 & rest' & start & stop
        & -> & Hpieces & ->).
  pose proof (split_ws_tokens line) as Htok. rewrite Hsplit in Htok.
  assert (Hpiece : new_name ∈ py_split "_segment_" name)
    by (rewrite Hpieces; by left).
  assert (Hnotab : forall tok, tok ∈ name :: f1 :: f2 :: f3 :: rest' ->
                               ascii_of_nat 9 ∉ chars tok).
  { intros tok Hin. rewrite <- Hsplit in Hin.
    by apply (split_ws_no_space line tok). }
  split; [|split].
  - rewrite fields_of_written_line, Hsplit; [done|].
    constructor; [eapply piece_no_tab; [|exact Hpiece]; apply Hnotab; by left|].
    constructor; [apply Hnotab; right; by left|].
    constructor; [apply py_str_no_tab|].
    constructor; [apply py_str_no_tab|].
    apply Forall_forall. intros tok Hin. apply Hnotab. by do 4 right.
  - rewrite fields_of_written_line, Hsplit.
    + intros i Hi Hlen.
      do 4 (destruct i as [|i]; [lia|]). simpl in *.
      destruct rest' as [|r0 rs]; [simpl in Hlen; lia|done].
    + constructor; [eapply piece_no_tab; [|exact Hpiece]; apply Hnotab; by left|].
      constructor; [apply Hnotab; right; by left|].
      constructor; [apply py_str_no_tab|].
      constructor; [apply py_str_no_tab|].
      apply Forall_forall. intros tok Hin. apply Hnotab. by do 4 right.
  - intros Hprefix.
    apply Forall_cons in Htok as [[Hname Hname_chars] Htok].
    apply Forall_cons in Htok as [Hf1 Htok].
    apply Forall_cons in Htok as [_ Htok].
    apply Forall_cons in Htok as [_ Htok].
    rewrite split_ws_written_line, Hsplit; [done|].
    constructor.
    { split; [by eapply first_piece_nonempty|].
      apply Forall_forall. intros c Hc.
      rewrite Forall_forall in Hname_chars. apply Hname_chars.
      by eapply piece_chars. }
    constructor; [done|].
    constructor; [split; [apply py_str_nonempty | apply py_str_no_space]|].
    constructor; [split; [apply py_str_nonempty | apply py_str_no_space]|].
    done.
Qed.

Lemma relocated_fields_carried_over_witness :
  fields_of_line ("X" +:+ tab +:+ "5000" +:+ tab +:+ "110" +:+ tab +:+ "150"
                  +:+ tab +:+ "+" +:+ tab +:+ "chr21" +:+ newline) !! 5%nat
  = split_ws ("X_segment_start_100_stop_200" +:+ tab +:+ "5000" +:+ tab
              +:+ "10" +:+ tab +:+ "50" +:+ tab +:+ "+" +:+ tab +:+ "chr21"
              +:+ newline) !! 5%nat.
Proof.
  refine (proj1 (proj2 (relocated_fields_carried_over
                          _ "X_segment_start_100_stop_200" _
                          ["5000"; "10"; "50"; "+"; "chr21"] _ _ _)) 5%nat _ _).
  - vm_compute. reflexivity.
  - vm_compute. reflexivity.
  - vm_compute. reflexivity.
  - lia.
  - vm_compute. lia.
Defined.

(** ** Zero-length intervals *)

Lemma covered_positions_zero_length (before after : list coord) (p : Z) :
  covered_positions (before ++ (p, p) :: after) = covered_positions (before ++ after).
Proof.
  apply set_eq. intros x. rewrite !elem_of_covered_positions.
  rewrite !Exists_app, Exists_cons. unfold inside at 2. simpl. intuition lia.
Qed.

Section zero_length.

Lemma sweep_step_agree (st st' : sweep) (e : point) :
  sweep_agree st st' -> sweep_agree (sweep_step st e) (sweep_step st' e).
Proof.
  intros (Ho & Hs & Hc). unfold sweep_agree, sweep_step.
  rewrite <- Ho, <- Hs, <- Hc.
  destruct (snd e); simpl; zcases; simpl; repeat split; try lia; try done.
Qed.

Lemma sweep_fold_agree (pts : list point) (st st' : sweep) :
  sweep_agree st st' ->
  sweep_agree (fold_left sweep_step pts st) (fold_left sweep_step pts st').
Proof.
  revert st st'. induction pts as [|e pts IH]; intros st st' H; [done|].
  simpl. by apply IH, sweep_step_agree.
Qed.

Lemma sweep_fold_balance (pts : list point) (st : sweep) :
  open_points (fold_left sweep_step pts st) = open_points st + balance pts.
Proof.
  revert st. induction pts as [|e pts IH]; intros st; simpl; [lia|].
  rewrite IH, sweep_step_balance. simpl. lia.
Qed.

(** The two points of a zero-length interval leave the state as it was,
    unless exactly one interval is open. *)
Lemma zero_pair_agree (st : sweep) (p : Z) :
  open_points st <> 1 ->
  sweep_agree (fold_left sweep_step [(p, false); (p, true)] st) st.
Proof.
  intros Hn. unfold sweep_agree, sweep_step. simpl.
  zcases; simpl; repeat split; try lia; try done.
Qed.

Lemma filter_none {A} (f : A -> bool) (l : list A) :
  Forall (fun x => f x = false) l ->
  List.filter f l = [] /\ List.filter (fun x => negb (f x)) l = l.
Proof.
  induction 1 as [|x l Hx _ [IH1 IH2]]; [done|].
  simpl. rewrite Hx. simpl. by rewrite IH1, IH2.
Qed.

Lemma sorted_split_upto (p : Z) (pts : list point) :
  StronglySorted point_le pts ->
  pts = List.filter (upto_stop p) pts
        ++ List.filter (fun e => negb (upto_stop p e)) pts.
Proof.
  induction 1 as [|e pts Hs IH Hall]; [done|]. simpl.
  destruct (upto_stop p e) eqn:He; simpl.
  - by rewrite <- IH.
  - assert (Hnone : Forall (fun e' => upto_stop p e' = false) pts).
    { rewrite Forall_forall in *. intros e' He'. specialize (Hall e' He').
      destruct (upto_stop p e') eqn:E; [|done].
      assert (point_le e (p, false)) by (etrans; [exact Hall | exact E]).
      unfold upto_stop, point_le in *. congruence. }
    destruct (filter_none _ _ Hnone) as [-> ->]. done.
Qed.

Lemma with_zero_pair_sorted (p : Z) (pts : list point) :
  StronglySorted point_le pts ->
  StronglySorted point_le
    (List.filter (upto_stop p) pts ++ [(p, false); (p, true)]
       ++ List.filter (fun e => negb (upto_stop p e)) pts).
Proof.
  intros Hs.
  assert (Hlo : forall e, e ∈ List.filter (upto_stop p) pts -> point_le e (p, false)).
  { intros e He. apply list_elem_of_In, List.filter_In in He as [_ He]. done. }
  assert (Hhi : forall e, e ∈ List.filter (fun e => negb (upto_stop p e)) pts ->
                          point_le (p, true) e).
  { intros [q b] He. apply list_elem_of_In, List.filter_In in He as [_ He].
    apply negb_true_iff in He. unfold upto_stop in He.
    assert (Hle : ~ point_le (q, b) (p, false))
      by (unfold point_le; congruence).
    rewrite point_le_iff in Hle. simpl in Hle.
    apply point_le_iff. simpl.
    assert (~ q < p) by (intros ?; apply Hle; by left).
    destruct b.
    - destruct (decide (p = q)); [by right | left; lia].
    - left. assert (q <> p) by (intros ->; apply Hle; by right). lia. }
  assert (Hpair : point_le (p, false) (p, true)).
  { apply point_le_iff. simpl. by right. }
  rewrite (sorted_split_upto p pts Hs) in Hs.
  apply StronglySorted_app in Hs as (_ & Hslo & Hshi).
  apply StronglySorted_app. split; [|split; [done|]].
  - intros x1 x2 H1 H2. apply Hlo in H1.
    apply elem_of_cons in H2 as [->|H2]; [done|].
    apply elem_of_cons in H2 as [->|H2]; [by etrans|].
    etrans; [exact H1|]. etrans; [exact Hpair|]. by apply Hhi.
  - constructor.
    + constructor; [done|]. apply Forall_forall. done.
    + constructor; [done|]. apply Forall_forall. intros e He.
      etrans; [exact Hpair|]. by apply Hhi.
Qed.

Lemma sorted_with_zero_length (before after : list coord) (p : Z) :
  let pts := sorted (coverage_points_of_coords (before ++ after)) in
  sorted (coverage_points_of_coords (before ++ (p, p) :: after))
  = List.filter (upto_stop p) pts ++ [(p, false); (p, true)]
      ++ List.filter (fun e => negb (upto_stop p e)) pts.
Proof.
  intros pts. apply (StronglySorted_unique point_le).
  - apply sorted_strongly.
  - apply with_zero_pair_sorted, sorted_strongly.
  - rewrite sorted_perm.
    trans ((p, true) :: (p, false) :: coverage_points_of_coords (before ++ after)).
    + unfold coverage_points_of_coords. rewrite !flat_map_app. simpl.
      by rewrite <- !Permutation_middle.
    + change ([(p, false); (p, true)] ++ ?l) with ((p, false) :: (p, true) :: l).
      rewrite <- !Permutation_middle.
      rewrite <- (sorted_split_upto p pts) by apply sorted_strongly.
      unfold pts. rewrite sorted_perm. apply perm_swap.
Qed.

End zero_length.

Section zero_length_regions.

Lemma filter_perm {A} (f : A -> bool) (a b : list A) :
  a ≡ₚ b -> List.filter f a ≡ₚ List.filter f b.
Proof.
  induction 1 as [|x a b _ IH|x y a|a b c _ IH1 _ IH2]; simpl.
  - done.
  - destruct (f x); [by constructor | done].
  - destruct (f x), (f y); try done; by constructor.
  - by etrans.
Qed.

Lemma balance_upto_stop (cs : list coord) (p : Z) :
  Forall (fun c => ~ (fst c < p < snd c)) cs ->
  balance (List.filter (upto_stop p) (coverage_points_of_coords cs)) <= 0.
Proof.
  induction 1 as [|c cs Hc _ IH]; [done|].
  change (coverage_points_of_coords (c :: cs))
    with ([(fst c, true); (snd c, false)] ++ coverage_points_of_coords cs).
  rewrite List.filter_app, balance_app.
  assert (Hpair : balance (List.filter (upto_stop p) [(fst c, true); (snd c, false)]) <= 0).
  2:{ apply Z.add_nonpos_nonpos; assumption. }
  unfold upto_stop, point_leb, bool_leb. simpl.
  zcases; simpl; lia.
Qed.

(** The regions do not change when no interval holds [p] strictly
    inside. *)
Lemma merged_regions_zero_length (before after : list coord) (p : Z) :
  Forall (fun c => ~ (fst c < p < snd c)) (before ++ after) ->
  merged_regions (before ++ (p, p) :: after) = merged_regions (before ++ after).
Proof.
  intros Hout. unfold merged_regions, contig_coverage_coords, sweep_points.
  rewrite sorted_with_zero_length. cbv zeta.
  set (pts := sorted (coverage_points_of_coords (before ++ after))).
  rewrite (sorted_split_upto p pts) at 3 by apply sorted_strongly.
  rewrite !fold_left_app.
  set (st := fold_left sweep_step (List.filter (upto_stop p) pts) sweep_init).
  assert (Hopen : open_points st <> 1).
  { unfold st. rewrite sweep_fold_balance. simpl.
    rewrite (balance_perm _ (List.filter (upto_stop p)
                               (coverage_points_of_coords (before ++ after)))).
    - pose proof (balance_upto_stop _ p Hout). lia.
    - apply filter_perm, sorted_perm. }
  apply (sweep_fold_agree (List.filter (fun e => negb (upto_stop p e)) pts)),
    zero_pair_agree, Hopen.
Qed.

End zero_length_regions.

(** C9, as the code has it: adding the zero-length interval [(p, p)] to the
    input of a sequence (whose intervals have [start <= stop]) adds no
    coverage: the set of covered positions and the covered length stay the
    same.  The region list itself stays the same when no input interval
    holds [p] strictly inside ([start < p < stop]); inside an interval the
    added points can cut its region in two at [p]. *)
Theorem zero_length_interval_adds_no_coverage
    (mapping_coords : gmap string (list coord)) (seq_id : string)
    (before after : list coord) (p : Z) :
  dd_get mapping_coords seq_id = before ++ after ->
  (Forall (fun c => fst c <= snd c) (before ++ after) ->
     covered_positions
       (dd_get (coverage_coords_pipeline
                  (<[seq_id := before ++ (p, p) :: after]> mapping_coords)) seq_id)
     = covered_positions (dd_get (coverage_coords_pipeline mapping_coords) seq_id)
     /\ covered_length_of
          (coverage_lengths_pipeline
             (<[seq_id := before ++ (p, p) :: after]> mapping_coords)) seq_id
        = covered_length_of (coverage_lengths_pipeline mapping_coords) seq_id)
  /\ (Forall (fun c => ~ (fst c < p < snd c)) (before ++ after) ->
      dd_get (coverage_coords_pipeline
                (<[seq_id := before ++ (p, p) :: after]> mapping_coords)) seq_id
      = dd_get (coverage_coords_pipeline mapping_coords) seq_id).
Proof.
  intros Hget.
  assert (Hadded : dd_get (<[seq_id := before ++ (p, p) :: after]> mapping_coords)
                          seq_id = before ++ (p, p) :: after).
  { unfold dd_get. by rewrite lookup_insert_eq. }
  rewrite !covered_length_pipeline, !dd_get_pipeline, Hadded, Hget.
  split.
  - intros Hwf.
    assert (Hwf' : Forall (fun c : coord => fst c <= snd c)
                          (before ++ (p, p) :: after)).
    { apply Forall_app in Hwf as [H1 H2]. apply Forall_app. split; [done|].
      constructor; [simpl; lia | done]. }
    rewrite !covered_positions_merged, !merged_length_measure by done.
    unfold union_measure. by rewrite covered_positions_zero_length.
  - apply merged_regions_zero_length.
Qed.

Lemma zero_length_interval_adds_no_coverage_witness :
  dd_get (coverage_coords_pipeline
            (<["seq" := [(0, 10); (20, 30)] ++ (10, 10) :: [(15, 18)]]>
               {[ "seq" := [(0, 10); (20, 30); (15, 18)] ]})) "seq"
  = dd_get (coverage_coords_pipeline {[ "seq" := [(0, 10); (20, 30); (15, 18)] ]})
           "seq".
Proof.
  refine (proj2 (zero_length_interval_adds_no_coverage
                   {[ "seq" := [(0, 10); (20, 30); (15, 18)] ]} "seq"
                   [(0, 10); (20, 30)] [(15, 18)] 10 _) _).
  - vm_compute. reflexivity.
  - simpl app.
    repeat first [apply List.Forall_nil | apply List.Forall_cons; [simpl; lia|]].
Defined.

(** C9 as stated fails: with the interval (0,10) the merger returns the one
    region (0,10); with the zero-length interval (5,5) added it returns the
    two regions (0,5) and (5,10). *)
Lemma zero_length_interval_splits_region :
  dd_get (coverage_coords_pipeline {[ "seq" := [(0, 10)] ]}) "seq" = [(0, 10)]
  /\ dd_get (coverage_coords_pipeline
              (<["seq" := [(0, 10); (5, 5)]]> {[ "seq" := [(0, 10)] ]})) "seq"
     = [(0, 5); (5, 10)].
Proof. split; vm_compute; reflexivity. Qed.

(** * Further properties of the routines *)

(** ** The routines that read files, on small inputs *)

Example coverage_points_example :
  get_mapping_coverage_points 20
    [ "ctg1" +:+ tab +:+ "900" +:+ tab +:+ "10" +:+ tab +:+ "50" +:+ tab +:+ "+"
        +:+ tab +:+ "chr21" +:+ tab +:+ "5000" +:+ tab +:+ "100" +:+ tab +:+ "140"
        +:+ tab +:+ "40" +:+ tab +:+ "40" +:+ tab +:+ "60" +:+ newline;
      "ctg1" +:+ tab +:+ "900" +:+ tab +:+ "30" +:+ tab +:+ "70" +:+ tab +:+ "+"
        +:+ tab +:+ "chr21" +:+ tab +:+ "5000" +:+ tab +:+ "100" +:+ tab +:+ "140"
        +:+ tab +:+ "40" +:+ tab +:+ "40" +:+ tab +:+ "3" +:+ newline ]
  = Ok {[ "ctg1" := [(10, true); (50, false)] ]}.
Proof. vm_compute. reflexivity. Qed.

Example mapping_coords_example :
  get_mapping_coords_from_mapping_files
    [ [ "cigar: ctg1 10 50 + chr21 100 140 + 40";
        "cigar: ctg1 90 60 - chr21 100 130 + 30";
        "cigar: ctg2 5 9 + ctg1 0 4 + 4" ] ] {[ "chr21" ]}
  = Ok (MkCoords {[ "ctg1" := [(10, 50); (60, 90)] ]} {[ "ctg2" := [(5, 9)] ]}).
Proof. vm_compute. reflexivity. Qed.

Example exclude_supplementary_example :
  exclude_supplementary_mappings
    [ "@SQ" +:+ tab +:+ "SN:chr21"; "r1" +:+ tab +:+ "0" +:+ tab +:+ "chr21";
      "r2" +:+ tab +:+ "2048" +:+ tab +:+ "chr21";
      "r3" +:+ tab +:+ "2064" +:+ tab +:+ "chr21";
      "r4" +:+ tab +:+ "16" +:+ tab +:+ "chr21" ]
  = Ok [ "@SQ" +:+ tab +:+ "SN:chr21"; "r1" +:+ tab +:+ "0" +:+ tab +:+ "chr21";
         "r4" +:+ tab +:+ "16" +:+ tab +:+ "chr21" ].
Proof. vm_compute. reflexivity. Qed.

Example poor_mapping_sequences_example :
  get_poor_mapping_sequences [("ctg1", "ACGTACGTAC")]
    {[ "ctg1" := [(0, 4); (6, 10); (0, 4)] ]}
  = [ ">ctg1_segment_start_0_stop_4" +:+ newline; "ACGT" +:+ newline;
      ">ctg1_segment_start_6_stop_10" +:+ newline; "GTAC" +:+ newline ].
Proof. vm_compute. reflexivity. Qed.

Example py_slice_examples :
  py_slice "ACGTACGTAC" 2 5 = "GTA" /\ py_slice "ACGTACGTAC" (-3) 20 = "TAC"
  /\ py_slice "ACGTACGTAC" 7 3 = "" /\ py_slice "ACGTACGTAC" (-20) 2 = "AC".
Proof. repeat split; reflexivity. Qed.

Example py_int_field_examples :
  py_int_field (" 60" +:+ newline) = Ok 60 /\ py_int_field "6 0" = Raise ValueError.
Proof. split; reflexivity. Qed.

(** [int] strips a tab, a newline and a no-break space, and raises on the
    separator 0x1C, at which [str.split()] splits. *)
Example py_int_field_blanks :
  py_int_field (tab +:+ "60" +:+ String (ascii_of_nat 160) newline) = Ok 60
  /\ py_int_field (String (ascii_of_nat 28) "5") = Raise ValueError
  /\ split_ws (String (ascii_of_nat 28) "5") = ["5"].
Proof. repeat split; reflexivity. Qed.

(** ** More on the regions of the merger *)

Lemma contig_coverage_coords_canonical (pts : list point) :
  canonical (contig_coverage_coords pts).
Proof. apply contig_coverage_coords_inv. Qed.

Lemma coverage_coords_no_empty_entry
    (points : gmap string (list point)) (k : string) (rs : list coord) :
  get_coverage_coords_from_coverage_points points !! k = Some rs -> rs <> [].
Proof.
  unfold get_coverage_coords_from_coverage_points.
  rewrite lookup_omap_Some. intros (pts & Hentry & _) ->.
  by destruct (contig_coverage_coords pts).
Qed.

(** X1: every region the merger returns, for any coverage points (also
    those of intervals given backwards or of length zero), has
    [start < stop]; and a contig never gets an empty list of regions: it
    has regions or no entry. *)
Theorem merger_regions_not_empty
    (mapping_coverage_points : gmap string (list point)) (contig_id : string) :
  (forall r, r ∈ dd_get (get_mapping_coverage_coordinates mapping_coverage_points)
                        contig_id -> fst r < snd r)
  /\ get_mapping_coverage_coordinates mapping_coverage_points !! contig_id
     <> Some [].
Proof.
  split.
  - intros r Hr. unfold get_mapping_coverage_coordinates in Hr.
    rewrite dd_get_coverage_coords in Hr.
    destruct (contig_coverage_coords_canonical (dd_get mapping_coverage_points contig_id))
      as [Hne _].
    rewrite Forall_forall in Hne. by apply Hne.
  - intros H. by apply coverage_coords_no_empty_entry in H.
Qed.

(** X2: for input intervals with [start <= stop], the regions of the merger
    hold exactly the positions that lie in at least one input interval. *)
Theorem merger_covers_the_input_positions
    (mapping_coords : gmap string (list coord)) (seq_id : string) :
  Forall (fun c => fst c <= snd c) (dd_get mapping_coords seq_id) ->
  covered_positions (dd_get (coverage_coords_pipeline mapping_coords) seq_id)
  = covered_positions (dd_get mapping_coords seq_id)
  /\ forall x : Z,
       Exists (inside x) (dd_get (coverage_coords_pipeline mapping_coords) seq_id)
       <-> Exists (inside x) (dd_get mapping_coords seq_id).
Proof.
  intros Hwf. rewrite dd_get_pipeline. split.
  - by apply covered_positions_merged.
  - intros x. by apply merged_regions_inside.
Qed.

Lemma merger_covers_the_input_positions_witness :
  covered_positions
    (dd_get (coverage_coords_pipeline {[ "seq" := [(3, 8); (5, 12); (12, 14)] ]})
            "seq")
  = covered_positions (dd_get {[ "seq" := [(3, 8); (5, 12); (12, 14)] ]} "seq").
Proof.
  refine (proj1 (merger_covers_the_input_positions
                   {[ "seq" := [(3, 8); (5, 12); (12, 14)] ]} "seq" _)).
  vm_compute.
  repeat first [apply List.Forall_nil | apply List.Forall_cons; [discriminate|]].
Defined.

Lemma sorted_perm_eq (a b : list point) : a ≡ₚ b -> sorted a = sorted b.
Proof.
  intros H. apply (StronglySorted_unique point_le); try apply sorted_strongly.
  by rewrite !sorted_perm.
Qed.

Lemma coverage_points_perm (a b : list coord) :
  a ≡ₚ b -> coverage_points_of_coords a ≡ₚ coverage_points_of_coords b.
Proof. intros H. unfold coverage_points_of_coords. by apply Permutation_flat_map. Qed.

(** X3: the regions do not depend on the order of the input: two lists of
    coverage points, or of intervals, that are permutations of each other
    give the same regions. *)
Theorem merger_ignores_input_order :
  (forall (points points' : gmap string (list point)) (contig_id : string),
     dd_get points contig_id ≡ₚ dd_get points' contig_id ->
     dd_get (get_mapping_coverage_coordinates points) contig_id
     = dd_get (get_mapping_coverage_coordinates points') contig_id)
  /\ (forall (mapping_coords mapping_coords' : gmap string (list coord))
             (seq_id : string),
        dd_get mapping_coords seq_id ≡ₚ dd_get mapping_coords' seq_id ->
        dd_get (coverage_coords_pipeline mapping_coords) seq_id
        = dd_get (coverage_coords_pipeline mapping_coords') seq_id).
Proof.
  split.
  - intros points points' k Hperm. unfold get_mapping_coverage_coordinates.
    rewrite !dd_get_coverage_coords. unfold contig_coverage_coords.
    by rewrite (sorted_perm_eq _ _ Hperm).
  - intros m m' k Hperm. rewrite !dd_get_pipeline.
    unfold merged_regions, contig_coverage_coords.
    by rewrite (sorted_perm_eq _ _ (coverage_points_perm _ _ Hperm)).
Qed.

Lemma merger_ignores_input_order_witness :
  dd_get (coverage_coords_pipeline {[ "seq" := [(20, 30); (3, 8); (5, 12)] ]}) "seq"
  = dd_get (coverage_coords_pipeline {[ "seq" := [(5, 12); (20, 30); (3, 8)] ]}) "seq".
Proof.
  apply (proj2 merger_ignores_input_order). vm_compute.
  apply (Permutation_trans (l' := [(20, 30); (5, 12); (3, 8)])).
  - apply perm_skip, perm_swap.
  - apply perm_swap.
Defined.

(** ** Merging what is merged *)

Lemma canonical_points_sorted (rs : list coord) :
  canonical rs -> StronglySorted point_le (coverage_points_of_coords rs).
Proof.
  intros [Hne Hord]. induction Hord as [|r rs Hord IH Hall]; [constructor|].
  apply Forall_cons in Hne as [Hr Hne]. specialize (IH Hne).
  assert (Hlater : forall e, e ∈ coverage_points_of_coords rs ->
                             point_le (snd r, false) e).
  { intros e He. unfold coverage_points_of_coords in He.
    apply list_elem_of_In, in_flat_map in He as (r' & Hr' & He).
    apply list_elem_of_In in Hr'.
    rewrite Forall_forall in Hall, Hne.
    specialize (Hall r' Hr'). specialize (Hne r' Hr'). unfold before in Hall.
    apply point_le_iff.
    destruct He as [<-|[<-|[]]]; simpl.
    - destruct (decide (snd r = fst r')); [by right | left; lia].
    - left. lia. }
  change (coverage_points_of_coords (r :: rs))
    with ((fst r, true) :: (snd r, false) :: coverage_points_of_coords rs).
  constructor; [constructor; [done|]|].
  - apply Forall_forall. exact Hlater.
  - constructor.
    + apply point_le_iff. simpl. left. lia.
    + apply Forall_forall. intros e He. etrans; [|by apply Hlater].
      apply point_le_iff. simpl. left. lia.
Qed.

Lemma sweep_canonical_points (rs : list coord) (st : sweep) :
  open_points st = 0 ->
  let st' := fold_left sweep_step (coverage_points_of_coords rs) st in
  open_points st' = 0 /\ saved st' = saved st ++ rs.
Proof.
  revert st. induction rs as [|r rs IH]; intros st Hopen; simpl.
  - by rewrite app_nil_r.
  - set (st2 := sweep_step (sweep_step st (fst r, true)) (snd r, false)).
    assert (H2 : open_points st2 = 0 /\ saved st2 = saved st ++ [r]).
    { unfold st2, sweep_step. simpl. rewrite Hopen. simpl. by destruct r. }
    destruct H2 as [Ho Hs]. destruct (IH st2 Ho) as [Ho' Hs'].
    split; [done|]. rewrite Hs', Hs, <- app_assoc. done.
Qed.

Lemma merged_regions_canonical (rs : list coord) :
  canonical rs -> merged_regions rs = rs.
Proof.
  intros Hc. unfold merged_regions, contig_coverage_coords, sweep_points.
  assert (Hsorted : sorted (coverage_points_of_coords rs)
                    = coverage_points_of_coords rs).
  { apply (StronglySorted_unique point_le).
    - apply sorted_strongly.
    - by apply canonical_points_sorted.
    - apply sorted_perm. }
  rewrite Hsorted.
  by destruct (sweep_canonical_points rs sweep_init eq_refl) as [_ ->].
Qed.

(** X4: the merger leaves a list of regions as it is when the regions are
    non-empty, in order and do not overlap (they may touch); so merging the
    regions the merger returned, for any input, returns them again. *)
Theorem merger_is_idempotent :
  (forall rs : list coord, canonical rs -> merged_regions rs = rs)
  /\ (forall (mapping_coords : gmap string (list coord)) (seq_id : string),
        merged_regions (dd_get (coverage_coords_pipeline mapping_coords) seq_id)
        = dd_get (coverage_coords_pipeline mapping_coords) seq_id)
  /\ (forall mapping_coords : gmap string (list coord),
        coverage_coords_pipeline (coverage_coords_pipeline mapping_coords)
        = coverage_coords_pipeline mapping_coords).
Proof.
  split; [exact merged_regions_canonical|].
  assert (Hidem : forall (m : gmap string (list coord)) k,
            merged_regions (dd_get (coverage_coords_pipeline m) k)
            = dd_get (coverage_coords_pipeline m) k).
  { intros m k. apply merged_regions_canonical.
    rewrite dd_get_pipeline. apply contig_coverage_coords_canonical. }
  split; [exact Hidem|].
  intros m. apply map_eq. intros k.
  pose proof (Hidem m k) as Hk. pose proof (dd_get_pipeline (coverage_coords_pipeline m) k) as Hget.
  rewrite Hk in Hget.
  destruct (coverage_coords_pipeline m !! k) as [rs|] eqn:E1;
    destruct (coverage_coords_pipeline (coverage_coords_pipeline m) !! k) as [rs'|] eqn:E2.
  - unfold dd_get in Hget. rewrite E1, E2 in Hget. simpl in Hget. by subst.
  - exfalso. unfold dd_get in Hget. rewrite E1, E2 in Hget. simpl in Hget.
    unfold coverage_coords_pipeline in E1. apply coverage_coords_no_empty_entry in E1.
    by subst.
  - exfalso. unfold dd_get in Hget. rewrite E1, E2 in Hget. simpl in Hget.
    unfold coverage_coords_pipeline in E2. apply coverage_coords_no_empty_entry in E2.
    by subst.
  - done.
Qed.

(** ** Where the regions begin and end *)

Lemma sweep_endpoints (rest done_pts : list point) (st : sweep) :
  (forall r, r ∈ saved st ->
             (fst r, true) ∈ done_pts /\ (snd r, false) ∈ done_pts) ->
  (1 <= open_points st -> (fst (current_region st), true) ∈ done_pts) ->
  forall r, r ∈ saved (fold_left sweep_step rest st) ->
            (fst r, true) ∈ done_pts ++ rest /\ (snd r, false) ∈ done_pts ++ rest.
Proof.
  revert done_pts st. induction rest as [|e rest IH]; intros done_pts st Hsaved Hopen.
  - simpl. intros r Hr. rewrite app_nil_r. by apply Hsaved.
  - simpl. rewrite cons_middle, app_assoc. apply IH.
    + intros r. unfold sweep_step. destruct e as [p [|]]; simpl.
      * intros Hr. destruct (Hsaved r Hr). rewrite !elem_of_app. by split; left.
      * destruct (Z.eqb_spec (open_points st - 1) 0).
        -- intros Hr. apply elem_of_app in Hr as [Hr|Hr].
           ++ destruct (Hsaved r Hr). rewrite !elem_of_app. by split; left.
           ++ apply list_elem_of_singleton in Hr. subst r.
              destruct (Z.eqb_spec (open_points st) 0); [lia|]. simpl.
              rewrite !elem_of_app. split; [left; apply Hopen; lia|].
              right. by left.
        -- intros Hr. destruct (Hsaved r Hr). rewrite !elem_of_app. by split; left.
    + unfold sweep_step. destruct e as [p [|]]; simpl; intros Hn.
      * destruct (Z.eqb_spec (open_points st + 1) 1); simpl.
        -- rewrite elem_of_app. right. by left.
        -- destruct (Z.eqb_spec (open_points st) 0); [lia|]. simpl.
           rewrite elem_of_app. left. apply Hopen. lia.
      * destruct (Z.eqb_spec (open_points st) 0); [lia|]. simpl.
        rewrite elem_of_app. left. apply Hopen. lia.
Qed.

Lemma contig_coverage_coords_endpoints (pts : list point) (r : coord) :
  r ∈ contig_coverage_coords pts -> (fst r, true) ∈ pts /\ (snd r, false) ∈ pts.
Proof.
  intros Hr. unfold contig_coverage_coords, sweep_points in Hr.
  destruct (sweep_endpoints (sorted pts) [] sweep_init) with (r := r) as [H1 H2].
  - intros r' Hr'. inversion Hr'.
  - simpl. lia.
  - done.
  - simpl in H1, H2. by rewrite sorted_perm in H1, H2.
Qed.

Lemma elem_of_coverage_points (cs : list coord) (p : Z) (b : bool) :
  (p, b) ∈ coverage_points_of_coords cs
  <-> exists c, c ∈ cs /\ p = if b then fst c else snd c.
Proof.
  unfold coverage_points_of_coords. rewrite list_elem_of_In, in_flat_map.
  split.
  - intros (c & Hc & Hin). exists c. rewrite list_elem_of_In. split; [done|].
    destruct Hin as [[= <- <-]|[[= <- <-]|[]]]; done.
  - intros (c & Hc & ->). exists c. rewrite <- list_elem_of_In. split; [done|].
    destruct b; [by left | right; by left].
Qed.

(** X5: the merger invents no coordinate: every region it returns starts at
    the start of one of the input intervals and stops at the stop of one of
    them. *)
Theorem merger_regions_end_at_input_ends
    (mapping_coords : gmap string (list coord)) (seq_id : string) (r : coord) :
  r ∈ dd_get (coverage_coords_pipeline mapping_coords) seq_id ->
  (exists c, c ∈ dd_get mapping_coords seq_id /\ fst r = fst c)
  /\ (exists c, c ∈ dd_get mapping_coords seq_id /\ snd r = snd c).
Proof.
  rewrite dd_get_pipeline. intros Hr.
  apply contig_coverage_coords_endpoints in Hr as [H1 H2].
  apply elem_of_coverage_points in H1, H2. done.
Qed.

Lemma merger_regions_end_at_input_ends_witness :
  (exists c, c ∈ dd_get ({[ "seq" := [(3, 8); (5, 12)] ]} : gmap string (list coord))
                        "seq" /\ fst (3, 12) = fst c)
  /\ (exists c, c ∈ dd_get ({[ "seq" := [(3, 8); (5, 12)] ]} : gmap string (list coord))
                           "seq" /\ snd (3, 12) = snd c).
Proof.
  apply (merger_regions_end_at_input_ends {[ "seq" := [(3, 8); (5, 12)] ]} "seq" (3, 12)).
  vm_compute. left.
Defined.

(** ** Bounds of the covered length *)

Lemma covered_positions_within (L : Z) (cs : list coord) :
  Forall (within L) cs -> covered_positions cs ⊆ positions (0, L).
Proof.
  intros Hall x Hx. apply elem_of_covered_positions, Exists_exists in Hx
    as (c & Hc & Hin).
  rewrite Forall_forall in Hall. destruct (Hall c Hc) as (H0 & H1 & H2).
  apply elem_of_positions. unfold inside in *. simpl. lia.
Qed.

(** X6: when every input interval of a sequence lies within the sequence
    ([0 <= start <= stop <= L]), the covered length reported for it lies
    between 0 and [L]. *)
Theorem covered_length_within_sequence
    (mapping_coords : gmap string (list coord)) (seq_id : string) (L : Z) :
  0 <= L ->
  Forall (within L) (dd_get mapping_coords seq_id) ->
  0 <= covered_length_of (coverage_lengths_pipeline mapping_coords) seq_id <= L.
Proof.
  intros HL Hall. rewrite covered_length_pipeline, merged_length_measure.
  - unfold union_measure. split; [lia|].
    pose proof (subseteq_size _ _ (covered_positions_within L _ Hall)) as Hsize.
    assert (Z.of_nat (size (positions (0, L))) = L)
      by (rewrite size_positions; simpl; lia).
    lia.
  - eapply Forall_impl; [exact Hall|]. intros c (? & ? & ?). done.
Qed.

Lemma covered_length_within_sequence_witness :
  0 <= covered_length_of
         (coverage_lengths_pipeline {[ "seq" := [(3, 8); (5, 12); (20, 25)] ]}) "seq"
    <= 30.
Proof.
  apply covered_length_within_sequence; [lia|].
  vm_compute.
  repeat first [apply List.Forall_nil
               | apply List.Forall_cons; [repeat split; discriminate|]].
Defined.

(** ** When the extraction of gaps raises *)

(** X7: the extraction of poorly mapped regions raises only an
    [IndexError], and exactly when a contig of the length table has an empty
    list of covered regions. *)
Theorem gap_extraction_raises_on_empty_list
    (contig_lengths : gmap string Z)
    (mapping_coverage_coords : gmap string (list coord)) (C M : Z) :
  (forall e,
     get_poor_mapping_coverage_coordinates
       contig_lengths mapping_coverage_coords C M = Raise e ->
     e = IndexError)
  /\ (raised (get_poor_mapping_coverage_coordinates
               contig_lengths mapping_coverage_coords C M) = true
      <-> exists k, is_Some (contig_lengths !! k)
                    /\ mapping_coverage_coords !! k = Some []).
Proof.
  pose proof (get_poor_mapping_coverage_coordinates_spec
                mapping_coverage_coords C M contig_lengths) as Hspec.
  assert (Hraise : forall k L e,
            poor_coords_of_contig mapping_coverage_coords C M k L = Raise e ->
            e = IndexError /\ mapping_coverage_coords !! k = Some []).
  { intros k L e. unfold poor_coords_of_contig.
    destruct (mapping_coverage_coords !! k) as [[|r rs]|]; [| |done].
    - rewrite contig_poor_mapping_coords_nil. by intros [= <-].
    - by rewrite contig_poor_mapping_coords_contract. }
  destruct (get_poor_mapping_coverage_coordinates
              contig_lengths mapping_coverage_coords C M) as [res|e].
  - split; [done|]. split; [done|]. intros (k & [L HL] & Hempty).
    destruct Hspec as [Hspec _]. destruct (Hspec k L HL) as (g & Hg & _).
    unfold poor_coords_of_contig in Hg. rewrite Hempty in Hg.
    by rewrite contig_poor_mapping_coords_nil in Hg.
  - destruct Hspec as (k & L & HL & He). destruct (Hraise k L e He) as [-> Hempty].
    split; [by intros e' [= <-]|]. split; [|done].
    intros _. exists k. split; [by exists L | done].
Qed.

(** X8: on the regions of the merger the extraction never raises, whatever
    the coverage points, the length table, the context and the threshold
    are. *)
Theorem gap_extraction_returns_on_merger_output
    (contig_lengths : gmap string Z)
    (mapping_coverage_points : gmap string (list point)) (C M : Z) :
  exists poor_mapping_coords,
    get_poor_mapping_coverage_coordinates
      contig_lengths (get_mapping_coverage_coordinates mapping_coverage_points)
      C M = Ok poor_mapping_coords.
Proof.
  apply get_poor_returns. intros k rs Hk.
  by apply coverage_coords_no_empty_entry in Hk.
Qed.

(** ** The gaps lie within the sequence *)

Lemma interior_candidates_within (L C : Z) (regions : list coord) (g : coord) :
  0 <= L -> g ∈ interior_candidates L C regions -> 0 <= fst g /\ snd g <= L.
Proof.
  intros HL. induction regions as [|r [|r' rest] IH]; simpl.
  - intros H. inversion H.
  - intros H. inversion H.
  - intros H. apply elem_of_cons in H as [->|H]; [simpl; lia|]. by apply IH.
Qed.

Lemma contract_gaps_within (L C M : Z) (regions : list coord) (g : coord) :
  0 <= L -> 0 <= M -> g ∈ contract_gaps L C M regions -> within L g.
Proof.
  intros HL HM Hg. pose proof (contract_gaps_long_enough _ _ _ _ _ Hg) as Hlong.
  unfold contract_gaps in Hg.
  apply list_elem_of_In, List.filter_In in Hg as [Hg _].
  apply list_elem_of_In in Hg. rewrite !elem_of_app in Hg.
  assert (0 <= fst g /\ snd g <= L); [|unfold within; lia].
  destruct Hg as [Hg|[Hg|Hg]].
  - unfold leading_candidate in Hg. destruct regions as [|r0 rest]; [inversion Hg|].
    destruct (0 <? fst r0); [|inversion Hg].
    apply list_elem_of_singleton in Hg. subst g. simpl. lia.
  - by eapply interior_candidates_within.
  - unfold trailing_candidate in Hg. destruct (last regions) as [r|]; [|inversion Hg].
    destruct (snd r <? L); [|inversion Hg].
    apply list_elem_of_singleton in Hg. subst g. simpl. lia.
Qed.

Lemma poor_coords_of_contig_within
    (mapping_coverage_coords : gmap string (list coord)) (C M : Z)
    (contig_id : string) (L : Z) (gaps : list coord) (g : coord) :
  0 <= M ->
  0 <= L ->
  poor_coords_of_contig mapping_coverage_coords C M contig_id L = Ok gaps ->
  g ∈ gaps ->
  within L g.
Proof.
  intros HM HL Hgaps Hg. unfold poor_coords_of_contig in Hgaps.
  destruct (mapping_coverage_coords !! contig_id) as [[|r rs]|].
  - by rewrite contig_poor_mapping_coords_nil in Hgaps.
  - rewrite contig_poor_mapping_coords_contract in Hgaps by done.
    injection Hgaps as <-.
    exact (contract_gaps_within L C M (r :: rs) g HL HM Hg).
  - injection Hgaps as <-. apply list_elem_of_singleton in Hg. subst g.
    unfold within. simpl. lia.
Qed.

(** X9: with a threshold and sequence lengths that are not negative, every
    region the extraction returns lies within its sequence:
    [0 <= start <= stop <= L], whatever the context and the covered regions
    are. *)
Theorem gaps_lie_within_the_sequence
    (contig_lengths : gmap string Z)
    (mapping_coverage_coords : gmap string (list coord))
    (C M : Z) (res : gmap string (list coord)) (contig_id : string) (L : Z)
    (g : coord) :
  0 <= M ->
  0 <= L ->
  contig_lengths !! contig_id = Some L ->
  get_poor_mapping_coverage_coordinates
    contig_lengths mapping_coverage_coords C M = Ok res ->
  g ∈ dd_get res contig_id ->
  0 <= fst g /\ fst g <= snd g /\ snd g <= L.
Proof.
  intros HM HL Hlen Hres Hg.
  pose proof (get_poor_mapping_coverage_coordinates_spec
                mapping_coverage_coords C M contig_lengths) as Hspec.
  rewrite Hres in Hspec. destruct Hspec as [Hspec _].
  destruct (Hspec contig_id L Hlen) as (gaps & Hgaps & Hlook).
  assert (Hget : dd_get res contig_id = gaps).
  { unfold dd_get. rewrite Hlook. apply dd_get_entry. }
  rewrite Hget in Hg.
  exact (poor_coords_of_contig_within _ _ _ _ _ _ _ HM HL Hgaps Hg).
Qed.

Lemma gaps_lie_within_the_sequence_witness :
  0 <= fst (300, 550) /\ fst (300, 550) <= snd (300, 550) /\ snd (300, 550) <= 1000.
Proof.
  apply (gaps_lie_within_the_sequence
           {[ "contig_1" := 1000 ]} {[ "contig_1" := [(100, 350); (500, 600)] ]}
           50 100 {[ "contig_1" := [(0, 150); (300, 550); (550, 1000)] ]}
           "contig_1" 1000 (300, 550)).
  - lia.
  - lia.
  - vm_compute. reflexivity.
  - vm_compute. reflexivity.
  - vm_compute. right. left.
Defined.

(** ** Covered regions and gaps share out the sequence *)

Lemma total_length_app (a b : list coord) :
  total_length (a ++ b) = total_length a + total_length b.
Proof. induction a as [|c a IH]; simpl; [done|]. rewrite IH. lia. Qed.

Lemma total_length_filter (f : coord -> bool) (l : list coord) :
  Forall (fun g => 0 <= snd g - fst g) l ->
  0 <= total_length (List.filter f l) <= total_length l.
Proof.
  induction 1 as [|g l Hg _ IH]; simpl; [lia|].
  destruct (f g); simpl; lia.
Qed.

Lemma filter_long_enough_all (M : Z) (l : list coord) :
  Forall (fun g => M <= snd g - fst g) l -> List.filter (long_enough M) l = l.
Proof.
  induction 1 as [|g l Hg _ IH]; simpl; [done|].
  unfold long_enough at 1. destruct (Z.leb_spec M (snd g - fst g)); [|lia].
  by rewrite IH.
Qed.

(** Without context the candidates after the first region are what the
    regions leave of the sequence from the start of the first region on. *)
Lemma later_candidates_length (L : Z) (rs : list coord) (r : coord) :
  StronglySorted before (r :: rs) ->
  Forall (within L) (r :: rs) ->
  Forall (fun g => 0 <= snd g - fst g)
         (interior_candidates L 0 (r :: rs) ++ trailing_candidate L 0 (r :: rs))
  /\ total_length (interior_candidates L 0 (r :: rs)
                     ++ trailing_candidate L 0 (r :: rs))
     + total_length (r :: rs) = L - fst r.
Proof.
  revert r. induction rs as [|r' rs IH]; intros r Hord Hin.
  - apply Forall_cons in Hin as [(H0 & H1 & H2) _].
    unfold trailing_candidate. simpl.
    destruct (Z.ltb_spec (snd r) L); simpl.
    + split; [constructor; [simpl; lia | constructor] | lia].
    + split; [constructor | lia].
  - apply StronglySorted_inv in Hord as [Hord Hall].
    apply Forall_cons in Hin as [(H0 & H1 & H2) Hin].
    destruct (IH r' Hord Hin) as [IHnn IHlen].
    apply Forall_cons in Hall as [Hbefore _]. unfold before in Hbefore.
    pose proof Hin as Hin'. apply Forall_cons in Hin' as [(H0' & H1' & H2') _].
    change (interior_candidates L 0 (r :: r' :: rs))
      with ((Z.max (snd r - 0) 0, Z.min (fst r' + 0) L)
              :: interior_candidates L 0 (r' :: rs)).
    change (trailing_candidate L 0 (r :: r' :: rs))
      with (trailing_candidate L 0 (r' :: rs)).
    rewrite <- app_comm_cons. split.
    + constructor; [simpl; lia | done].
    + change (total_length (?g :: ?l)) with ((snd g - fst g) + total_length l).
      change (total_length (r :: r' :: rs))
        with ((snd r - fst r) + total_length (r' :: rs)).
      simpl fst. simpl snd. change (@app (Z * Z)%type) with (@app coord). lia.
Qed.

Lemma candidates_length (L : Z) (rs : list coord) :
  rs <> [] ->
  StronglySorted before rs ->
  Forall (within L) rs ->
  let candidates :=
    leading_candidate L 0 rs ++ interior_candidates L 0 rs
      ++ trailing_candidate L 0 rs in
  Forall (fun g => 0 <= snd g - fst g) candidates
  /\ total_length candidates + total_length rs = L.
Proof.
  intros Hne Hord Hin. destruct rs as [|r rs]; [done|].
  destruct (later_candidates_length L rs r Hord Hin) as [Hnn Hlen].
  pose proof Hin as Hin'. apply Forall_cons in Hin' as [(H0 & H1 & H2) _].
  cbv zeta. unfold leading_candidate.
  destruct (Z.ltb_spec 0 (fst r)).
  - split.
    + apply Forall_app. split; [|done]. constructor; [simpl; lia | constructor].
    + rewrite total_length_app. simpl total_length at 1. simpl fst. simpl snd. lia.
  - split; [done|]. rewrite app_nil_l. lia.
Qed.

Lemma gaps_and_regions_length (L M : Z) (rs : list coord) :
  rs <> [] ->
  StronglySorted before rs ->
  Forall (within L) rs ->
  0 <= total_length (contract_gaps L 0 M rs)
  /\ total_length (contract_gaps L 0 M rs) + total_length rs <= L
  /\ (M <= 0 -> total_length (contract_gaps L 0 M rs) + total_length rs = L).
Proof.
  intros Hne Hord Hin.
  destruct (candidates_length L rs Hne Hord Hin) as [Hnn Hlen].
  cbv zeta in Hnn, Hlen. unfold contract_gaps.
  pose proof (total_length_filter (long_enough M) _ Hnn) as Hfilter.
  split; [lia|]. split; [lia|]. intros HM.
  rewrite filter_long_enough_all; [done|].
  eapply Forall_impl; [exact Hnn|]. simpl. intros g Hg. lia.
Qed.

Lemma lengths_lookup (m : gmap string (list coord)) (k : string) :
  covered_length_of (get_mapping_coverage_lengths_from_coverage_coords m) k
  = total_length (dd_get m k).
Proof.
  rewrite <- coverage_length_total.
  unfold covered_length_of, dd_get, get_mapping_coverage_lengths_from_coverage_coords.
  rewrite lookup_omap. destruct (m !! k) as [[|c cs]|]; reflexivity.
Qed.

Lemma merged_regions_within (L : Z) (cs : list coord) :
  Forall (within L) cs -> Forall (within L) (merged_regions cs).
Proof.
  intros Hin. apply Forall_forall. intros r Hr.
  destruct (contig_coverage_coords_canonical (coverage_points_of_coords cs))
    as [Hne _].
  rewrite Forall_forall in Hne. specialize (Hne r Hr).
  apply contig_coverage_coords_endpoints in Hr as [H1 H2].
  apply elem_of_coverage_points in H1 as (c1 & Hc1 & E1).
  apply elem_of_coverage_points in H2 as (c2 & Hc2 & E2).
  rewrite Forall_forall in Hin.
  destruct (Hin c1 Hc1) as (? & ? & ?). destruct (Hin c2 Hc2) as (? & ? & ?).
  unfold within. lia.
Qed.

(** X10: in the statistics of [get_sequence_coverage], with no context
    around the gaps and input intervals that lie within the sequence, the
    covered length of a sequence and the length to remap never add up to
    more than the length of the sequence; with a threshold of 0 or less they
    add up to exactly the length of the sequence. *)
Theorem covered_and_remapped_lengths_add_up
    (coords : Records.mapping_coords) (contig_lengths : gmap string Z)
    (minimum_size_remap : Z) (contig_id : string) (L : Z) :
  contig_lengths !! contig_id = Some L ->
  Forall (within L) (dd_get (ref_based_mapping_coords coords) contig_id) ->
  exists cov,
    sequence_coverage_of coords contig_lengths 0 minimum_size_remap = Ok cov
    /\ covered_length_of (ref_based_mapping_coverage_lengths cov) contig_id
       + covered_length_of (sequence_lengths_remapped cov) contig_id <= L
    /\ (minimum_size_remap <= 0 ->
        covered_length_of (ref_based_mapping_coverage_lengths cov) contig_id
        + covered_length_of (sequence_lengths_remapped cov) contig_id = L).
Proof.
  intros Hlen Hin. unfold sequence_coverage_of. cbv zeta.
  set (cov_coords := coverage_coords_pipeline (ref_based_mapping_coords coords)).
  assert (Hne : forall k rs, cov_coords !! k = Some rs -> rs <> []).
  { intros k rs. apply coverage_coords_no_empty_entry. }
  destruct (get_poor_returns cov_coords 0 minimum_size_remap contig_lengths Hne)
    as [res Hres].
  rewrite Hres. cbn [mbind result_bind]. eexists. split; [reflexivity|].
  cbn [ref_based_mapping_coverage_lengths sequence_lengths_remapped].
  unfold get_sequence_lengths_remapped. rewrite !lengths_lookup.
  pose proof (get_poor_lookup cov_coords 0 minimum_size_remap contig_lengths
                res contig_id L _ Hres Hlen
                (poor_coords_of_contig_ok cov_coords 0 minimum_size_remap
                   contig_id L (Hne contig_id))) as Hgaps.
  rewrite Hgaps.
  pose proof (dd_get_pipeline (ref_based_mapping_coords coords) contig_id) as Hget.
  fold cov_coords in Hget.
  destruct (cov_coords !! contig_id) as [rs|] eqn:Hcov.
  - assert (Hd : dd_get cov_coords contig_id = rs)
      by (unfold dd_get; by rewrite Hcov).
    rewrite Hd in Hget |- *.
    assert (Hrs : rs <> []) by (by eapply Hne).
    assert (Hord : StronglySorted before rs).
    { rewrite Hget. apply contig_coverage_coords_canonical. }
    assert (Hwithin : Forall (within L) rs).
    { rewrite Hget. by apply merged_regions_within. }
    destruct (gaps_and_regions_length L minimum_size_remap rs Hrs Hord Hwithin)
      as (_ & Hle & Heq).
    split; [lia|]. intros HM. specialize (Heq HM). lia.
  - assert (Hd : dd_get cov_coords contig_id = [])
      by (unfold dd_get; by rewrite Hcov).
    rewrite Hd. simpl. split; [lia|]. intros _. lia.
Qed.

Lemma covered_and_remapped_lengths_add_up_witness :
  exists cov,
    sequence_coverage_of
      (MkCoords {[ "ctg1" := [(10, 50); (30, 70); (90, 100)] ]} ∅)
      {[ "ctg1" := 120 ]} 0 0 = Ok cov
    /\ covered_length_of (ref_based_mapping_coverage_lengths cov) "ctg1"
       + covered_length_of (sequence_lengths_remapped cov) "ctg1" <= 120
    /\ (0 <= 0 ->
        covered_length_of (ref_based_mapping_coverage_lengths cov) "ctg1"
        + covered_length_of (sequence_lengths_remapped cov) "ctg1" = 120).
Proof.
  apply (covered_and_remapped_lengths_add_up
           (MkCoords {[ "ctg1" := [(10, 50); (30, 70); (90, 100)] ]} ∅)
           {[ "ctg1" := 120 ]} 0 "ctg1" 120).
  - vm_compute. reflexivity.
  - vm_compute.
    repeat first [apply List.Forall_nil
                 | apply List.Forall_cons; [repeat split; discriminate|]].
Defined.

(** ** A larger threshold keeps fewer gaps *)

Lemma filter_filter_implied {A} (f g : A -> bool) (l : list A) :
  (forall x, f x = true -> g x = true) ->
  List.filter f (List.filter g l) = List.filter f l.
Proof.
  intros Himp. induction l as [|x l IH]; simpl; [done|].
  destruct (g x) eqn:Hg; simpl.
  - by rewrite IH.
  - destruct (f x) eqn:Hf; [|done]. apply Himp in Hf. congruence.
Qed.

Lemma contract_gaps_threshold (L C M M' : Z) (regions : list coord) :
  M <= M' ->
  contract_gaps L C M' regions
  = List.filter (long_enough M') (contract_gaps L C M regions).
Proof.
  intros HM. unfold contract_gaps. symmetry. apply filter_filter_implied.
  intros g. unfold long_enough. lia.
Qed.

(** X11: raising the threshold only drops gaps: for a sequence that has
    covered regions the gaps returned with the larger threshold are those
    returned with the smaller one that are long enough, in the same order;
    for a sequence without covered regions the result is the same. *)
Theorem larger_threshold_filters_gaps
    (contig_lengths : gmap string Z)
    (mapping_coverage_coords : gmap string (list coord))
    (C M M' : Z) (res res' : gmap string (list coord)) (contig_id : string) :
  M <= M' ->
  get_poor_mapping_coverage_coordinates
    contig_lengths mapping_coverage_coords C M = Ok res ->
  get_poor_mapping_coverage_coordinates
    contig_lengths mapping_coverage_coords C M' = Ok res' ->
  dd_get res' contig_id
  = if decide (is_Some (mapping_coverage_coords !! contig_id))
    then List.filter (long_enough M') (dd_get res contig_id)
    else dd_get res contig_id.
Proof.
  intros HM Hres Hres'.
  destruct (contig_lengths !! contig_id) as [L|] eqn:Hlen.
  - pose proof (get_poor_mapping_coverage_coordinates_spec
                  mapping_coverage_coords C M contig_lengths) as Hspec.
    pose proof (get_poor_mapping_coverage_coordinates_spec
                  mapping_coverage_coords C M' contig_lengths) as Hspec'.
    rewrite Hres in Hspec. rewrite Hres' in Hspec'.
    destruct Hspec as [Hspec _]. destruct Hspec' as [Hspec' _].
    destruct (Hspec contig_id L Hlen) as (g & Hg & Hlook).
    destruct (Hspec' contig_id L Hlen) as (g' & Hg' & Hlook').
    unfold dd_get. rewrite Hlook, Hlook', !dd_get_entry.
    unfold poor_coords_of_contig in Hg, Hg'.
    destruct (mapping_coverage_coords !! contig_id) as [[|r rs]|].
    + by rewrite contig_poor_mapping_coords_nil in Hg.
    + rewrite contig_poor_mapping_coords_contract in Hg, Hg' by done.
      injection Hg as <-. injection Hg' as <-.
      rewrite decide_True by (by eexists). by apply contract_gaps_threshold.
    + rewrite decide_False by (by intros [? ?]). congruence.
  - unfold dd_get.
    rewrite (get_poor_missing mapping_coverage_coords C M contig_lengths res
               contig_id Hres Hlen).
    rewrite (get_poor_missing mapping_coverage_coords C M' contig_lengths res'
               contig_id Hres' Hlen).
    simpl. by destruct (decide _).
Qed.

Lemma larger_threshold_filters_gaps_witness :
  dd_get ({[ "contig_1" := [(300, 550); (550, 1000)] ]} : gmap string (list coord))
         "contig_1"
  = if decide (is_Some (({[ "contig_1" := [(100, 350); (500, 600)] ]}
                          : gmap string (list coord)) !! "contig_1"))
    then List.filter (long_enough 200)
           (dd_get ({[ "contig_1" := [(0, 150); (300, 550); (550, 1000)] ]}
                      : gmap string (list coord)) "contig_1")
    else dd_get ({[ "contig_1" := [(0, 150); (300, 550); (550, 1000)] ]}
                   : gmap string (list coord)) "contig_1".
Proof.
  apply (larger_threshold_filters_gaps
           {[ "contig_1" := 1000 ]} {[ "contig_1" := [(100, 350); (500, 600)] ]}
           50 100 200).
  - lia.
  - vm_compute. reflexivity.
  - vm_compute. reflexivity.
Defined.

(** ** The loops over the lines of a file *)

Ltac binds := cbn [mbind result_bind].

(** Name the result of the first call of a chain of binds in [H]; the
    case of an exception is closed when [H] says the chain returned. *)
Ltac bound H x E :=
  match type of H with
  | context [mbind _ ?m] =>
      destruct m as [x|] eqn:E; cbn [mbind result_bind] in H; [|discriminate H]
  end.

Lemma for_each_cons {S I} (body : S -> I -> result S) (i : I) (items : list I)
    (st : S) :
  for_each body (i :: items) st = (st' ← body st i; for_each body items st').
Proof. done. Qed.

Lemma py_index_Ok {A} (l : list A) (i : nat) (x : A) :
  py_index l (Z.of_nat i) = Ok x -> l !! i = Some x.
Proof.
  unfold py_index. cbv zeta.
  destruct (Z.ltb_spec (Z.of_nat i) 0); [lia|].
  destruct (_ || _); [done|]. rewrite Nat2Z.id.
  destruct (l !! i); [by intros [= ->] | done].
Qed.

Lemma dd_get_append {V} (d : gmap string (list V)) (k : string) (x : V)
    (k' : string) :
  dd_get (dd_append d k x) k'
  = if decide (k = k') then dd_get d k ++ [x] else dd_get d k'.
Proof.
  unfold dd_append. unfold dd_get at 1. case_decide.
  - subst. by rewrite lookup_insert_eq.
  - by rewrite lookup_insert_ne.
Qed.

(** ** Supplementary mappings *)

Lemma is_header_cons (c : ascii) (s : string) :
  is_header (String c s) = Ascii.eqb c "@".
Proof.
  unfold is_header. rewrite prefix_cons, prefix_nil_l.
  destruct (Ascii.eqb_spec c "@"); case_decide; congruence.
Qed.

Lemma keeps_sam_line_header (line : string) :
  is_header line = true -> keeps_sam_line line = Ok true.
Proof.
  destruct line as [|c s]; [done|]. rewrite is_header_cons.
  unfold keeps_sam_line. by intros ->.
Qed.

Lemma keeps_sam_line_record (line field : string) (flag : Z) :
  is_header line = false ->
  py_index (split_ws line) 1 = Ok field ->
  py_int field = Ok flag ->
  keeps_sam_line line = Ok (negb (flag / 2048 =? 1)).
Proof.
  intros Hh Hf Hi. destruct line as [|c s].
  - change (split_ws "") with (@nil string) in Hf. by rewrite py_index_nil in Hf.
  - rewrite is_header_cons in Hh. unfold keeps_sam_line. rewrite Hh. cbv zeta.
    rewrite Hf. binds. rewrite Hi. binds. done.
Qed.

Lemma exclude_loop (lines acc written : list string) :
  for_each (fun written line =>
              keep ← keeps_sam_line line;
              Ok (if keep : bool then written ++ [line] else written))
           lines acc = Ok written ->
  exists kept,
    written = acc ++ kept
    /\ kept `sublist_of` lines
    /\ forall line, line ∈ kept <-> line ∈ lines /\ keeps_sam_line line = Ok true.
Proof.
  revert acc. induction lines as [|l lines IH]; intros acc.
  - intros [= <-]. exists []. rewrite app_nil_r. split; [done|]. split; [done|].
    intros line. split; [intros H; inversion H | intros [H _]; inversion H].
  - rewrite for_each_cons.
    destruct (keeps_sam_line l) as [keep|e] eqn:E; binds; [|done].
    intros H. apply IH in H as (kept & -> & Hsub & Hin). destruct keep.
    + exists (l :: kept). rewrite <- app_assoc. split; [done|].
      split; [by apply sublist_skip|].
      intros line. rewrite !elem_of_cons, Hin. split.
      * intros [->|[? ?]]; [split; [by left | done] | split; [by right | done]].
      * intros [[->|?] ?]; [by left | by right].
    + exists kept. split; [done|]. split; [by apply sublist_cons|].
      intros line. rewrite Hin, elem_of_cons. split.
      * intros [? ?]. split; [by right | done].
      * intros [[->|?] Hk]; [congruence | done].
Qed.

Lemma flag_quotient (flag : Z) : flag / 2048 = 1 <-> 2048 <= flag < 4096.
Proof.
  pose proof (Z.div_mod flag 2048 ltac:(lia)) as Hdiv.
  pose proof (Z.mod_pos_bound flag 2048 ltac:(lia)) as Hmod.
  lia.
Qed.

Lemma flag_bit (flag : Z) :
  0 <= flag < 4096 -> (flag / 2048 =? 1) = Z.testbit flag 11.
Proof.
  intros H.
  replace (Z.testbit flag 11) with (Z.testbit (flag / 2 ^ 11) 0)
    by (rewrite Z.div_pow2_bits by lia; reflexivity).
  change (2 ^ 11) with 2048. rewrite Z.bit0_odd.
  pose proof (flag_quotient flag) as Hq.
  pose proof (Z.div_mod flag 2048 ltac:(lia)) as Hdiv.
  pose proof (Z.mod_pos_bound flag 2048 ltac:(lia)) as Hmod.
  assert (flag / 2048 = 0 \/ flag / 2048 = 1) as [->| ->] by lia; done.
Qed.

(** X12: what [exclude_supplementary_mappings] writes is the lines of the
    file with some records left out, in the order of the file.  Every header
    line is written.  A record is left out exactly when its flag lies in
    2048..4095; for a flag of the 12 bits of the format (0..4095) that is
    exactly when the bit 0x800 of a supplementary mapping is set. *)
Theorem supplementary_records_are_dropped (lines written : list string) :
  exclude_supplementary_mappings lines = Ok written ->
  written `sublist_of` lines
  /\ (forall line, line ∈ lines -> is_header line = true -> line ∈ written)
  /\ (forall line field flag,
        line ∈ lines ->
        is_header line = false ->
        py_index (split_ws line) 1 = Ok field ->
        py_int field = Ok flag ->
        (line ∈ written <-> ~ (2048 <= flag < 4096))
        /\ (0 <= flag < 4096 ->
            (line ∈ written <-> Z.testbit flag 11 = false))).
Proof.
  intros H. apply exclude_loop in H as (kept & -> & Hsub & Hin).
  rewrite app_nil_l. split; [done|]. split.
  - intros line Hline Hh. apply Hin. split; [done|]. by apply keeps_sam_line_header.
  - intros line field flag Hline Hh Hf Hi.
    rewrite Hin, (keeps_sam_line_record line field flag Hh Hf Hi).
    pose proof (flag_quotient flag) as Hq.
    split.
    + destruct (Z.eqb_spec (flag / 2048) 1) as [E|E]; simpl.
      * split; [intros [_ [=]] | intros Hn; exfalso; apply Hn; by apply Hq].
      * split; [intros _ Hr; apply E; by apply Hq | done].
    + intros Hrange. rewrite (flag_bit flag Hrange).
      destruct (Z.testbit flag 11); simpl.
      * split; [intros [_ [=]] | done].
      * done.
Qed.

Lemma supplementary_records_are_dropped_witness :
  [ "@SQ" +:+ tab +:+ "SN:chr21"; "r1" +:+ tab +:+ "0" +:+ tab +:+ "chr21";
    "r4" +:+ tab +:+ "16" +:+ tab +:+ "chr21" ]
  `sublist_of`
  [ "@SQ" +:+ tab +:+ "SN:chr21"; "r1" +:+ tab +:+ "0" +:+ tab +:+ "chr21";
    "r2" +:+ tab +:+ "2048" +:+ tab +:+ "chr21";
    "r3" +:+ tab +:+ "2064" +:+ tab +:+ "chr21";
    "r4" +:+ tab +:+ "16" +:+ tab +:+ "chr21" ].
Proof.
  refine (proj1 (supplementary_records_are_dropped _ _ _)).
  vm_compute. reflexivity.
Defined.

(** ** Consolidating mapping files *)

Lemma consolidate_file (lines acc : list string) :
  fold_left (fun written line =>
               if is_header line then written else written ++ [line])
            lines acc
  = acc ++ List.filter (fun line => negb (is_header line)) lines.
Proof.
  revert acc. induction lines as [|l lines IH]; intros acc.
  - by rewrite app_nil_r.
  - cbn [fold_left List.filter]. rewrite IH.
    destruct (is_header l); cbn [negb]; [done|]. by rewrite <- app_assoc.
Qed.

Lemma consolidate_files (mapping_files : list (list string)) (acc : list string) :
  fold_left (fun written lines =>
               fold_left (fun written line =>
                            if is_header line then written
                            else written ++ [line])
                         lines written)
            mapping_files acc
  = acc ++ List.filter (fun line => negb (is_header line)) (concat mapping_files).
Proof.
  revert acc. induction mapping_files as [|f fs IH]; intros acc.
  - by rewrite app_nil_r.
  - cbn [fold_left concat]. rewrite IH, consolidate_file, List.filter_app.
    by rewrite app_assoc.
Qed.

Lemma filter_twice {A} (f : A -> bool) (l : list A) :
  List.filter f (List.filter f l) = List.filter f l.
Proof. by apply filter_filter_implied. Qed.

(** X13: [consolidate_mapping_files] writes the lines of the files that do
    not start with [@], in the order of the files and of their lines: no
    header line is written, consolidating the consolidated file changes
    nothing, and consolidating more files appends their lines. *)
Theorem consolidation_drops_headers (mapping_files : list (list string)) :
  consolidate_mapping_files mapping_files
  = List.filter (fun line => negb (is_header line)) (concat mapping_files)
  /\ Forall (fun line => is_header line = false)
            (consolidate_mapping_files mapping_files)
  /\ consolidate_mapping_files [consolidate_mapping_files mapping_files]
     = consolidate_mapping_files mapping_files
  /\ (forall more,
        consolidate_mapping_files (mapping_files ++ more)
        = consolidate_mapping_files mapping_files
            ++ consolidate_mapping_files more).
Proof.
  assert (Heq : forall files,
            consolidate_mapping_files files
            = List.filter (fun line => negb (is_header line)) (concat files)).
  { intros files. unfold consolidate_mapping_files.
    by rewrite consolidate_files, app_nil_l. }
  split; [apply Heq|]. split; [|split].
  - rewrite Heq. apply Forall_forall. intros line Hline.
    apply list_elem_of_In, List.filter_In in Hline as [_ Hline].
    by destruct (is_header line).
  - rewrite (Heq [_]), Heq. cbn [concat]. by rewrite app_nil_r, filter_twice.
  - intros more. by rewrite !Heq, concat_app, List.filter_app.
Qed.

(** ** The coverage points read from a mapping file *)

Lemma dd_entry_app {V} (l : list V) (x : V) (rest : list V) :
  dd_entry (l ++ x :: rest) = Some (l ++ x :: rest).
Proof. by destruct l. Qed.

Lemma coverage_points_append (coords : gmap string (list coord)) (k : string)
    (a b : Z) :
  dd_append (dd_append (get_coverage_points_from_mapping_coords coords) k (a, true))
            k (b, false)
  = get_coverage_points_from_mapping_coords (dd_append coords k (a, b)).
Proof.
  apply map_eq. intros k'. unfold dd_append at 1.
  destruct (decide (k = k')) as [<-|Hne].
  - rewrite lookup_insert_eq, dd_get_append, decide_True by done.
    rewrite dd_get_coverage_points.
    unfold get_coverage_points_from_mapping_coords, dd_append.
    rewrite lookup_omap, lookup_insert_eq. cbn [mbind option_bind].
    unfold coverage_points_of_coords. rewrite flat_map_app.
    cbn [flat_map fst snd app]. rewrite <- app_assoc. cbn [app].
    symmetry. apply dd_entry_app.
  - rewrite lookup_insert_ne by done. unfold dd_append.
    rewrite lookup_insert_ne by done.
    unfold get_coverage_points_from_mapping_coords.
    by rewrite !lookup_omap, lookup_insert_ne.
Qed.

Lemma coverage_points_step_pairs (mapq_cutoff : Z)
    (coords : gmap string (list coord)) (mapping : string)
    (res : gmap string (list point)) :
  coverage_points_step mapq_cutoff
    (get_coverage_points_from_mapping_coords coords) mapping = Ok res ->
  exists coords', res = get_coverage_points_from_mapping_coords coords'.
Proof.
  unfold coverage_points_step. cbv zeta. intros H.
  bound H contig_id E0. bound H field11 E11. bound H mapq Emapq.
  destruct (mapq >=? mapq_cutoff).
  - bound H field2 E2. bound H start Estart. bound H field3 E3.
    bound H stop Estop. injection H as <-.
    exists (dd_append coords contig_id (start, stop)).
    apply coverage_points_append.
  - injection H as <-. by exists coords.
Qed.

Lemma coverage_points_loop (mapq_cutoff : Z) (lines : list string)
    (coords : gmap string (list coord)) (res : gmap string (list point)) :
  for_each (coverage_points_step mapq_cutoff) lines
           (get_coverage_points_from_mapping_coords coords) = Ok res ->
  exists coords', res = get_coverage_points_from_mapping_coords coords'.
Proof.
  revert coords. induction lines as [|l lines IH]; intros coords.
  - intros [= <-]. by exists coords.
  - rewrite for_each_cons.
    destruct (coverage_points_step mapq_cutoff _ l) as [pts|] eqn:Hstep;
      binds; [|done].
    apply coverage_points_step_pairs in Hstep as [coords' ->]. apply IH.
Qed.

Lemma balance_coverage_points (cs : list coord) :
  balance (coverage_points_of_coords cs) = 0.
Proof. induction cs as [|c cs IH]; simpl in *; lia. Qed.

(** X14: the coverage points [get_mapping_coverage_points] returns are, for
    every contig, the start and stop points of a list of intervals: they are
    what the notebook's [get_coverage_points_from_mapping_coords] builds
    from some dictionary of intervals.  So the regions the workflow derives
    from them are the regions the notebook derives from these intervals, and
    every contig has as many start points as stop points. *)
Theorem coverage_points_come_in_pairs
    (mapq_cutoff : Z) (lines : list string) (points : gmap string (list point)) :
  get_mapping_coverage_points mapq_cutoff lines = Ok points ->
  exists mapping_coords : gmap string (list coord),
    points = get_coverage_points_from_mapping_coords mapping_coords
    /\ get_mapping_coverage_coordinates points
       = coverage_coords_pipeline mapping_coords
    /\ forall contig_id, balance (dd_get points contig_id) = 0.
Proof.
  unfold get_mapping_coverage_points. intros H.
  assert (Hempty : (∅ : gmap string (list point))
                   = get_coverage_points_from_mapping_coords ∅).
  { unfold get_coverage_points_from_mapping_coords. by rewrite omap_empty. }
  rewrite Hempty in H. apply coverage_points_loop in H as [coords ->].
  exists coords. split; [done|]. split; [done|].
  intros k. rewrite dd_get_coverage_points. apply balance_coverage_points.
Qed.

Lemma coverage_points_come_in_pairs_witness :
  exists mapping_coords : gmap string (list coord),
    ({[ "ctg1" := [(10, true); (50, false)] ]} : gmap string (list point))
    = get_coverage_points_from_mapping_coords mapping_coords
    /\ get_mapping_coverage_coordinates {[ "ctg1" := [(10, true); (50, false)] ]}
       = coverage_coords_pipeline mapping_coords
    /\ forall contig_id,
         balance (dd_get ({[ "ctg1" := [(10, true); (50, false)] ]}
                            : gmap string (list point)) contig_id) = 0.
Proof.
  apply (coverage_points_come_in_pairs 20
           [ "ctg1" +:+ tab +:+ "900" +:+ tab +:+ "10" +:+ tab +:+ "50" +:+ tab
               +:+ "+" +:+ tab +:+ "chr21" +:+ tab +:+ "5000" +:+ tab +:+ "100"
               +:+ tab +:+ "140" +:+ tab +:+ "40" +:+ tab +:+ "40" +:+ tab
               +:+ "60" +:+ newline;
             "ctg1" +:+ tab +:+ "900" +:+ tab +:+ "30" +:+ tab +:+ "70" +:+ tab
               +:+ "+" +:+ tab +:+ "chr21" +:+ tab +:+ "5000" +:+ tab +:+ "100"
               +:+ tab +:+ "140" +:+ tab +:+ "40" +:+ tab +:+ "40" +:+ tab
               +:+ "3" +:+ newline ]).
  vm_compute. reflexivity.
Defined.

(** ** The intervals read from the mapping files *)

Lemma strand_coords_oriented (line : string) (c : coord) :
  follows_strand line = true ->
  strand_coords (split_ws line) = Ok (Some c) ->
  fst c <= snd c.
Proof.
  unfold follows_strand, strand_coords. cbv zeta.
  generalize (split_ws line). intros parsed Hf H.
  bound H strand E4. apply (py_index_Ok _ 4%nat) in E4.
  destruct (String.eqb strand "+") eqn:Hplus.
  - bound H field2 E2. bound H a Ea. bound H field3 E3. bound H b Eb.
    apply (py_index_Ok _ 2%nat) in E2. apply (py_index_Ok _ 3%nat) in E3.
    rewrite E2, E3, E4, Ea, Eb, Hplus in Hf.
    injection H as <-. simpl. lia.
  - destruct (String.eqb strand "-") eqn:Hminus; [|done].
    bound H field3 E3. bound H b Eb. bound H field2 E2. bound H a Ea.
    apply (py_index_Ok _ 2%nat) in E2. apply (py_index_Ok _ 3%nat) in E3.
    rewrite E2, E3, E4, Ea, Eb, Hplus, Hminus in Hf.
    injection H as <-. simpl. lia.
Qed.

Lemma dd_append_oriented (d : gmap string (list coord)) (k : string) (c : coord) :
  fst c <= snd c ->
  (forall k', Forall (fun c => fst c <= snd c) (dd_get d k')) ->
  forall k', Forall (fun c => fst c <= snd c) (dd_get (dd_append d k c) k').
Proof.
  intros Hc Hd k'. rewrite dd_get_append. case_decide; [|apply Hd].
  apply Forall_app. split; [apply Hd|]. by constructor.
Qed.

Lemma mapping_coords_step_oriented (chroms_in_ref : gset string)
    (st st' : mapping_coords) (line : string) :
  follows_strand line = true ->
  mapping_coords_step chroms_in_ref st line = Ok st' ->
  (forall k, Forall (fun c => fst c <= snd c) (dd_get (ref_based_mapping_coords st) k)) ->
  (forall k, Forall (fun c => fst c <= snd c) (dd_get (all_to_all_mapping_coords st) k)) ->
  (forall k, Forall (fun c => fst c <= snd c) (dd_get (ref_based_mapping_coords st') k))
  /\ (forall k, Forall (fun c => fst c <= snd c)
                       (dd_get (all_to_all_mapping_coords st') k)).
Proof.
  intros Hf H Href Hall. unfold mapping_coords_step in H. cbv zeta in H.
  bound H target E5.
  destruct (strand_coords (split_ws line)) as [[c|]|] eqn:Hc;
    cbn [mbind result_bind] in H; [| |done].
  - bound H seq_id E1. pose proof (strand_coords_oriented line c Hf Hc) as Hle.
    case_decide; injection H as <-; cbn [ref_based_mapping_coords
                                          all_to_all_mapping_coords].
    + split; [by apply dd_append_oriented | done].
    + split; [done | by apply dd_append_oriented].
  - by injection H as <-.
Qed.

Lemma mapping_coords_loop_oriented (chroms_in_ref : gset string)
    (lines : list string) (st st' : mapping_coords) :
  forallb follows_strand lines = true ->
  for_each (mapping_coords_step chroms_in_ref) lines st = Ok st' ->
  (forall k, Forall (fun c => fst c <= snd c) (dd_get (ref_based_mapping_coords st) k)) ->
  (forall k, Forall (fun c => fst c <= snd c) (dd_get (all_to_all_mapping_coords st) k)) ->
  (forall k, Forall (fun c => fst c <= snd c) (dd_get (ref_based_mapping_coords st') k))
  /\ (forall k, Forall (fun c => fst c <= snd c)
                       (dd_get (all_to_all_mapping_coords st') k)).
Proof.
  revert st. induction lines as [|l lines IH]; intros st Hf H Href Hall.
  - by injection H as <-.
  - cbn [forallb] in Hf. apply andb_true_iff in Hf as [Hl Hf].
    rewrite for_each_cons in H.
    destruct (mapping_coords_step chroms_in_ref st l) as [st1|] eqn:Hstep;
      cbn [mbind result_bind] in H; [|done].
    destruct (mapping_coords_step_oriented _ _ _ _ Hl Hstep Href Hall) as [H1 H2].
    by apply (IH st1).
Qed.

(** X15: when the coordinates of every record of the mapping files follow
    its strand (start before stop on [+], stop before start on [-]), every
    interval [get_mapping_coords_from_mapping_files] stores has
    [start <= stop]: the routine puts the coordinates of a [-] record in
    order.  The covered length the statistics then give for a sequence is
    the number of positions its intervals cover. *)
Theorem stored_intervals_are_ordered
    (mapping_files : list (list string)) (chroms_in_ref : gset string)
    (coords : mapping_coords) (seq_id : string) :
  forallb follows_strand (concat mapping_files) = true ->
  get_mapping_coords_from_mapping_files mapping_files chroms_in_ref = Ok coords ->
  Forall (fun c => fst c <= snd c) (dd_get (ref_based_mapping_coords coords) seq_id)
  /\ Forall (fun c => fst c <= snd c)
            (dd_get (all_to_all_mapping_coords coords) seq_id)
  /\ covered_length_of
       (coverage_lengths_pipeline (ref_based_mapping_coords coords)) seq_id
     = union_measure (dd_get (ref_based_mapping_coords coords) seq_id)
  /\ covered_length_of
       (coverage_lengths_pipeline (all_to_all_mapping_coords coords)) seq_id
     = union_measure (dd_get (all_to_all_mapping_coords coords) seq_id).
Proof.
  intros Hf H. unfold get_mapping_coords_from_mapping_files in H.
  destruct (mapping_coords_loop_oriented _ _ _ _ Hf H) as [Href Hall].
  - intros k. unfold dd_get. cbn [ref_based_mapping_coords].
    rewrite lookup_empty. constructor.
  - intros k. unfold dd_get. cbn [all_to_all_mapping_coords].
    rewrite lookup_empty. constructor.
  - split; [apply Href|]. split; [apply Hall|].
    rewrite !covered_length_pipeline.
    split; apply merged_length_measure; [apply Href | apply Hall].
Qed.

Lemma stored_intervals_are_ordered_witness :
  Forall (fun c : coord => fst c <= snd c)
         (dd_get (ref_based_mapping_coords
                    (MkCoords {[ "ctg1" := [(10, 50); (60, 90)] ]}
                              {[ "ctg2" := [(5, 9)] ]})) "ctg1").
Proof.
  refine (proj1 (stored_intervals_are_ordered
                   [ [ "cigar: ctg1 10 50 + chr21 100 140 + 40";
                       "cigar: ctg1 90 60 - chr21 100 130 + 30";
                       "cigar: ctg2 5 9 + ctg1 0 4 + 4" ] ] {[ "chr21" ]}
                   (MkCoords {[ "ctg1" := [(10, 50); (60, 90)] ]}
                             {[ "ctg2" := [(5, 9)] ]}) "ctg1" _ _)).
  - vm_compute. reflexivity.
  - vm_compute. reflexivity.
Defined.

(** ** Relocating a whole mapping file *)

Lemma relocate_loop (lines acc out : list string) :
  for_each (fun written line => o ← relocate_line line; Ok (written ++ [o]))
           lines acc = Ok out ->
  exists outs,
    out = acc ++ outs
    /\ Forall2 (fun line o => relocate_line line = Ok o) lines outs.
Proof.
  revert acc. induction lines as [|l lines IH]; intros acc.
  - intros [= <-]. exists []. by rewrite app_nil_r.
  - rewrite for_each_cons.
    destruct (relocate_line l) as [o|] eqn:Ho; binds; [|done].
    intros H. apply IH in H as (outs & -> & Hall).
    exists (o :: outs). rewrite <- app_assoc. split; [done|]. by constructor.
Qed.

Lemma relocate_loop_returns (lines outs acc : list string) :
  Forall2 (fun line o => relocate_line line = Ok o) lines outs ->
  for_each (fun written line => o ← relocate_line line; Ok (written ++ [o]))
           lines acc = Ok (acc ++ outs).
Proof.
  intros Hall. revert acc.
  induction Hall as [|l o lines outs Ho _ IH]; intros acc.
  - by rewrite app_nil_r.
  - rewrite for_each_cons, Ho. binds. rewrite IH, <- app_assoc. done.
Qed.

Lemma relocate_loop_raises (before after acc : list string) (line : string)
    (outs : list string) (e : exn) :
  Forall2 (fun line o => relocate_line line = Ok o) before outs ->
  relocate_line line = Raise e ->
  for_each (fun written line => o ← relocate_line line; Ok (written ++ [o]))
           (before ++ line :: after) acc = Raise e.
Proof.
  intros Hall He. revert acc.
  induction Hall as [|l o lines outs' Ho _ IH]; intros acc.
  - rewrite app_nil_l, for_each_cons, He. done.
  - rewrite <- app_comm_cons, for_each_cons, Ho. binds. apply IH.
Qed.

(** X16: [relocate_remapped_fragments_to_source_contigs] returns exactly
    when every line of the file can be relocated, and then writes one line
    for each line of the file, in order: as many lines as it read.  When a
    line cannot be relocated, the call ends with the exception of the first
    such line. *)
Theorem relocation_goes_line_by_line :
  (forall lines out : list string,
     relocate_remapped_fragments_to_source_contigs lines = Ok out
     <-> Forall2 (fun line o => relocate_line line = Ok o) lines out)
  /\ (forall lines out : list string,
        relocate_remapped_fragments_to_source_contigs lines = Ok out ->
        length out = length lines)
  /\ (forall (before after outs : list string) (line : string) (e : exn),
        Forall2 (fun line o => relocate_line line = Ok o) before outs ->
        relocate_line line = Raise e ->
        relocate_remapped_fragments_to_source_contigs (before ++ line :: after)
        = Raise e).
Proof.
  unfold relocate_remapped_fragments_to_source_contigs.
  split; [|split].
  - intros lines out. split.
    + intros H. by apply relocate_loop in H as (outs & -> & Hall).
    + intros H. by rewrite (relocate_loop_returns lines out []).
  - intros lines out H. apply relocate_loop in H as (outs & -> & Hall).
    rewrite app_nil_l. symmetry. by eapply Forall2_length.
  - intros before after outs line e Hall He. by eapply relocate_loop_raises.
Qed.

Lemma relocate_line_stable (line out : string) :
  parent_is_plain line = true ->
  relocate_line line = Ok out ->
  relocate_line out = Ok out.
Proof.
  intros Hplain Hout. unfold parent_is_plain in Hplain.
  destruct (split_ws line) as [|name rest] eqn:Hsplit.
  - unfold relocate_line in Hout. cbv zeta in Hout.
    by rewrite Hsplit, py_index_nil in Hout.
  - destruct (contains "segment" name) eqn:Hseg.
    + destruct (relocate_line_fragment_inv _ _ _ _ Hsplit Hseg Hout)
        as (new_name & tail & others & f1 & f2 & f3 & rest' & start & stop
            & -> & Hpieces & ->).
      rewrite Hpieces in Hplain. apply andb_true_iff in Hplain as [Hne Hno].
      apply negb_true_iff in Hne, Hno. apply String.eqb_neq in Hne.
      pose proof (split_ws_tokens line) as Htok. rewrite Hsplit in Htok.
      assert (Hpiece : new_name ∈ py_split "_segment_" name)
        by (rewrite Hpieces; by left).
      apply Forall_cons in Htok as [[Hname Hname_chars] Htok].
      apply Forall_cons in Htok as [Hf1 Htok].
      apply Forall_cons in Htok as [_ Htok].
      apply Forall_cons in Htok as [_ Htok].
      eapply relocate_line_other; [|exact Hno].
      apply split_ws_written_line.
      constructor.
      { split; [done|]. apply Forall_forall. intros c Hc.
        rewrite Forall_forall in Hname_chars. apply Hname_chars.
        by eapply piece_chars. }
      constructor; [done|].
      constructor; [split; [apply py_str_nonempty | apply py_str_no_space]|].
      constructor; [split; [apply py_str_nonempty | apply py_str_no_space]|].
      done.
    + rewrite (relocate_line_other line name rest Hsplit Hseg) in Hout.
      injection Hout as <-. by eapply relocate_line_other.
Qed.

(** X17: relocating a relocated file changes nothing, when the parent name
    the relocator reads off every line (the part of the first field before
    the first [_segment_]) is not empty and holds no [segment]. *)
Theorem relocation_is_stable (lines out : list string) :
  forallb parent_is_plain lines = true ->
  relocate_remapped_fragments_to_source_contigs lines = Ok out ->
  relocate_remapped_fragments_to_source_contigs out = Ok out.
Proof.
  unfold relocate_remapped_fragments_to_source_contigs. intros Hplain H.
  apply relocate_loop in H as (outs & -> & Hall). rewrite app_nil_l.
  rewrite (relocate_loop_returns outs outs []); [done|].
  induction Hall as [|l o lines outs Ho _ IH]; [constructor|].
  cbn [forallb] in Hplain. apply andb_true_iff in Hplain as [Hl Hplain].
  constructor; [by eapply relocate_line_stable | by apply IH].
Qed.

Lemma relocation_is_stable_witness :
  relocate_remapped_fragments_to_source_contigs
    [ "X" +:+ tab +:+ "5000" +:+ tab +:+ "110" +:+ tab +:+ "150" +:+ tab
        +:+ "+" +:+ tab +:+ "chr21" +:+ newline;
      "Y" +:+ tab +:+ "700" +:+ tab +:+ "3" +:+ tab +:+ "9" +:+ newline ]
  = Ok [ "X" +:+ tab +:+ "5000" +:+ tab +:+ "110" +:+ tab +:+ "150" +:+ tab
           +:+ "+" +:+ tab +:+ "chr21" +:+ newline;
         "Y" +:+ tab +:+ "700" +:+ tab +:+ "3" +:+ tab +:+ "9" +:+ newline ].
Proof.
  apply (relocation_is_stable
           [ "X_segment_start_100_stop_200" +:+ tab +:+ "5000" +:+ tab +:+ "10"
               +:+ tab +:+ "50" +:+ tab +:+ "+" +:+ tab +:+ "chr21" +:+ newline;
             "Y" +:+ tab +:+ "700" +:+ tab +:+ "3" +:+ tab +:+ "9" +:+ newline ]).
  - vm_compute. reflexivity.
  - vm_compute. reflexivity.
Defined.

(** X26: a record whose first field holds no [segment] is written as it
    was read, at its place in the file, whenever the relocation of the file
    returns: records of fragments around it do not touch it. *)
Theorem plain_records_pass_through
    (lines out : list string) (i : nat) (line : string) :
  relocate_remapped_fragments_to_source_contigs lines = Ok out ->
  lines !! i = Some line ->
  is_plain_record line = true ->
  out !! i = Some line.
Proof.
  unfold relocate_remapped_fragments_to_source_contigs. intros H Hi Hplain.
  apply relocate_loop in H as (outs & -> & Hall). rewrite app_nil_l.
  destruct (Forall2_lookup_l _ _ _ _ _ Hall Hi) as (o & Ho & Hline).
  unfold is_plain_record in Hplain.
  destruct (split_ws line) as [|name rest] eqn:Hsplit; [done|].
  apply negb_true_iff in Hplain.
  rewrite (relocate_line_other line name rest Hsplit Hplain) in Hline.
  by injection Hline as <-.
Qed.

Lemma plain_records_pass_through_witness :
  [ "X" +:+ tab +:+ "5000" +:+ tab +:+ "110" +:+ tab +:+ "150" +:+ tab
      +:+ "+" +:+ tab +:+ "chr21" +:+ newline;
    "Y" +:+ tab +:+ "700" +:+ tab +:+ "3" +:+ tab +:+ "9" +:+ newline ] !! 1%nat
  = Some ("Y" +:+ tab +:+ "700" +:+ tab +:+ "3" +:+ tab +:+ "9" +:+ newline).
Proof.
  apply (plain_records_pass_through
           [ "X_segment_start_100_stop_200" +:+ tab +:+ "5000" +:+ tab +:+ "10"
               +:+ tab +:+ "50" +:+ tab +:+ "+" +:+ tab +:+ "chr21" +:+ newline;
             "Y" +:+ tab +:+ "700" +:+ tab +:+ "3" +:+ tab +:+ "9" +:+ newline ]).
  - vm_compute. reflexivity.
  - vm_compute. reflexivity.
  - vm_compute. reflexivity.
Defined.

Lemma relocation_goes_line_by_line_witness :
  length [ "X" +:+ tab +:+ "5000" +:+ tab +:+ "110" +:+ tab +:+ "150" +:+ tab
             +:+ "+" +:+ tab +:+ "chr21" +:+ newline;
           "Y" +:+ tab +:+ "700" +:+ tab +:+ "3" +:+ tab +:+ "9" +:+ newline ]
  = length [ "X_segment_start_100_stop_200" +:+ tab +:+ "5000" +:+ tab +:+ "10"
               +:+ tab +:+ "50" +:+ tab +:+ "+" +:+ tab +:+ "chr21" +:+ newline;
             "Y" +:+ tab +:+ "700" +:+ tab +:+ "3" +:+ tab +:+ "9" +:+ newline ].
Proof.
  apply (proj1 (proj2 relocation_goes_line_by_line)).
  vm_compute. reflexivity.
Defined.

(** ** The sequences written for the poorly mapped regions *)

Section sequences.
Context (poor_mapping_coords : gmap string (list coord)).

Lemma fasta_lines_app (a b : list (string * string)) :
  fasta_lines (a ++ b) = fasta_lines a ++ fasta_lines b.
Proof. unfold fasta_lines. apply flat_map_app. Qed.

Lemma write_fragment_records (name s : string) (st : extraction) (c : coord)
    (records : list (string * string)) :
  written st = fasta_lines records ->
  (forall h, h ∈ sequences_written st <-> h ∈ records.*1) ->
  NoDup records.*1 ->
  exists extra,
    Forall (fun r => r = fragment_record name s c) extra
    /\ written (write_fragment name s st c) = fasta_lines (records ++ extra)
    /\ (forall h, h ∈ sequences_written (write_fragment name s st c)
                  <-> h ∈ (records ++ extra).*1)
    /\ NoDup (records ++ extra).*1
    /\ fst (fragment_record name s c) ∈ (records ++ extra).*1.
Proof.
  intros Hw Hs Hnd. unfold write_fragment. cbv zeta.
  case_decide as Hin.
  - exists []. rewrite app_nil_r. split; [constructor|]. split; [done|].
    split; [done|]. split; [done|]. by apply Hs.
  - exists [fragment_record name s c]. split; [by constructor|].
    cbn [written sequences_written]. split.
    { rewrite fasta_lines_app, Hw. done. }
    rewrite fmap_app. cbn [fmap list_fmap fragment_record fst]. split; [|split].
    + intros h. rewrite elem_of_union, elem_of_singleton, elem_of_app,
        list_elem_of_singleton, Hs. tauto.
    + apply NoDup_app. split; [done|]. split; [|apply NoDup_singleton].
      intros h Hh Heq. apply list_elem_of_singleton in Heq. subst h.
      apply Hin. by apply Hs.
    + apply elem_of_app. right. by left.
Qed.

Lemma write_fragments_records (name s : string) (cs : list coord)
    (st : extraction) (records : list (string * string)) :
  written st = fasta_lines records ->
  (forall h, h ∈ sequences_written st <-> h ∈ records.*1) ->
  NoDup records.*1 ->
  exists extra,
    Forall (fun r => exists c, c ∈ cs /\ r = fragment_record name s c) extra
    /\ written (fold_left (write_fragment name s) cs st)
       = fasta_lines (records ++ extra)
    /\ (forall h, h ∈ sequences_written (fold_left (write_fragment name s) cs st)
                  <-> h ∈ (records ++ extra).*1)
    /\ NoDup (records ++ extra).*1
    /\ forall c, c ∈ cs -> fst (fragment_record name s c) ∈ (records ++ extra).*1.
Proof.
  revert st records. induction cs as [|c cs IH]; intros st records Hw Hs Hnd.
  - exists []. rewrite app_nil_r. split; [constructor|].
    split; [done|]. split; [done|]. split; [done|].
    intros c Hc. inversion Hc.
  - destruct (write_fragment_records name s st c records Hw Hs Hnd)
      as (extra1 & Hall1 & Hw1 & Hs1 & Hnd1 & Hin1).
    destruct (IH _ _ Hw1 Hs1 Hnd1) as (extra2 & Hall2 & Hw2 & Hs2 & Hnd2 & Hin2).
    exists (extra1 ++ extra2). rewrite app_assoc. cbn [fold_left].
    split; [|split; [done|split; [done|split; [done|]]]].
    + apply Forall_app. split.
      * eapply Forall_impl; [exact Hall1|]. intros r ->. exists c.
        split; [by left | done].
      * eapply Forall_impl; [exact Hall2|]. intros r (c' & Hc' & ->).
        exists c'. split; [by right | done].
    + intros c' Hc'. apply elem_of_cons in Hc' as [->|Hc']; [|by apply Hin2].
      rewrite fmap_app. apply elem_of_app. by left.
Qed.

Lemma extract_records (todo : list (string * string)) (st : extraction)
    (records : list (string * string)) :
  written st = fasta_lines records ->
  (forall h, h ∈ sequences_written st <-> h ∈ records.*1) ->
  NoDup records.*1 ->
  exists extra,
    Forall (fun r => exists name s c,
                (name, s) ∈ todo /\ c ∈ dd_get poor_mapping_coords name
                /\ r = fragment_record name s c) extra
    /\ written (fold_left
                  (fun st contig =>
                     fold_left (write_fragment (fst contig) (snd contig))
                               (dd_get poor_mapping_coords (fst contig)) st)
                  todo st)
       = fasta_lines (records ++ extra)
    /\ NoDup (records ++ extra).*1
    /\ forall name s c,
         (name, s) ∈ todo -> c ∈ dd_get poor_mapping_coords name ->
         fst (fragment_record name s c) ∈ (records ++ extra).*1.
Proof.
  revert st records. induction todo as [|[name s] todo IH];
    intros st records Hw Hs Hnd.
  - exists []. rewrite app_nil_r. split; [constructor|].
    split; [done|]. split; [done|]. intros name s c H. inversion H.
  - destruct (write_fragments_records name s (dd_get poor_mapping_coords name)
                st records Hw Hs Hnd)
      as (extra1 & Hall1 & Hw1 & Hs1 & Hnd1 & Hin1).
    destruct (IH _ _ Hw1 Hs1 Hnd1) as (extra2 & Hall2 & Hw2 & Hnd2 & Hin2).
    exists (extra1 ++ extra2). rewrite app_assoc. cbn [fold_left fst snd].
    split; [|split; [done|split; [done|]]].
    + apply Forall_app. split.
      * eapply Forall_impl; [exact Hall1|]. intros r (c & Hc & ->).
        exists name, s, c. split; [by left | done].
      * eapply Forall_impl; [exact Hall2|]. intros r (n' & s' & c' & Hn' & Hc' & ->).
        exists n', s', c'. split; [by right | done].
    + intros n' s' c' Hn' Hc'.
      apply elem_of_cons in Hn' as [[= -> ->]|Hn']; [|by eapply Hin2].
      rewrite fmap_app. apply elem_of_app. left. by apply Hin1.
Qed.

End sequences.

(** X18: what [get_poor_mapping_sequences] writes is a list of records of
    two lines, a header and a sequence.  No two records have the same
    header.  Every record is the fragment of a coord of a contig of the
    assembly, named by [fragment_name] and cut out of the contig's sequence
    at the coord; and every coord of every contig has its header written. *)
Theorem written_sequences_are_the_fragments
    (contigs : list (string * string))
    (poor_mapping_coords : gmap string (list coord)) :
  exists records : list (string * string),
    get_poor_mapping_sequences contigs poor_mapping_coords = fasta_lines records
    /\ NoDup records.*1
    /\ (forall r, r ∈ records ->
          exists name s c,
            (name, s) ∈ contigs /\ c ∈ dd_get poor_mapping_coords name
            /\ r = (">" +:+ fragment_name name c, py_slice s (fst c) (snd c)))
    /\ (forall name s c,
          (name, s) ∈ contigs -> c ∈ dd_get poor_mapping_coords name ->
          ">" +:+ fragment_name name c ∈ records.*1).
Proof.
  destruct (extract_records poor_mapping_coords contigs (MkExtraction ∅ []) [])
    as (records & Hall & Hw & Hnd & Hin).
  - done.
  - intros h. cbn [sequences_written fmap list_fmap]. split.
    + intros H. by apply elem_of_empty in H.
    + intros H. inversion H.
  - constructor.
  - rewrite app_nil_l in Hw, Hnd, Hin. exists records.
    split; [exact Hw|]. split; [exact Hnd|]. split.
    + rewrite Forall_forall in Hall. exact Hall.
    + exact Hin.
Qed.

(** ** Fragment names *)

Lemma string_app_inj_length (a b x y : string) :
  String.length a = String.length b -> a +:+ x = b +:+ y -> a = b /\ x = y.
Proof.
  revert b. induction a as [|c a IH]; intros [|d b] Hlen H; try done.
  rewrite !string_app_cons in H. injection H as -> H. simpl in Hlen.
  destruct (IH b) as [-> ->]; [lia | done | done].
Qed.

Lemma string_app_cancel_r (a b s : string) : a +:+ s = b +:+ s -> a = b.
Proof.
  intros H. apply (string_app_inj_length a b s s); [|done].
  apply (f_equal String.length) in H. rewrite !string_app_length in H. lia.
Qed.

(** Two strings that agree end in the same way after their last [c]. *)
Lemma string_app_last_char (c : ascii) (a b x y : string) :
  c ∉ chars x -> c ∉ chars y ->
  a +:+ String c x = b +:+ String c y -> a = b /\ x = y.
Proof.
  intros Hx Hy. revert b. induction a as [|d a IH]; intros [|e b] H.
  - by injection H as ->.
  - rewrite string_app_cons in H. injection H as <- ->. exfalso. apply Hx.
    rewrite chars_app, chars_cons, elem_of_app. right. by left.
  - rewrite string_app_cons in H. injection H as -> <-. exfalso. apply Hy.
    rewrite chars_app, chars_cons, elem_of_app. right. by left.
  - rewrite !string_app_cons in H. injection H as -> H.
    by destruct (IH b H) as [-> ->].
Qed.

Lemma py_str_inj (a b : Z) : py_str a = py_str b -> a = b.
Proof.
  intros H. pose proof (py_int_str a) as Ha. rewrite H, py_int_str in Ha.
  by injection Ha.
Qed.

(** X19: fragment names are unambiguous: two fragments have the same name
    only when they are cut from contigs of the same name at the same
    coord.  So the test on [sequences_written] in
    [get_poor_mapping_sequences] leaves out repeated coords only. *)
Theorem fragment_names_are_unambiguous
    (contig_name contig_name' : string) (c c' : coord) :
  fragment_name contig_name c = fragment_name contig_name' c' ->
  contig_name = contig_name' /\ c = c'.
Proof.
  unfold fragment_name. intros H.
  assert (Hlast : forall (n : string) (a b : Z),
            n +:+ "_segment_start_" +:+ py_str a +:+ "_stop_" +:+ py_str b
            = (n +:+ "_segment_start_" +:+ py_str a +:+ "_stop")
                +:+ String "_" (py_str b)).
  { intros n a b. by rewrite !string_app_assoc. }
  rewrite !Hlast in H.
  apply (string_app_last_char "_") in H as [H Hstop];
    [|by apply py_str_no_char..].
  assert (Hmid : forall (n : string) (a : Z),
            n +:+ "_segment_start_" +:+ py_str a +:+ "_stop"
            = (n +:+ "_segment_start_" +:+ py_str a) +:+ "_stop").
  { intros n a. by rewrite !string_app_assoc. }
  rewrite !Hmid in H. apply string_app_cancel_r in H.
  assert (Hfirst : forall (n : string) (a : Z),
            n +:+ "_segment_start_" +:+ py_str a
            = (n +:+ "_segment_start") +:+ String "_" (py_str a)).
  { intros n a. by rewrite !string_app_assoc. }
  rewrite !Hfirst in H.
  apply (string_app_last_char "_") in H as [H Hstart];
    [|by apply py_str_no_char..].
  apply string_app_cancel_r in H. apply py_str_inj in Hstart, Hstop.
  split; [done|]. destruct c, c'. simpl in *. congruence.
Qed.

Lemma fragment_names_are_unambiguous_witness :
  "ctg_1" = "ctg_1" /\ ((12, 345) : coord) = (12, 345).
Proof.
  apply fragment_names_are_unambiguous. vm_compute. reflexivity.
Defined.

(** ** The length of a fragment *)

Lemma substring_length (s : string) (n m : nat) :
  (n + m <= String.length s)%nat -> String.length (String.substring n m s) = m.
Proof.
  revert n m. induction s as [|c s IH]; intros n m H; simpl in H.
  - assert (n = 0 /\ m = 0)%nat as [-> ->] by lia. done.
  - destruct n as [|n]; simpl.
    + destruct m as [|m]; [done|]. simpl. f_equal. apply (IH 0%nat). lia.
    + apply IH. lia.
Qed.

Lemma py_slice_length (s : string) (start stop : Z) :
  0 <= start -> start <= stop -> stop <= Z.of_nat (String.length s) ->
  Z.of_nat (String.length (py_slice s start stop)) = stop - start.
Proof.
  intros H0 H1 H2. unfold py_slice. cbv zeta.
  destruct (Z.ltb_spec start 0); [lia|]. destruct (Z.ltb_spec stop 0); [lia|].
  rewrite !Z.min_l by lia. rewrite substring_length by lia. lia.
Qed.

(** X20: a region returned by the extraction of poorly mapped regions, for
    a threshold that is not negative and the length of the contig's
    sequence, is cut out of the sequence in full: the fragment written for
    it has [stop - start] characters. *)
Theorem fragment_has_the_length_of_its_region
    (contig_lengths : gmap string Z)
    (mapping_coverage_coords : gmap string (list coord))
    (C M : Z) (res : gmap string (list coord)) (contig_name sequence : string)
    (g : coord) :
  0 <= M ->
  contig_lengths !! contig_name = Some (Z.of_nat (String.length sequence)) ->
  get_poor_mapping_coverage_coordinates
    contig_lengths mapping_coverage_coords C M = Ok res ->
  g ∈ dd_get res contig_name ->
  Z.of_nat (String.length (py_slice sequence (fst g) (snd g))) = snd g - fst g.
Proof.
  intros HM Hlen Hres Hg.
  pose proof (get_poor_mapping_coverage_coordinates_spec
                mapping_coverage_coords C M contig_lengths) as Hspec.
  rewrite Hres in Hspec. destruct Hspec as [Hspec _].
  destruct (Hspec contig_name _ Hlen) as (gaps & Hgaps & Hlook).
  assert (Hget : dd_get res contig_name = gaps).
  { unfold dd_get. rewrite Hlook. apply dd_get_entry. }
  rewrite Hget in Hg.
  destruct (poor_coords_of_contig_within _ _ _ _ _ _ _ HM (Nat2Z.is_nonneg _)
              Hgaps Hg) as (H0 & H1 & H2).
  by apply py_slice_length.
Qed.

Lemma fragment_has_the_length_of_its_region_witness :
  Z.of_nat (String.length (py_slice "ACGTACGTACGTACGTACGT" (fst (12, 20)) (snd (12, 20))))
  = snd (12, 20) - fst (12, 20).
Proof.
  apply (fragment_has_the_length_of_its_region
           {[ "ctg1" := 20 ]} {[ "ctg1" := [(2, 6); (8, 12)] ]} 0 4
           {[ "ctg1" := [(12, 20)] ]} "ctg1" "ACGTACGTACGTACGTACGT" (12, 20)).
  - lia.
  - vm_compute. reflexivity.
  - vm_compute. reflexivity.
  - vm_compute. left.
Defined.

(** ** The lengths of the contigs *)

Lemma contig_lengths_file (contigs : list (string * string))
    (acc : gmap string Z) (k : string) :
  fold_left (fun contig_lengths (contig : string * string) =>
               <[fst contig := Z.of_nat (String.length (snd contig))]>
                 contig_lengths)
            contigs acc !! k
  = match last_record k contigs with
    | Some s => Some (Z.of_nat (String.length s))
    | None => acc !! k
    end.
Proof.
  revert acc. induction contigs as [|[name s] contigs IH]; intros acc; [done|].
  cbn [fold_left last_record fst snd]. rewrite IH.
  destruct (last_record k contigs); [done|].
  destruct (String.eqb_spec name k) as [->|Hne].
  - by rewrite lookup_insert_eq.
  - by rewrite lookup_insert_ne.
Qed.

Lemma contig_lengths_files (assembly_files : list (list (string * string)))
    (acc : gmap string Z) :
  fold_left (fun contig_lengths contigs =>
               fold_left (fun contig_lengths (contig : string * string) =>
                            <[fst contig := Z.of_nat (String.length (snd contig))]>
                              contig_lengths)
                         contigs contig_lengths)
            assembly_files acc
  = fold_left (fun contig_lengths (contig : string * string) =>
                 <[fst contig := Z.of_nat (String.length (snd contig))]>
                   contig_lengths)
              (concat assembly_files) acc.
Proof.
  revert acc. induction assembly_files as [|f fs IH]; intros acc; [done|].
  cbn [fold_left concat]. by rewrite IH, fold_left_app.
Qed.

(** X21: the length [get_all_contig_lengths] records for a name is the
    length of the last record of that name in the assembly files, in the
    order the files are read; a name of no record has no length; and no
    recorded length is negative. *)
Theorem contig_length_is_of_the_last_record
    (assembly_files : list (list (string * string))) (contig_name : string) :
  get_all_contig_lengths assembly_files !! contig_name
  = (fun s => Z.of_nat (String.length s))
      <$> last_record contig_name (concat assembly_files)
  /\ forall L, get_all_contig_lengths assembly_files !! contig_name = Some L ->
               0 <= L.
Proof.
  assert (Heq : get_all_contig_lengths assembly_files !! contig_name
                = (fun s => Z.of_nat (String.length s))
                    <$> last_record contig_name (concat assembly_files)).
  { unfold get_all_contig_lengths.
    rewrite contig_lengths_files, contig_lengths_file.
    by destruct (last_record contig_name (concat assembly_files)). }
  split; [exact Heq|]. intros L. rewrite Heq.
  destruct (last_record contig_name (concat assembly_files)); [|done].
  intros [= <-]. lia.
Qed.

(** ** Records the readers reject or pass over *)

Lemma for_each_raises {S I} (body : S -> I -> result S) (items : list I)
    (x : I) (st : S) :
  (forall st, raised (body st x) = true) ->
  x ∈ items ->
  raised (for_each body items st) = true.
Proof.
  intros Hx. revert st. induction items as [|i items IH]; intros st Hin.
  - inversion Hin.
  - rewrite for_each_cons. destruct (body st i) as [st'|e] eqn:Hi; binds; [|done].
    apply elem_of_cons in Hin as [->|Hin]; [|by apply IH].
    specialize (Hx st). by rewrite Hi in Hx.
Qed.

Lemma py_index_raises {A} (l : list A) (i : Z) (e : exn) :
  py_index l i = Raise e -> e = IndexError.
Proof.
  unfold py_index. cbv zeta. destruct (_ || _); [by intros [= <-]|].
  destruct (l !! _); [done | by intros [= <-]].
Qed.

Lemma mapping_coords_step_short (chroms_in_ref : gset string)
    (st : mapping_coords) (line : string) :
  (length (split_ws line) < 6)%nat ->
  mapping_coords_step chroms_in_ref st line = Raise IndexError.
Proof.
  intros Hlen. unfold mapping_coords_step. cbv zeta.
  by rewrite (py_index_short (split_ws line) 5) by lia.
Qed.

Lemma coverage_points_step_short (mapq_cutoff : Z)
    (points : gmap string (list point)) (line : string) :
  (length (py_split tab line) < 12)%nat ->
  coverage_points_step mapq_cutoff points line = Raise IndexError.
Proof.
  intros Hlen. unfold coverage_points_step. cbv zeta.
  destruct (py_index (py_split tab line) 0) as [contig_id|e] eqn:E0; binds.
  - by rewrite (py_index_short (py_split tab line) 11) by lia.
  - by rewrite (py_index_raises _ _ _ E0).
Qed.

(** X22: a line with too few fields stops the reading of the mapping
    files: [get_mapping_coords_from_mapping_files] raises when a line of a
    file has fewer than 6 fields, an empty line too, and
    [get_mapping_coverage_points] raises when a line has fewer than 12
    fields between tabs. *)
Theorem short_line_stops_the_reading (line : string) :
  (forall (mapping_files : list (list string)) (chroms_in_ref : gset string),
     line ∈ concat mapping_files ->
     (length (split_ws line) < 6)%nat ->
     raised (get_mapping_coords_from_mapping_files mapping_files chroms_in_ref)
     = true)
  /\ (forall (mapq_cutoff : Z) (lines : list string),
        line ∈ lines ->
        (length (py_split tab line) < 12)%nat ->
        raised (get_mapping_coverage_points mapq_cutoff lines) = true).
Proof.
  split.
  - intros files chroms Hin Hlen. unfold get_mapping_coords_from_mapping_files.
    apply (for_each_raises _ _ line); [|done].
    intros st. by rewrite mapping_coords_step_short.
  - intros cutoff lines Hin Hlen. unfold get_mapping_coverage_points.
    apply (for_each_raises _ _ line); [|done].
    intros st. by rewrite coverage_points_step_short.
Qed.

Lemma short_line_stops_the_reading_witness :
  raised (get_mapping_coords_from_mapping_files
            [ [ "cigar: ctg1 10 50 + chr21 100 140 + 40"; "" ] ] {[ "chr21" ]})
  = true.
Proof.
  apply (proj1 (short_line_stops_the_reading "")).
  - vm_compute. right. left.
  - vm_compute. lia.
Defined.

(** X23: records the readers pass over.  A record of the mapping files
    whose strand field is neither [+] nor [-] changes nothing, whatever its
    coordinate fields hold; and a record of the mapping file of the workflow
    whose mapping quality is below the cutoff adds no coverage point,
    whatever its coordinate fields hold. *)
Theorem passed_over_records_change_nothing :
  (forall (chroms_in_ref : gset string) (st : mapping_coords)
          (line strand : string),
     (6 <= length (split_ws line))%nat ->
     split_ws line !! 4%nat = Some strand ->
     strand <> "+" -> strand <> "-" ->
     mapping_coords_step chroms_in_ref st line = Ok st)
  /\ (forall (mapq_cutoff : Z) (points : gmap string (list point))
             (line field11 : string) (mapq : Z),
        py_split tab line !! 11%nat = Some field11 ->
        py_int_field field11 = Ok mapq ->
        mapq < mapq_cutoff ->
        coverage_points_step mapq_cutoff points line = Ok points).
Proof.
  split.
  - intros chroms st line strand Hlen H4 Hplus Hminus.
    unfold mapping_coords_step, strand_coords. cbv zeta.
    destruct (lookup_lt_is_Some_2 (split_ws line) 5 ltac:(lia)) as [target H5].
    rewrite (py_index_lookup _ 5%nat _ H5 : py_index (split_ws line) 5 = Ok target).
    binds.
    rewrite (py_index_lookup _ 4%nat _ H4 : py_index (split_ws line) 4 = Ok strand).
    binds.
    apply String.eqb_neq in Hplus, Hminus. rewrite Hplus, Hminus. done.
  - intros cutoff points line field11 mapq H11 Hint Hlow.
    unfold coverage_points_step. cbv zeta.
    destruct (lookup_lt_is_Some_2 (py_split tab line) 0
                ltac:(apply lookup_lt_Some in H11; lia)) as [contig_id H0].
    rewrite (py_index_lookup _ 0%nat _ H0
               : py_index (py_split tab line) 0 = Ok contig_id).
    binds.
    rewrite (py_index_lookup _ 11%nat _ H11
               : py_index (py_split tab line) 11 = Ok field11).
    binds. rewrite Hint. binds.
    destruct (Z.geb_spec mapq cutoff); [lia | done].
Qed.

Lemma passed_over_records_change_nothing_witness :
  mapping_coords_step {[ "chr21" ]} (MkCoords ∅ ∅)
    "cigar: ctg1 ten fifty . chr21 100 140 + 40"
  = Ok (MkCoords ∅ ∅).
Proof.
  apply (proj1 passed_over_records_change_nothing _ _ _ ".").
  - vm_compute. lia.
  - vm_compute. reflexivity.
  - discriminate.
  - discriminate.
Defined.

(** ** The statistics as a whole *)

(** X24: [get_sequence_coverage] raises only when the reading of the
    mapping files raises, and then with the exception of the reading: once
    the files are read, the merging of the intervals and the extraction of
    the regions to remap always return, for any table of lengths, context
    and threshold. *)
Theorem statistics_raise_only_on_reading
    (mapping_files : list (list string)) (chroms_in_ref : gset string)
    (contig_lengths : gmap string Z) (sequence_context minimum_size_remap : Z) :
  match get_mapping_coords_from_mapping_files mapping_files chroms_in_ref with
  | Ok coords =>
      exists remapped_sequence_coords,
        get_poor_mapping_coverage_coordinates
          contig_lengths
          (coverage_coords_pipeline (ref_based_mapping_coords coords))
          sequence_context minimum_size_remap = Ok remapped_sequence_coords
        /\ get_sequence_coverage mapping_files chroms_in_ref contig_lengths
             sequence_context minimum_size_remap
           = Ok (MkCoverage
                   (coverage_lengths_pipeline (ref_based_mapping_coords coords))
                   (coverage_lengths_pipeline (all_to_all_mapping_coords coords))
                   (get_sequence_lengths_remapped remapped_sequence_coords))
  | Raise e =>
      get_sequence_coverage mapping_files chroms_in_ref contig_lengths
        sequence_context minimum_size_remap = Raise e
  end.
Proof.
  unfold get_sequence_coverage.
  destruct (get_mapping_coords_from_mapping_files mapping_files chroms_in_ref)
    as [coords|e]; binds; [|done].
  unfold sequence_coverage_of. cbv zeta.
  destruct (get_poor_returns
              (coverage_coords_pipeline (ref_based_mapping_coords coords))
              sequence_context minimum_size_remap contig_lengths) as [res Hres].
  { intros k rs. apply coverage_coords_no_empty_entry. }
  exists res. split; [done|]. rewrite Hres. binds. done.
Qed.
